(** * TpsCaster: a shallow embedding of [tps-caster.ts]

    The development follows the TypeScript source
    [src/@tps/utils/src/lib/tps-caster.ts].

    - JavaScript values are primitives or references into a store of
      objects ([heap]); plain records, arrays and [Date] objects live in
      the store, so that [Object.assign(obj, casted)] is a write to the
      object the caller passed in, and [Object.assign({}, obj, casted)] is
      an allocation.
    - Code that can throw ([Object.assign] on [null], [JSON.stringify])
      runs in a store-and-exception monad [M].
    - The built-ins of the JavaScript runtime the source calls ([Number],
      [new Date], [JSON.parse], [JSON.stringify],
      [Number.prototype.toString]) are the fields of a class [Host]; the
      general theorems hold for every host, the worked examples run on
      [Scenario.host], which implements the first three, and on
      [JS.printing_host], which implements all five.
    - The recursion of [cast] through [deepCasters] is structural on the
      configuration, so [cast] is a total function: it returns, it throws,
      or it leaves the model ([Outside]).

    Modelling conventions.  A string is the UTF-8 encoding of the
    JavaScript string, and [js_length] counts its UTF-16 units.  A
    finite number is kept as an exact decimal [m * 10^e]: the rounding of a
    literal to an IEEE double and the sign of zero are not represented.
    An object of the store is its own enumerable properties; records,
    schemas, [deepCasters] and the object [casted] of the loop have the
    prototype [Object.prototype], whose members [key in o] finds
    ([Object_prototype_keys]).  The prototype of an object cannot change in
    the model: an assignment that would call the [__proto__] setter of
    [Object.prototype], or that the model cannot represent otherwise, ends
    the run with the outcome [Outside].  A configuration that already is
    an instance of [TpsCasterOptions] is the partial configuration that
    holds all its fields.

    The theorems about records are stated for the records of the data
    model: a plain object with distinct keys, none of them [__proto__],
    that no chain of references leads back to ([reach]), in a store where
    no reference dangles ([wf_heap]). *)

From Stdlib Require Import ZArith Lia Bool Ascii String.
From stdpp Require Import base option list strings pretty.

Local Open Scope string_scope.
Set Warnings "-register-all".

(** ** Numbers *)

Inductive number :=
  | NaN
  | Infinity (negative : bool)
  | Finite (m e : Z).            (* the exact decimal m * 10^e *)

Definition isNaN (n : number) : bool :=
  match n with NaN => true | _ => false end.

(** [ToBoolean] on a number: [NaN] and zero are falsy. *)
Definition number_truthy (n : number) : bool :=
  match n with
  | NaN => false
  | Infinity _ => true
  | Finite m _ => negb (m =? 0)%Z
  end.

Definition number_of_nat (n : nat) : number := Finite (Z.of_nat n) 0.

(** [a <= b] on numbers; every comparison with [NaN] is false. *)
Definition number_leb (a b : number) : bool :=
  match a, b with
  | NaN, _ | _, NaN => false
  | Infinity true, _ => true
  | _, Infinity false => true
  | Infinity false, _ => false
  | _, Infinity true => false
  | Finite m1 e1, Finite m2 e2 =>
      let e := Z.min e1 e2 in
      (m1 * 10 ^ (e1 - e) <=? m2 * 10 ^ (e2 - e))%Z
  end.

(** The time value of [new Date(n)]: [TimeClip] of the number, [None]
    standing for the [NaN] time value of an invalid date. *)
Definition time_clip (n : number) : option Z :=
  match n with
  | Finite m e =>
      let t := if (0 <=? e)%Z then (m * 10 ^ e)%Z else (m ÷ 10 ^ (- e))%Z in
      if number_leb (Finite (Z.abs m) e) (Finite 864 13) then Some t else None
  | _ => None
  end.

(** ** Regular expressions

    The fragment of the RegExp syntax the default date pattern is written
    in, with a backtracking matcher in continuation style.  [at_start]
    tells whether the current position is the start of the input. *)

Inductive regex :=
  | RDigit                       (* \d *)
  | RChar (c : ascii)
  | RStart                       (* ^ *)
  | REnd                         (* $ *)
  | REmpty
  | RSeq (r1 r2 : regex)
  | RAlt (r1 r2 : regex)         (* r1|r2 *)
  | ROpt (r : regex).            (* r? *)

Definition is_digit (c : ascii) : bool :=
  let n := nat_of_ascii c in (48 <=? n)%nat && (n <=? 57)%nat.

Fixpoint regex_match (r : regex) (at_start : bool) (s : string)
    (k : bool → string → bool) : bool :=
  match r with
  | RDigit =>
      match s with
      | String c s' => is_digit c && k false s'
      | EmptyString => false
      end
  | RChar a =>
      match s with
      | String c s' => Ascii.eqb a c && k false s'
      | EmptyString => false
      end
  | RStart => at_start && k at_start s
  | REnd => match s with EmptyString => k at_start s | _ => false end
  | REmpty => k at_start s
  | RSeq r1 r2 => regex_match r1 at_start s (λ b s', regex_match r2 b s' k)
  | RAlt r1 r2 => regex_match r1 at_start s k || regex_match r2 at_start s k
  | ROpt r1 => regex_match r1 at_start s k || k at_start s
  end.

Fixpoint regex_search (r : regex) (at_start : bool) (s : string) : bool :=
  regex_match r at_start s (λ _ _, true)
  || match s with
     | String _ s' => regex_search r false s'
     | EmptyString => false
     end.

(** [regex.test(val)] for a pattern without the [g] and [y] flags. *)
Definition regex_test (r : regex) (val : string) : bool :=
  regex_search r true val.

Fixpoint RRep (n : nat) (r : regex) : regex :=     (* r{n} *)
  match n with O => REmpty | S n' => RSeq r (RRep n' r) end.

Fixpoint RSeqs (rs : list regex) : regex :=
  match rs with [] => REmpty | r :: rs' => RSeq r (RSeqs rs') end.

(** ** Values, objects and the store *)

Abbreviation loc := nat.

Inductive value :=
  | VUndefined
  | VNull
  | VBoolean (b : bool)
  | VNumber (n : number)
  | VString (s : string)
  | VObject (l : loc).

Abbreviation props := (list (string * value)).

Inductive object :=
  | Plain (fields : props)       (* {...} *)
  | Array (elems : list value)   (* [...] *)
  | DateObj (t : option Z).      (* Date, by its time value in ms *)

Abbreviation heap := (list object).

(** The result of [JSON.parse], before it is allocated. *)
Inductive json :=
  | JNull
  | JBoolean (b : bool)
  | JNumber (n : number)
  | JString (s : string)
  | JArray (elems : list json)
  | JObject (fields : list (string * json)).

Inductive type_tag :=
  | TUndefined | TObject | TBoolean | TNumber | TString.

Definition typeof (v : value) : type_tag :=
  match v with
  | VUndefined => TUndefined
  | VNull => TObject
  | VBoolean _ => TBoolean
  | VNumber _ => TNumber
  | VString _ => TString
  | VObject _ => TObject
  end.

Definition is_object_type (v : value) : bool :=
  match typeof v with TObject => true | _ => false end.

(** [ToBoolean]. *)
Definition truthy (v : value) : bool :=
  match v with
  | VUndefined | VNull => false
  | VBoolean b => b
  | VNumber n => number_truthy n
  | VString s => negb (String.eqb s "")
  | VObject _ => true
  end.

(** *** Own properties *)

Fixpoint assoc_get {A} (key : string) (l : list (string * A)) : option A :=
  match l with
  | [] => None
  | (k, v) :: l' => if String.eqb key k then Some v else assoc_get key l'
  end.

Definition assoc_mem {A} (key : string) (l : list (string * A)) : bool :=
  match assoc_get key l with Some _ => true | None => false end.

(** [o[key] = v] on a plain record: an existing key keeps its place. *)
Fixpoint assoc_set {A} (key : string) (v : A) (l : list (string * A))
    : list (string * A) :=
  match l with
  | [] => [(key, v)]
  | (k, w) :: l' =>
      if String.eqb key k then (k, v) :: l' else (k, w) :: assoc_set key v l'
  end.

(** The property names of [Object.prototype] (ECMAScript 2023, 20.1.3
    and B.2.2): what [key in o] finds on an ordinary object beside its own
    properties. *)
Definition Object_prototype_keys : list string :=
  [ "constructor"; "__defineGetter__"; "__defineSetter__"; "hasOwnProperty";
    "__lookupGetter__"; "__lookupSetter__"; "isPrototypeOf";
    "propertyIsEnumerable"; "toString"; "valueOf"; "__proto__";
    "toLocaleString" ].

Definition inherited (key : string) : bool :=
  bool_decide (key ∈ Object_prototype_keys).

(** [key in o] for an object with the own properties [own] and the
    prototype [Object.prototype]. *)
Definition key_in {A} (key : string) (own : list (string * A)) : bool :=
  assoc_mem key own || inherited key.

Definition index_key (i : nat) : string := pretty i.

(** The own enumerable properties of an object, in [for ... in] order. *)
Definition props_of (o : object) : props :=
  match o with
  | Plain fields => fields
  | Array elems => imap (λ i v, (index_key i, v)) elems
  | DateObj _ => []
  end.

Definition own_keys (o : object) : list string := (props_of o).*1.

Definition get_prop (o : object) (key : string) : value :=
  default VUndefined (assoc_get key (props_of o)).

Definition array_index (key : string) (len : nat) : option nat :=
  list_find (λ i, index_key i = key) (seq 0 len) ≫= λ '(_, i), Some i.

(** [o[key] = v]; [None] when the model does not follow the assignment.
    On a record without an own property [__proto__], the key [__proto__]
    reaches the setter of [Object.prototype], which replaces the prototype
    of [o] when [v] is an object or [null] and creates no property.  [cast]
    only assigns keys it enumerated from the same object, so on an array
    the key is an index in range and a [Date] gets no assignment. *)
Definition set_prop (o : object) (key : string) (v : value) : option object :=
  match o with
  | Plain fields =>
      if String.eqb key "__proto__" && negb (assoc_mem key fields) then None
      else Some (Plain (assoc_set key v fields))
  | Array elems =>
      match array_index key (length elems) with
      | Some i => Some (Array (<[i := v]> elems))
      | None => None
      end
  | DateObj _ => None
  end.

(** [Object.assign(target, source)] on the objects themselves: one
    assignment per property of the source, in order. *)
Fixpoint assign_props (target : object) (source : props) : option object :=
  match source with
  | [] => Some target
  | (k, v) :: rest =>
      match set_prop target k v with
      | Some o => assign_props o rest
      | None => None
      end
  end.

(** ** The store-and-exception monad

    A run returns a value, throws, or reaches an assignment the model
    does not follow ([Outside]); of such a run the model says nothing. *)

Inductive exn := TypeError.

Inductive outcome (A : Type) :=
  | Ok (a : A) (h : heap)
  | Throw (e : exn) (h : heap)
  | Outside.
Arguments Ok {A} a h.
Arguments Throw {A} e h.
Arguments Outside {A}.

Definition M (A : Type) : Type := heap → outcome A.

Definition ret {A} (a : A) : M A := λ h, Ok a h.
Definition throw {A} (e : exn) : M A := λ h, Throw e h.
Definition outside {A} : M A := λ _, Outside.
Definition bind {A B} (m : M A) (f : A → M B) : M B :=
  λ h, match m h with
       | Ok a h' => f a h'
       | Throw e h' => Throw e h'
       | Outside => Outside
       end.

Declare Scope cast_scope.
Delimit Scope cast_scope with cast.
Notation "'let*' x ':=' m 'in' k" := (bind m (λ x, k))
  (at level 10, x name, m at level 100, k at level 200) : cast_scope.
Local Open Scope cast_scope.

(** Reading the object behind a reference. *)
Definition read (l : loc) : M object :=
  λ h, Ok (default (Plain []) (h !! l)) h.

Definition write (l : loc) (o : object) : M unit :=
  λ h, Ok tt (<[l := o]> h).

Definition alloc (o : object) : M value :=
  λ h, Ok (VObject (length h)) (h ++ [o]).

Fixpoint mapM {A B} (f : A → M B) (l : list A) : M (list B) :=
  match l with
  | [] => ret []
  | a :: l' => let* b := f a in let* bs := mapM f l' in ret (b :: bs)
  end.

Fixpoint foldM {A B} (f : B → A → M B) (l : list A) (b : B) : M B :=
  match l with
  | [] => ret b
  | a :: l' => let* b' := f b a in foldM f l' b'
  end.

(** Allocation of a parsed JSON text, children before their parent; a
    repeated key keeps its first place and its last value. *)
Fixpoint alloc_json (j : json) : M value :=
  match j with
  | JNull => ret VNull
  | JBoolean b => ret (VBoolean b)
  | JNumber n => ret (VNumber n)
  | JString s => ret (VString s)
  | JArray elems =>
      let* vs := (fix go (l : list json) : M (list value) :=
                    match l with
                    | [] => ret []
                    | x :: l' =>
                        let* v := alloc_json x in
                        let* vs := go l' in ret (v :: vs)
                    end) elems in
      alloc (Array vs)
  | JObject fields =>
      let* ps := (fix go (l : list (string * json)) (acc : props) : M props :=
                    match l with
                    | [] => ret acc
                    | (k, x) :: l' =>
                        let* v := alloc_json x in go l' (assoc_set k v acc)
                    end) fields [] in
      alloc (Plain ps)
  end.

(** ** The built-ins of the runtime *)

Class Host := {
  (** [Number(s)] *)
  js_Number : string → number;
  (** the time value of [new Date(s)]; [None] is an invalid date *)
  js_Date_parse : string → option Z;
  (** [JSON.parse(s)]; [None] when it throws a [SyntaxError] *)
  js_JSON_parse : string → option json;
  (** [JSON.stringify(v)]; [None] when it throws a [TypeError] *)
  js_JSON_stringify : heap → value → option string;
  (** [n.toString()] *)
  js_Number_toString : number → string
}.

Definition lower_ascii (c : ascii) : ascii :=
  let n := nat_of_ascii c in
  if (65 <=? n)%nat && (n <=? 90)%nat then ascii_of_nat (n + 32) else c.

(** [s.length]: the number of UTF-16 code units of the string whose
    UTF-8 encoding is [s].  A continuation byte adds nothing, the lead
    byte of a sequence of up to three bytes stands for one unit, and the
    lead byte of a four-byte sequence for a surrogate pair. *)
Definition utf16_units (c : ascii) : nat :=
  let n := nat_of_ascii c in
  if (n <? 128)%nat then 1%nat
  else if (n <? 192)%nat then 0%nat
  else if (n <? 240)%nat then 1%nat
  else 2%nat.

Fixpoint js_length (s : string) : nat :=
  match s with
  | EmptyString => 0%nat
  | String c s' => (utf16_units c + js_length s')%nat
  end.

(** [s.toLowerCase()] on the ASCII letters: no other character has a
    lower-case form among the letters of [true] and [false]. *)
Fixpoint toLowerCase (s : string) : string :=
  match s with
  | EmptyString => EmptyString
  | String c s' => String (lower_ascii c) (toLowerCase s')
  end.

(** ** Options: [TpsCasterOptions] and its partial form *)

Inductive TpsCasterSchemaTypes :=
  | T_string | T_number | T_date | T_boolean | T_object.

Definition schema_type_eqb (a b : TpsCasterSchemaTypes) : bool :=
  match a, b with
  | T_string, T_string | T_number, T_number | T_date, T_date
  | T_boolean, T_boolean | T_object, T_object => true
  | _, _ => false
  end.

(** A schema entry is a boolean or one of the type names. *)
Inductive schema_entry :=
  | SFlag (b : bool)
  | SType (t : TpsCasterSchemaTypes).

Abbreviation TpsCasterSchema := (list (string * schema_entry)).

(** [Partial<TpsCasterOptions>]: every field may be absent. *)
Inductive Partial := mkPartial {
  p_enableAll : option bool;
  p_onlySchema : option bool;
  p_rewriteFields : option bool;
  p_stringsToNumbers : option bool;
  p_numberMaxChars : option number;
  p_stringsToDates : option bool;
  p_datesMatchRegex : option (list regex);
  p_stringsToBooleans : option bool;
  p_stringsToObjects : option bool;
  p_schema : option TpsCasterSchema;
  p_deepCasters : option (list (string * Partial))
}.

(** An instance of the class: every field has a value. *)
Record TpsCasterOptions := mkOptions {
  enableAll : bool;
  onlySchema : bool;
  rewriteFields : bool;
  stringsToNumbers : bool;
  numberMaxChars : number;
  stringsToDates : bool;
  datesMatchRegex : list regex;
  stringsToBooleans : bool;
  stringsToObjects : bool;
  schema : option TpsCasterSchema;
  deepCasters : option (list (string * Partial))
}.

(** [/^(?:(\d{4}-\d{2}-\d{2})(?:T\d{2}:\d{2}:\d{2}Z)?)|(?:\d{2}-\d{2}-(?:\d{2}|\d{4}))$/]:
    the alternation is the outermost operator, so [^] belongs to the first
    branch only and [$] to the second only. *)
Definition datesMatchRegexDefault : list regex :=
  let d2 := RRep 2 RDigit in
  let d4 := RRep 4 RDigit in
  let dash := RChar "-" in
  let colon := RChar ":" in
  [ RAlt
      (RSeqs [ RStart;
               RSeqs [d4; dash; d2; dash; d2];
               ROpt (RSeqs [RChar "T"; d2; colon; d2; colon; d2; RChar "Z"]) ])
      (RSeqs [ RSeqs [d2; dash; d2; dash; RAlt d2 d4]; REnd ]) ].

(** The field initialisers of the class. *)
Definition default_options : TpsCasterOptions := {|
  enableAll := false;
  onlySchema := false;
  rewriteFields := false;
  stringsToNumbers := false;
  numberMaxChars := Finite 8 0;
  stringsToDates := false;
  datesMatchRegex := datesMatchRegexDefault;
  stringsToBooleans := false;
  stringsToObjects := false;
  schema := None;
  deepCasters := None
|}.

(** [enableAllApply(val?)]: without an argument it returns at once. *)
Definition enableAllApply (val : option bool) (this : TpsCasterOptions)
    : TpsCasterOptions :=
  match val with
  | None => this
  | Some b =>
      {| enableAll := enableAll this;
         onlySchema := onlySchema this;
         rewriteFields := rewriteFields this;
         stringsToNumbers := b;
         numberMaxChars := numberMaxChars this;
         stringsToDates := b;
         datesMatchRegex := datesMatchRegex this;
         stringsToBooleans := b;
         stringsToObjects := b;
         schema := schema this;
         deepCasters := deepCasters this |}
  end.

(** [Object.assign(this, options)]: the fields present in [options]
    replace those of [this]. *)
Definition assign_options (this : TpsCasterOptions) (options : Partial)
    : TpsCasterOptions := {|
  enableAll := default (enableAll this) (p_enableAll options);
  onlySchema := default (onlySchema this) (p_onlySchema options);
  rewriteFields := default (rewriteFields this) (p_rewriteFields options);
  stringsToNumbers := default (stringsToNumbers this) (p_stringsToNumbers options);
  numberMaxChars := default (numberMaxChars this) (p_numberMaxChars options);
  stringsToDates := default (stringsToDates this) (p_stringsToDates options);
  datesMatchRegex := default (datesMatchRegex this) (p_datesMatchRegex options);
  stringsToBooleans := default (stringsToBooleans this) (p_stringsToBooleans options);
  stringsToObjects := default (stringsToObjects this) (p_stringsToObjects options);
  schema := match p_schema options with Some s => Some s | None => schema this end;
  deepCasters :=
    match p_deepCasters options with Some d => Some d | None => deepCasters this end
|}.

(** The constructor: initialisers, then [Object.assign(this, options)],
    then [if (options?.enableAll) this.enableAllApply()] -- a call without
    an argument. *)
Definition new_TpsCasterOptions (options : option Partial) : TpsCasterOptions :=
  let this := default_options in
  let this :=
    match options with Some o => assign_options this o | None => this end in
  if default false (options ≫= p_enableAll)
  then enableAllApply None this
  else this.

(** The two statements that open [cast]:
    [opts = new TpsCasterOptions(options); opts.enableAllApply();].  An
    [options] that already is an instance is the partial configuration
    holding all its fields. *)
Definition resolve_options (options : option Partial) : TpsCasterOptions :=
  enableAllApply None (new_TpsCasterOptions options).

(** ** The coercion engine *)

Section Engine.

Context {host : Host}.

Definition is_type (toType : option TpsCasterSchemaTypes)
    (t : TpsCasterSchemaTypes) : bool :=
  match toType with Some t' => schema_type_eqb t' t | None => false end.

(** The [for (const regex of matches)] loop of the date heuristic. *)
Fixpoint date_loop (matches : list regex) (val : string) : option Z :=
  match matches with
  | [] => None
  | regex :: rest =>
      if regex_test regex val then
        match js_Date_parse val with
        | Some t => Some t
        | None => date_loop rest val
        end
      else date_loop rest val
  end.

(** The four blocks of [_castFromString], each by what it returns when it
    returns. *)

(* NUMBER *)
Definition try_number (val : string) (opts : TpsCasterOptions)
    (toType : option TpsCasterSchemaTypes) : option number :=
  if is_type toType T_number
     || (stringsToNumbers opts
         && number_leb (number_of_nat (js_length val)) (numberMaxChars opts))
  then
    let num := js_Number val in
    if negb (isNaN num) then Some num else None
  else None.

(* DATE *)
Definition try_date (val : string) (opts : TpsCasterOptions)
    (toType : option TpsCasterSchemaTypes) : option Z :=
  if is_type toType T_date
     || (stringsToDates opts && (js_length val <=? 20)%nat)
  then date_loop (datesMatchRegex opts) val
  else None.

(* BOOLEAN *)
Definition try_boolean (val : string) (opts : TpsCasterOptions)
    (toType : option TpsCasterSchemaTypes) : option bool :=
  if is_type toType T_boolean
     || (stringsToBooleans opts && (js_length val <=? 5)%nat)
  then
    let bool := String.eqb (toLowerCase val) "true" in
    if bool || String.eqb (toLowerCase val) "false" then Some bool else None
  else None.

(* STRING TO OBJECT: the SyntaxError of JSON.parse is caught, and a parsed
   null or scalar is not returned *)
Definition try_object (val : string) (opts : TpsCasterOptions)
    (toType : option TpsCasterSchemaTypes) : option json :=
  if is_type toType T_object || stringsToObjects opts then
    match js_JSON_parse val with
    | Some (JArray elems) => Some (JArray elems)
    | Some (JObject fields) => Some (JObject fields)
    | _ => None
    end
  else None.

(** [_castFromString(val, opts, toType)]; [None] is [undefined].  Both
    callers pass a defined [opts]. *)
Definition _castFromString (val : string) (opts : TpsCasterOptions)
    (toType : option TpsCasterSchemaTypes) : M (option value) :=
  match try_number val opts toType with
  | Some num => ret (Some (VNumber num))
  | None =>
  match try_date val opts toType with
  | Some t => let* date := alloc (DateObj (Some t)) in ret (Some date)
  | None =>
  match try_boolean val opts toType with
  | Some bool => ret (Some (VBoolean bool))
  | None =>
  match try_object val opts toType with
  | Some j => let* obj := alloc_json j in ret (Some obj)
  | None => ret None
  end end end end.

(** [_castSchemaField(val, toType, opts)]. *)
Definition _castSchemaField (val : value) (toType : TpsCasterSchemaTypes)
    (opts : TpsCasterOptions) : M (option value) :=
  let* castedVal :=
    match val with
    | VString s =>
        if negb (schema_type_eqb toType T_string)
        then _castFromString s opts (Some toType)
        else ret None
    | _ => ret None
    end in
  match castedVal with
  | Some v => ret (Some v)
  | None =>
      match val with
      | VNumber n =>
          match toType with
          | T_boolean => ret (Some (VBoolean (number_truthy n)))
          | T_string => ret (Some (VString (js_Number_toString n)))
          | T_date =>
              let* date := alloc (DateObj (time_clip n)) in ret (Some date)
          | T_number | T_object => ret None
          end
      | VNull | VObject _ =>
          if schema_type_eqb toType T_string then
            λ h, match js_JSON_stringify h val with
                 | Some s => Ok (Some (VString s)) h
                 | None => Throw TypeError h
                 end
          else ret None
      | _ => ret None
      end
  end.

Definition schema_lookup (opts : TpsCasterOptions) (key : string)
    : option schema_entry :=
  schema opts ≫= assoc_get key.

(** The condition of lines 62-65: the field is forced to skip, or only
    schema fields are allowed and it is not one.  [opts.schema[key]] is
    [false] only for an own entry; [key in opts.schema] also finds the
    members of [Object.prototype]. *)
Definition schema_gate (opts : TpsCasterOptions) (key : string) : bool :=
  match schema opts with
  | Some sch =>
      match assoc_get key sch with
      | Some (SFlag false) => true
      | _ => onlySchema opts && negb (key_in key sch)
      end
  | None => false
  end.

(** [obj[key]] for the record being cast. *)
Definition get_field (obj : value) (key : string) : M value :=
  match obj with
  | VObject l => let* o := read l in ret (get_prop o key)
  | _ => ret VUndefined
  end.

Definition isArray (v : value) : M (option (list value)) :=
  match v with
  | VObject l =>
      let* o := read l in
      ret (match o with Array elems => Some elems | _ => None end)
  | _ => ret None
  end.

(** [casted[key] = v].  [casted] starts as [{}] and never gets an own
    property [__proto__], so that key always reaches the setter. *)
Definition store (casted : props) (key : string) (v : value) : M props :=
  match set_prop (Plain casted) key v with
  | Some (Plain casted') => ret casted'
  | _ => outside
  end.

(** One turn of the [for (const key in obj)] loop.  [deep key] is
    [Some f] when [opts.deepCasters && key in opts.deepCasters], with [f]
    the recursive call [v => TpsCaster.cast(v, opts.deepCasters[key])]. *)
Definition cast_key (deep : string → option (value → M value))
    (opts : TpsCasterOptions) (obj : value)
    (casted : props) (key : string) : M props :=
  let* val := get_field obj key in
  if negb (truthy val) then ret casted else
  if schema_gate opts key then ret casted else
  let* castedVal :=
    match val with
    | VString s => _castFromString s opts None
    | _ => ret None
    end in
  match castedVal with
  | Some v => store casted key v
  | None =>
  match (if is_object_type val then deep key else None) with
  | Some cast_deep =>
      let* arr := isArray val in
      match arr with
      | Some elems =>
          let* vs := mapM cast_deep elems in
          let* a := alloc (Array vs) in
          store casted key a
      | None =>
          let* v := cast_deep val in
          store casted key v
      end
  | None =>
  (* opts.schema && (key in opts.schema) && !(key in casted) *)
  if match schema opts with Some sch => key_in key sch | None => false end
     && negb (key_in key casted)
  then
    match schema_lookup opts key with
    | Some (SFlag _) => ret casted
    | Some (SType toType) =>
        let* castedVal := _castSchemaField val toType opts in
        match castedVal with
        | Some v => store casted key v
        | None => ret casted
        end
    | None =>
        (* [toType] would be a member of [Object.prototype]; not reached,
           since such a key is in [casted] as well *)
        ret casted
    end
  else ret casted
  end end.

(** The keys [for (const key in obj)] visits. *)
Definition enumerate (obj : value) : M (list string) :=
  match obj with
  | VObject l => let* o := read l in ret (own_keys o)
  | _ => ret []
  end.

Definition cast_fields (deep : string → option (value → M value))
    (opts : TpsCasterOptions) (obj : value) : M props :=
  let* keys := enumerate obj in
  foldM (cast_key deep opts obj) keys [].

(** [Object.assign(obj, casted)]: [ToObject] throws on [null]. *)
Definition assign_in_place (obj : value) (casted : props) : M value :=
  match obj with
  | VObject l =>
      let* o := read l in
      match assign_props o casted with
      | Some o' => let* _ := write l o' in ret obj
      | None => outside
      end
  | _ => throw TypeError
  end.

(** [Object.assign({}, obj, casted)]: a [null] source is skipped. *)
Definition assign_copy (obj : value) (casted : props) : M value :=
  let* source :=
    match obj with
    | VObject l => let* o := read l in ret (props_of o)
    | _ => ret []
    end in
  match assign_props (Plain []) source ≫= λ o, assign_props o casted with
  | Some o => alloc o
  | None => outside
  end.

(** The body of [cast] for resolved options. *)
Definition cast_with (deep : string → option (value → M value))
    (opts : TpsCasterOptions) (obj : value) : M value :=
  if negb (is_object_type obj) then ret obj else
  let* casted := cast_fields deep opts obj in
  if rewriteFields opts then assign_in_place obj casted
  else assign_copy obj casted.

(** [TpsCaster.cast(obj, options)] for a given partial configuration, by
    structural recursion on the configuration: [opts.deepCasters] is the
    [deepCasters] of [options] ([resolve_options_deepCasters]), and the call
    [TpsCaster.cast(v, opts.deepCasters[key])] is on a part of [options].
    For a key that is not an own key of [opts.deepCasters] but a member of
    [Object.prototype], [key in opts.deepCasters] holds all the same, and
    [opts.deepCasters[key]] is a function or [Object.prototype] itself: an
    object without enumerable properties, from which
    [new TpsCasterOptions] takes nothing, so that the call runs with the
    default options. *)
Fixpoint cast_partial (options : Partial) {struct options} : value → M value :=
  cast_with
    (λ key,
       match p_deepCasters options with
       | Some casters =>
           (fix lookup (l : list (string * Partial))
              : option (value → M value) :=
              match l with
              | [] =>
                  if inherited key
                  then Some (cast_with (λ _, None) (resolve_options None))
                  else None
              | (k, deepOpts) :: l' =>
                  if String.eqb key k then Some (cast_partial deepOpts)
                  else lookup l'
              end) casters
       | None => None
       end)
    (resolve_options (Some options)).

(** The recursive calls of [cast_partial], by field name. *)
Definition deep_casters (options : Partial) (key : string)
    : option (value → M value) :=
  match p_deepCasters options with
  | Some casters =>
      (fix lookup (l : list (string * Partial)) : option (value → M value) :=
         match l with
         | [] =>
             if inherited key
             then Some (cast_with (λ _, None) (resolve_options None))
             else None
         | (k, deepOpts) :: l' =>
             if String.eqb key k then Some (cast_partial deepOpts)
             else lookup l'
         end) casters
  | None => None
  end.

(** [opts.deepCasters && key in opts.deepCasters]. *)
Definition deep_registered (options : Partial) (key : string) : bool :=
  match p_deepCasters options with
  | Some casters => key_in key casters
  | None => false
  end.

(** [TpsCaster.cast(obj, options?)]. *)
Definition cast (obj : value) (options : option Partial) : M value :=
  match options with
  | Some o => cast_partial o obj
  | None => cast_with (λ _, None) (resolve_options None) obj
  end.

End Engine.

(** ** The heuristics as the specification words them

    A second description of the string heuristics, written from the
    specification (section 4.2, step 3) and not from the code: a fixed
    priority list, and for each heuristic when it is eligible and what it
    takes for it to parse. [_castFromString] is compared with it below. *)

Section Heuristics.

Context {host : Host}.

Inductive heuristic := H_number | H_date | H_boolean | H_object.

Definition priority_order : list heuristic :=
  [H_number; H_date; H_boolean; H_object].

Inductive parsed :=
  | P_number (n : number)
  | P_date (t : Z)
  | P_boolean (b : bool)
  | P_object (j : json).

(** Forced: the caller declares a type, and it is the type of the
    heuristic. *)
Definition forced (hz : heuristic) (toType : option TpsCasterSchemaTypes)
    : bool :=
  match hz, toType with
  | H_number, Some T_number => true
  | H_date, Some T_date => true
  | H_boolean, Some T_boolean => true
  | H_object, Some T_object => true
  | _, _ => false
  end.

(** Enabled: the toggle of the heuristic is on and the string is within
    its length limit -- the configured maximum for numbers, 20 for dates,
    5 for booleans, none for objects. *)
Definition enabled (hz : heuristic) (val : string) (opts : TpsCasterOptions)
    : bool :=
  match hz with
  | H_number =>
      stringsToNumbers opts
      && number_leb (number_of_nat (js_length val)) (numberMaxChars opts)
  | H_date => stringsToDates opts && (js_length val <=? 20)%nat
  | H_boolean => stringsToBooleans opts && (js_length val <=? 5)%nat
  | H_object => stringsToObjects opts
  end.

(** Eligible: forced by the declared type, or enabled. *)
Definition eligible (hz : heuristic) (val : string) (opts : TpsCasterOptions)
    (toType : option TpsCasterSchemaTypes) : bool :=
  forced hz toType || enabled hz val opts.

(** Successful parse. *)
Definition parses (hz : heuristic) (val : string) (opts : TpsCasterOptions)
    : option parsed :=
  match hz with
  | H_number =>
      if isNaN (js_Number val) then None else Some (P_number (js_Number val))
  | H_date =>
      if existsb (λ r, regex_test r val) (datesMatchRegex opts)
      then P_date <$> js_Date_parse val
      else None
  | H_boolean =>
      if String.eqb (toLowerCase val) "true" then Some (P_boolean true)
      else if String.eqb (toLowerCase val) "false" then Some (P_boolean false)
      else None
  | H_object =>
      match js_JSON_parse val with
      | Some (JArray elems) => Some (P_object (JArray elems))
      | Some (JObject fields) => Some (P_object (JObject fields))
      | _ => None
      end
  end.

(** The first heuristic of the list that is eligible and parses. *)
Fixpoint first_success (order : list heuristic) (val : string)
    (opts : TpsCasterOptions) (toType : option TpsCasterSchemaTypes)
    : option (heuristic * parsed) :=
  match order with
  | [] => None
  | hz :: rest =>
      if eligible hz val opts toType then
        match parses hz val opts with
        | Some r => Some (hz, r)
        | None => first_success rest val opts toType
        end
      else first_success rest val opts toType
  end.

(** The value a successful parse stands for; a date and an object are
    new objects of the store. *)
Definition materialise (r : option (heuristic * parsed)) : M (option value) :=
  match r with
  | None => ret None
  | Some (_, P_number n) => ret (Some (VNumber n))
  | Some (_, P_boolean b) => ret (Some (VBoolean b))
  | Some (_, P_date t) =>
      let* date := alloc (DateObj (Some t)) in ret (Some date)
  | Some (_, P_object j) => let* obj := alloc_json j in ret (Some obj)
  end.

End Heuristics.

(** ** A host: the built-ins on the inputs of the scenarios

    [JS.Number] follows the StringToNumber grammar of ECMAScript,
    [JS.JSON.parse] the JSON grammar, and [JS.Date_parse] the ISO forms
    [yyyy], [yyyy-mm], [yyyy-mm-dd] and [yyyy-mm-ddTHH:MM:SSZ], all UTC; a
    date string in another format, whose reading depends on the engine and
    its time zone, is reported invalid by this host.
    [JS.stringify] serializes the values of the store, and
    [JS.Number_toString] prints a decimal as Number::toString prints the
    double with these digits. *)

Module JS.

Definition digit_value (c : ascii) : option Z :=
  let n := nat_of_ascii c in
  if (48 <=? n)%nat && (n <=? 57)%nat then Some (Z.of_nat (n - 48))
  else if (97 <=? n)%nat && (n <=? 102)%nat then Some (Z.of_nat (n - 87))
  else if (65 <=? n)%nat && (n <=? 70)%nat then Some (Z.of_nat (n - 55))
  else None.

(** The longest prefix of digits in [base], as (value, count, rest). *)
Fixpoint digits (base : Z) (acc : Z) (count : nat) (s : string)
    : Z * nat * string :=
  match s with
  | String c s' =>
      match digit_value c with
      | Some d =>
          if (d <? base)%Z then digits base (acc * base + d)%Z (S count) s'
          else (acc, count, s)
      | None => (acc, count, s)
      end
  | EmptyString => (acc, count, s)
  end.

(** The decimal [m * 10^e] without trailing zeros in [m]. *)
Fixpoint strip_zeros (fuel : nat) (m e : Z) : number :=
  match fuel with
  | O => Finite m e
  | S fuel' =>
      if (m =? 0)%Z then Finite 0 0
      else if (m mod 10 =? 0)%Z then strip_zeros fuel' (m / 10) (e + 1)
      else Finite m e
  end.

Definition decimal (ndigits : nat) (m e : Z) : number :=
  strip_zeros (S ndigits) m e.

Definition is_space (c : ascii) : bool :=
  let n := nat_of_ascii c in
  ((9 <=? n)%nat && (n <=? 13)%nat) || (n =? 32)%nat.

Fixpoint trim_left (s : string) : string :=
  match s with
  | String c s' => if is_space c then trim_left s' else s
  | EmptyString => s
  end.

Fixpoint string_rev (acc s : string) : string :=
  match s with
  | String c s' => string_rev (String c acc) s'
  | EmptyString => acc
  end.

Definition trim (s : string) : string :=
  string_rev "" (trim_left (string_rev "" (trim_left s))).

(** [e] or [E], an optional sign and digits; (exponent, rest). *)
Definition exponent_part (s : string) : option (Z * string) :=
  match s with
  | String c s' =>
      if Ascii.eqb c "e" || Ascii.eqb c "E" then
        let '(negative, s'') :=
          match s' with
          | String sg r =>
              if Ascii.eqb sg "-" then (true, r)
              else if Ascii.eqb sg "+" then (false, r)
              else (false, s')
          | EmptyString => (false, s')
          end in
        let '(x, n, rest) := digits 10 0 0 s'' in
        if (n =? 0)%nat then None
        else Some (if negative then (- x)%Z else x, rest)
      else Some (0%Z, s)
  | EmptyString => Some (0%Z, s)
  end.

(** StrUnsignedDecimalLiteral without [Infinity]; the whole string must
    be consumed. *)
Definition unsigned_decimal (s : string) : option number :=
  let '(ip, ni, s1) := digits 10 0 0 s in
  let '(fp, nf, s2, dot) :=
    match s1 with
    | String c r =>
        if Ascii.eqb c "." then
          let '(m, n, r') := digits 10 ip 0 r in (m, n, r', true)
        else (ip, O, s1, false)
    | EmptyString => (ip, O, s1, false)
    end in
  if ((ni =? 0) && (nf =? 0))%nat then None
  else
    match exponent_part s2 with
    | Some (x, EmptyString) => Some (decimal (ni + nf) fp (x - Z.of_nat nf))
    | _ => None
    end.

Definition prefixed (base : Z) (s : string) : option number :=
  let '(m, n, rest) := digits base 0 0 s in
  match rest with
  | EmptyString => if (n =? 0)%nat then None else Some (decimal n m 0)
  | _ => None
  end.

Definition negate (n : number) : number :=
  match n with
  | NaN => NaN
  | Infinity b => Infinity (negb b)
  | Finite m e => Finite (- m) e
  end.

Definition unsigned_literal (s : string) : number :=
  if String.eqb s "Infinity" then Infinity false
  else default NaN (unsigned_decimal s).

(** [Number(s)] on a string. *)
Definition Number (s : string) : number :=
  match trim s with
  | EmptyString => Finite 0 0
  | String c r =>
      if Ascii.eqb c "+" then unsigned_literal r
      else if Ascii.eqb c "-" then negate (unsigned_literal r)
      else
        match r with
        | String x r' =>
            if Ascii.eqb c "0" && (Ascii.eqb x "x" || Ascii.eqb x "X")
            then default NaN (prefixed 16 r')
            else if Ascii.eqb c "0" && (Ascii.eqb x "o" || Ascii.eqb x "O")
            then default NaN (prefixed 8 r')
            else if Ascii.eqb c "0" && (Ascii.eqb x "b" || Ascii.eqb x "B")
            then default NaN (prefixed 2 r')
            else unsigned_literal (String c r)
        | EmptyString => unsigned_literal (String c r)
        end
  end.

(** *** Dates *)

Definition is_leap (y : Z) : bool :=
  ((y mod 4 =? 0) && negb (y mod 100 =? 0) || (y mod 400 =? 0))%Z.

Definition days_in_month (y m : Z) : Z :=
  if (m =? 2)%Z then (if is_leap y then 29 else 28)%Z
  else if ((m =? 4) || (m =? 6) || (m =? 9) || (m =? 11))%Z then 30%Z
  else 31%Z.

(** Days from 1970-01-01 to the civil date, proleptic Gregorian. *)
Definition days_from_civil (y m d : Z) : Z :=
  let y' := (if m <=? 2 then y - 1 else y)%Z in
  let era := (y' / 400)%Z in
  let yoe := (y' - era * 400)%Z in
  let mp := (if 2 <? m then m - 3 else m + 9)%Z in
  let doy := ((153 * mp + 2) / 5 + d - 1)%Z in
  let doe := (yoe * 365 + yoe / 4 - yoe / 100 + doy)%Z in
  (era * 146097 + doe - 719468)%Z.

(** Exactly [n] decimal digits; (value, rest). *)
Fixpoint fixed_digits (n : nat) (acc : Z) (s : string) : option (Z * string) :=
  match n with
  | O => Some (acc, s)
  | S n' =>
      match s with
      | String c s' =>
          if is_digit c
          then fixed_digits n' (acc * 10 + Z.of_nat (nat_of_ascii c - 48))%Z s'
          else None
      | EmptyString => None
      end
  end.

Definition expect (c : ascii) (s : string) : option string :=
  match s with
  | String c' s' => if Ascii.eqb c c' then Some s' else None
  | EmptyString => None
  end.

Definition Date_parse (s : string) : option Z :=
  '(y, s) ← fixed_digits 4 0 s;
  match s with
  | EmptyString => Some (days_from_civil y 1 1 * 86400000)%Z
  | _ =>
  s ← expect "-" s;
  '(m, s) ← fixed_digits 2 0 s;
  match s with
  | EmptyString =>
      if ((1 <=? m) && (m <=? 12))%Z
      then Some (days_from_civil y m 1 * 86400000)%Z
      else None
  | _ =>
  s ← expect "-" s;
  '(d, s) ← fixed_digits 2 0 s;
  if negb ((1 <=? m) && (m <=? 12) && (1 <=? d) && (d <=? days_in_month y m))%Z
  then None
  else
    let day := (days_from_civil y m d * 86400000)%Z in
    match s with
    | EmptyString => Some day
    | _ =>
        s ← expect "T" s;
        '(hh, s) ← fixed_digits 2 0 s;
        s ← expect ":" s;
        '(mm, s) ← fixed_digits 2 0 s;
        s ← expect ":" s;
        '(ss, s) ← fixed_digits 2 0 s;
        s ← expect "Z" s;
        match s with
        | EmptyString =>
            if ((hh <=? 23) && (mm <=? 59) && (ss <=? 59)
                || (hh =? 24) && (mm =? 0) && (ss =? 0))%Z
            then Some (day + ((hh * 60 + mm) * 60 + ss) * 1000)%Z
            else None
        | _ => None
        end
    end
  end end.

(** The civil date of a day number: the inverse of [days_from_civil]. *)
Definition civil_from_days (z : Z) : Z * Z * Z :=
  let z := (z + 719468)%Z in
  let era := (z / 146097)%Z in
  let doe := (z - era * 146097)%Z in
  let yoe := ((doe - doe / 1460 + doe / 36524 - doe / 146096) / 365)%Z in
  let doy := (doe - (365 * yoe + yoe / 4 - yoe / 100))%Z in
  let mp := ((5 * doy + 2) / 153)%Z in
  let d := (doy - (153 * mp + 2) / 5 + 1)%Z in
  let m := (if mp <? 10 then mp + 3 else mp - 9)%Z in
  let y := (yoe + era * 400 + (if m <=? 2 then 1 else 0))%Z in
  (y, m, d).

(** The decimal digits of a natural number, at least [width] of them. *)
Definition padded (width : nat) (n : Z) : string :=
  let s : string := pretty (Z.to_N n) in
  String.concat "" (replicate (width - String.length s) "0") ++ s.

(** [new Date(t).toISOString()] for a valid time value. *)
Definition Date_toISOString (t : Z) : string :=
  let day := (t / 86400000)%Z in
  let ms := (t mod 86400000)%Z in
  let '(y, m, d) := civil_from_days day in
  let year :=
    if ((0 <=? y) && (y <=? 9999))%Z then padded 4 y
    else if (y <? 0)%Z then "-" ++ padded 6 (- y)%Z
    else "+" ++ padded 6 y in
  year ++ "-" ++ padded 2 m ++ "-" ++ padded 2 d ++ "T"
  ++ padded 2 (ms / 3600000) ++ ":" ++ padded 2 ((ms / 60000) mod 60) ++ ":"
  ++ padded 2 ((ms / 1000) mod 60) ++ "." ++ padded 3 (ms mod 1000) ++ "Z".

(** *** Numbers as text *)

(** [n.toString()]: the digits of the decimal without trailing zeros,
    laid out as Number::toString does. *)
Definition Number_toString (x : number) : string :=
  match x with
  | NaN => "NaN"
  | Infinity negative => if negative then "-Infinity" else "Infinity"
  | Finite m e =>
      match strip_zeros (S (String.length (pretty (Z.to_N (Z.abs m))))) m e with
      | Finite m e =>
          if (m =? 0)%Z then "0"
          else
            let sign : string := if (m <? 0)%Z then "-" else "" in
            let ds : string := pretty (Z.to_N (Z.abs m)) in
            let k := Z.of_nat (String.length ds) in
            let n := (k + e)%Z in
            let zeros (z : Z) : string :=
              String.concat "" (replicate (Z.to_nat z) "0") in
            sign ++
            (if ((k <=? n) && (n <=? 21))%Z then ds ++ zeros (n - k)%Z
             else if ((0 <? n) && (n <=? 21))%Z then
               String.substring 0 (Z.to_nat n) ds ++ "."
               ++ String.substring (Z.to_nat n) (Z.to_nat (k - n)%Z) ds
             else if ((-6 <? n) && (n <=? 0))%Z then "0." ++ zeros (- n)%Z ++ ds
             else
               let x := (n - 1)%Z in
               let mantissa : string :=
                 if (k =? 1)%Z then ds
                 else String.substring 0 1 ds ++ "."
                      ++ String.substring 1 (Z.to_nat (k - 1)%Z) ds in
               mantissa ++ "e" ++ (if (x <? 0)%Z then "-" else "+")
               ++ pretty (Z.to_N (Z.abs x)))
      | _ => "NaN"
      end
  end.

(** *** JSON *)

Module JSON.

Definition dquote : ascii := ascii_of_nat 34.
Definition backslash : ascii := ascii_of_nat 92.

Definition is_ws (c : ascii) : bool :=
  let n := nat_of_ascii c in
  (n =? 32)%nat || (n =? 9)%nat || (n =? 10)%nat || (n =? 13)%nat.

Fixpoint skip_ws (s : string) : string :=
  match s with
  | String c s' => if is_ws c then skip_ws s' else s
  | EmptyString => s
  end.

(** The bytes of the UTF-8 encoding of a code unit below 0x10000. *)
Definition utf8 (u : Z) (rest : string) : string :=
  let byte (z : Z) := ascii_of_nat (Z.to_nat z) in
  if (u <? 128)%Z then String (byte u) rest
  else if (u <? 2048)%Z then
    String (byte (192 + u / 64)%Z) (String (byte (128 + u mod 64)%Z) rest)
  else
    String (byte (224 + u / 4096)%Z)
      (String (byte (128 + (u / 64) mod 64)%Z)
         (String (byte (128 + u mod 64)%Z) rest)).

Fixpoint hex4 (n : nat) (acc : Z) (s : string) : option (Z * string) :=
  match n with
  | O => Some (acc, s)
  | S n' =>
      match s with
      | String c s' =>
          match JS.digit_value c with
          | Some d => hex4 n' (acc * 16 + d)%Z s'
          | None => None
          end
      | EmptyString => None
      end
  end.

(** The characters of a string literal after its opening quote;
    (contents, rest after the closing quote). *)
Fixpoint string_body (fuel : nat) (s : string) : option (string * string) :=
  match fuel with
  | O => None
  | S fuel' =>
      match s with
      | EmptyString => None
      | String c s' =>
          if Ascii.eqb c dquote then Some (EmptyString, s')
          else if Ascii.eqb c backslash then
            match s' with
            | String e s'' =>
                let plain (x : ascii) :=
                  '(body, rest) ← string_body fuel' s'';
                  Some (String x body, rest) in
                if Ascii.eqb e dquote then plain dquote
                else if Ascii.eqb e backslash then plain backslash
                else if Ascii.eqb e "/" then plain "/"%char
                else if Ascii.eqb e "b" then plain (ascii_of_nat 8)
                else if Ascii.eqb e "f" then plain (ascii_of_nat 12)
                else if Ascii.eqb e "n" then plain (ascii_of_nat 10)
                else if Ascii.eqb e "r" then plain (ascii_of_nat 13)
                else if Ascii.eqb e "t" then plain (ascii_of_nat 9)
                else if Ascii.eqb e "u" then
                  '(u, s3) ← hex4 4 0 s'';
                  '(body, rest) ← string_body fuel' s3;
                  Some (utf8 u body, rest)
                else None
            | EmptyString => None
            end
          else if (nat_of_ascii c <? 32)%nat then None
          else
            '(body, rest) ← string_body fuel' s';
            Some (String c body, rest)
      end
  end.

(** A JSON number: [-]? int frac? exp?; (value, rest). *)
Definition number_literal (s : string) : option (number * string) :=
  let '(negative, s0) :=
    match s with
    | String c r => if Ascii.eqb c "-" then (true, r) else (false, s)
    | EmptyString => (false, s)
    end in
  let '(ip, ni, s1) := JS.digits 10 0 0 s0 in
  let leading_zero :=
    match s0 with
    | String c _ => Ascii.eqb c "0" && (1 <? ni)%nat
    | EmptyString => false
    end in
  if (ni =? 0)%nat || leading_zero then None
  else
    '(fp, nf, s2) ←
      match s1 with
      | String c r =>
          if Ascii.eqb c "." then
            let '(m, n, r') := JS.digits 10 ip 0 r in
            if (n =? 0)%nat then None else Some (m, n, r')
          else Some (ip, O, s1)
      | EmptyString => Some (ip, O, s1)
      end;
    '(x, s3) ← JS.exponent_part s2;
    let n := JS.decimal (ni + nf) fp (x - Z.of_nat nf) in
    Some (if negative then JS.negate n else n, s3).

Definition literal (word : string) (j : json) (s : string)
    : option (json * string) :=
  if String.prefix word s
  then Some (j, String.substring (String.length word)
                  (String.length s - String.length word) s)
  else None.

(** Recursive descent; [fuel] bounds the depth of the calls, and twice
    the length of the text is enough. *)
Fixpoint value (fuel : nat) (s : string) : option (json * string) :=
  match fuel with
  | O => None
  | S fuel' =>
      match skip_ws s with
      | EmptyString => None
      | String c r =>
          if Ascii.eqb c "{" then
            match skip_ws r with
            | String c' r' =>
                if Ascii.eqb c' "}" then Some (JObject [], r')
                else members fuel' r []
            | EmptyString => None
            end
          else if Ascii.eqb c "[" then
            match skip_ws r with
            | String c' r' =>
                if Ascii.eqb c' "]" then Some (JArray [], r')
                else elements fuel' r []
            | EmptyString => None
            end
          else if Ascii.eqb c dquote then
            '(str, rest) ← string_body (S (String.length r)) r;
            Some (JString str, rest)
          else if Ascii.eqb c "t" then literal "true" (JBoolean true) (String c r)
          else if Ascii.eqb c "f" then literal "false" (JBoolean false) (String c r)
          else if Ascii.eqb c "n" then literal "null" JNull (String c r)
          else
            '(n, rest) ← number_literal (String c r);
            Some (JNumber n, rest)
      end
  end
with elements (fuel : nat) (s : string) (acc : list json)
    : option (json * string) :=
  match fuel with
  | O => None
  | S fuel' =>
      '(v, rest) ← value fuel' s;
      match skip_ws rest with
      | String c r =>
          if Ascii.eqb c "," then elements fuel' r (v :: acc)
          else if Ascii.eqb c "]" then Some (JArray (rev (v :: acc)), r)
          else None
      | EmptyString => None
      end
  end
with members (fuel : nat) (s : string) (acc : list (string * json))
    : option (json * string) :=
  match fuel with
  | O => None
  | S fuel' =>
      match skip_ws s with
      | String q r =>
          if Ascii.eqb q dquote then
            '(key, rest) ← string_body (S (String.length r)) r;
            match skip_ws rest with
            | String c r1 =>
                if Ascii.eqb c ":" then
                  '(v, rest') ← value fuel' r1;
                  match skip_ws rest' with
                  | String c' r2 =>
                      if Ascii.eqb c' ","
                      then members fuel' r2 ((key, v) :: acc)
                      else if Ascii.eqb c' "}"
                      then Some (JObject (rev ((key, v) :: acc)), r2)
                      else None
                  | EmptyString => None
                  end
                else None
            | EmptyString => None
            end
          else None
      | EmptyString => None
      end
  end.

(** [JSON.parse(text)] without a reviver; [None] is the [SyntaxError]. *)
Definition parse (text : string) : option json :=
  '(j, rest) ← value (2 * String.length text + 2) text;
  match skip_ws rest with
  | EmptyString => Some j
  | _ => None
  end.

End JSON.

(** *** [JSON.stringify] *)

Definition hex_digit (n : nat) : ascii :=
  ascii_of_nat (if (n <? 10)%nat then 48 + n else 87 + n).

(** QuoteJSONString, on the bytes of the text. *)
Fixpoint quote_body (s : string) : string :=
  match s with
  | EmptyString => EmptyString
  | String c s' =>
      let n := nat_of_ascii c in
      let escaped (x : ascii) :=
        String JSON.backslash (String x (quote_body s')) in
      if Ascii.eqb c JSON.dquote then escaped JSON.dquote
      else if Ascii.eqb c JSON.backslash then escaped JSON.backslash
      else if (n =? 8)%nat then escaped "b"%char
      else if (n =? 12)%nat then escaped "f"%char
      else if (n =? 10)%nat then escaped "n"%char
      else if (n =? 13)%nat then escaped "r"%char
      else if (n =? 9)%nat then escaped "t"%char
      else if (n <? 32)%nat then
        String JSON.backslash
          (String "u" (String "0" (String "0"
             (String (hex_digit (n / 16))
                (String (hex_digit (n mod 16)) (quote_body s'))))))
      else String c (quote_body s')
  end.

Definition quote (s : string) : string :=
  String JSON.dquote (quote_body s ++ String JSON.dquote EmptyString).

Definition join (parts : list string) : string := String.concat "," parts.

(** The list of the results, when none of them is the [TypeError]. *)
Fixpoint all_some {A} (l : list (option A)) : option (list A) :=
  match l with
  | [] => Some []
  | x :: l' => a ← x; r ← all_some l'; Some (a :: r)
  end.

(** SerializeJSONProperty without replacer and indentation.  [path] holds
    the objects being serialized, and meeting one of them again is the
    [TypeError] for a circular structure ([None]); [Some None] is
    [undefined].  A [Date] is serialized through its [toJSON]. *)
Fixpoint serialize (fuel : nat) (path : list loc) (h : heap) (v : value)
    : option (option string) :=
  match fuel with
  | O => None
  | S fuel' =>
      match v with
      | VUndefined => Some None
      | VNull => Some (Some "null")
      | VBoolean b => Some (Some (if b then "true" else "false"))
      | VNumber n =>
          Some (Some match n with
                     | Finite _ _ => Number_toString n
                     | _ => "null"
                     end)
      | VString s => Some (Some (quote s))
      | VObject l =>
          if bool_decide (l ∈ path) then None
          else
            match default (Plain []) (h !! l) with
            | DateObj (Some t) => Some (Some (quote (Date_toISOString t)))
            | DateObj None => Some (Some "null")
            | Array elems =>
                parts ← all_some
                          (map (λ x,
                                  match serialize fuel' (l :: path) h x with
                                  | Some r => Some (default "null" r)
                                  | None => None
                                  end)
                             elems);
                Some (Some ("[" ++ join parts ++ "]"))
            | Plain fields =>
                parts ← all_some
                          (map (λ '(k, x),
                                  match serialize fuel' (l :: path) h x with
                                  | Some (Some s) =>
                                      Some [quote k ++ ":" ++ s]
                                  | Some None => Some []
                                  | None => None
                                  end)
                             fields);
                Some (Some ("{" ++ join (concat parts) ++ "}"))
            end
      end
  end.

(** [JSON.stringify(v)] for the [null] and the objects [cast] passes;
    [None] is the [TypeError]. *)
Definition stringify (h : heap) (v : value) : option string :=
  match serialize (length h + 2) [] h v with
  | Some (Some s) => Some s
  | _ => None
  end.

(** The host of the scenarios.  [JSON.stringify] and [toString] on
    numbers are left to the caller: no scenario reaches them. *)
Definition host
    (stringify : heap → value → option string)
    (toString : number → string) : Host := {|
  js_Number := Number;
  js_Date_parse := Date_parse;
  js_JSON_parse := JSON.parse;
  js_JSON_stringify := stringify;
  js_Number_toString := toString
|}.

(** The host with [JSON.stringify] and [toString] as above. *)
Definition printing_host : Host := host stringify Number_toString.

End JS.

(** ** The records and configurations of the scenarios *)

Module Scenario.

(** The partial configuration [{}]. *)
Definition no_options : Partial := {|
  p_enableAll := None; p_onlySchema := None; p_rewriteFields := None;
  p_stringsToNumbers := None; p_numberMaxChars := None;
  p_stringsToDates := None; p_datesMatchRegex := None;
  p_stringsToBooleans := None; p_stringsToObjects := None;
  p_schema := None; p_deepCasters := None |}.

(** [{enableAll: true}] *)
Definition enableAll_only : Partial := {|
  p_enableAll := Some true; p_onlySchema := None; p_rewriteFields := None;
  p_stringsToNumbers := None; p_numberMaxChars := None;
  p_stringsToDates := None; p_datesMatchRegex := None;
  p_stringsToBooleans := None; p_stringsToObjects := None;
  p_schema := None; p_deepCasters := None |}.

(** [{enableAll: true, stringsToNumbers: false}] *)
Definition enableAll_numbers_off : Partial := {|
  p_enableAll := Some true; p_onlySchema := None; p_rewriteFields := None;
  p_stringsToNumbers := Some false; p_numberMaxChars := None;
  p_stringsToDates := None; p_datesMatchRegex := None;
  p_stringsToBooleans := None; p_stringsToObjects := None;
  p_schema := None; p_deepCasters := None |}.

(** The four toggles, each set to true. *)
Definition all_four : Partial := {|
  p_enableAll := None; p_onlySchema := None; p_rewriteFields := None;
  p_stringsToNumbers := Some true; p_numberMaxChars := None;
  p_stringsToDates := Some true; p_datesMatchRegex := None;
  p_stringsToBooleans := Some true; p_stringsToObjects := Some true;
  p_schema := None; p_deepCasters := None |}.

(** [{stringsToNumbers: true}] *)
Definition numbers_only : Partial := {|
  p_enableAll := None; p_onlySchema := None; p_rewriteFields := None;
  p_stringsToNumbers := Some true; p_numberMaxChars := None;
  p_stringsToDates := None; p_datesMatchRegex := None;
  p_stringsToBooleans := None; p_stringsToObjects := None;
  p_schema := None; p_deepCasters := None |}.

(** [{rewriteFields: true}] *)
Definition rewrite_only : Partial := {|
  p_enableAll := None; p_onlySchema := None; p_rewriteFields := Some true;
  p_stringsToNumbers := None; p_numberMaxChars := None;
  p_stringsToDates := None; p_datesMatchRegex := None;
  p_stringsToBooleans := None; p_stringsToObjects := None;
  p_schema := None; p_deepCasters := None |}.

(** [{deepCasters: {prices: nested}}] *)
Definition deep_prices (nested : Partial) : Partial := {|
  p_enableAll := None; p_onlySchema := None; p_rewriteFields := None;
  p_stringsToNumbers := None; p_numberMaxChars := None;
  p_stringsToDates := None; p_datesMatchRegex := None;
  p_stringsToBooleans := None; p_stringsToObjects := None;
  p_schema := None; p_deepCasters := Some [("prices", nested)] |}.

(** [{onlySchema: true, stringsToNumbers: true}], without a schema *)
Definition onlySchema_numbers : Partial := {|
  p_enableAll := None; p_onlySchema := Some true; p_rewriteFields := None;
  p_stringsToNumbers := Some true; p_numberMaxChars := None;
  p_stringsToDates := None; p_datesMatchRegex := None;
  p_stringsToBooleans := None; p_stringsToObjects := None;
  p_schema := None; p_deepCasters := None |}.

(** [{onlySchema: onlySchema, stringsToNumbers: true, schema: sch}] *)
Definition numbers_with_schema (onlySchema : option bool)
    (sch : TpsCasterSchema) : Partial := {|
  p_enableAll := None; p_onlySchema := onlySchema; p_rewriteFields := None;
  p_stringsToNumbers := Some true; p_numberMaxChars := None;
  p_stringsToDates := None; p_datesMatchRegex := None;
  p_stringsToBooleans := None; p_stringsToObjects := None;
  p_schema := Some sch; p_deepCasters := None |}.

(** [{rewriteFields: true, stringsToNumbers: true}] *)
Definition rewrite_numbers : Partial := {|
  p_enableAll := None; p_onlySchema := None; p_rewriteFields := Some true;
  p_stringsToNumbers := Some true; p_numberMaxChars := None;
  p_stringsToDates := None; p_datesMatchRegex := None;
  p_stringsToBooleans := None; p_stringsToObjects := None;
  p_schema := None; p_deepCasters := None |}.



(** [{prices: [{price: '123.45'}, {price: '234.56'}]}] *)
Definition price_list : heap :=
  [ Plain [("prices", VObject 1)];
    Array [VObject 2; VObject 3];
    Plain [("price", VString "123.45")];
    Plain [("price", VString "234.56")] ].

(** [{stringsToNumbers: true, schema: {n: false},
      deepCasters: {self: {rewriteFields: true, stringsToNumbers: true}}}] *)
Definition skip_n_deep_self : Partial := {|
  p_enableAll := None; p_onlySchema := None; p_rewriteFields := None;
  p_stringsToNumbers := Some true; p_numberMaxChars := None;
  p_stringsToDates := None; p_datesMatchRegex := None;
  p_stringsToBooleans := None; p_stringsToObjects := None;
  p_schema := Some [("n", SFlag false)];
  p_deepCasters := Some [("self", rewrite_numbers)] |}.


Definition quoted (s : string) : string :=
  String JS.JSON.dquote (s ++ String JS.JSON.dquote "").

(** The object of the header example of the source, alone in the store. *)
Definition entity : object :=
  Plain [ ("id", VString "123");
          ("price", VString "123.45");
          ("date", VString "2021-01-01");
          ("is_active", VString "true");
          ("data", VString ("{" ++ quoted "key" ++ ":" ++ quoted "value" ++ "}")) ].

(** The host of the worked examples; none of them reaches
    [JSON.stringify] or [toString], which are left to throw and to print
    nothing. *)
Definition host : Host := JS.host (λ _ _, None) (λ _, "").

End Scenario.


(** ** Well-formed stores and the part of the store a call may touch *)

Definition obj_values (o : object) : list value := (props_of o).*2.

Definition allocated (h : heap) (v : value) : Prop :=
  match v with VObject a => (a < length h)%nat | _ => True end.

(** No reference of the store dangles. *)
Definition wf_heap (h : heap) : Prop :=
  Forall (λ o, Forall (allocated h) (obj_values o)) h.

(** [reach h a b]: a chain of one or more references leads from the
    object at [a] to the object at [b]. *)
Inductive reach (h : heap) : loc → loc → Prop :=
  | reach_field a o b :
      h !! a = Some o → VObject b ∈ obj_values o → reach h a b
  | reach_trans a b c : reach h a b → reach h b c → reach h a c.

(** A value of the region [S] that exists in the store. *)
Definition val_in (S : loc → Prop) (h : heap) (v : value) : Prop :=
  match v with VObject a => (a < length h)%nat ∧ S a | _ => True end.

(** The store has no dangling reference and no reference leaves [S]. *)
Definition heap_ok (S : loc → Prop) (h : heap) : Prop :=
  ∀ (a : loc) o v, h !! a = Some o → v ∈ obj_values o →
    match v with
    | VObject b => (b < length h)%nat ∧ (S a → S b)
    | _ => True
    end.

(** [S] is a region of [h]: closed under references, and holding every
    location still to be allocated. *)
Definition region (S : loc → Prop) (h : heap) : Prop :=
  (∀ a : loc, (length h ≤ a)%nat → S a) ∧ heap_ok S h.

(** From [h] to [h'] the store grew, [S] is still a region, nothing
    outside [S] changed, and every [Date] kept its time value. *)
Definition grows (S : loc → Prop) (h h' : heap) : Prop :=
  region S h'
  ∧ (length h ≤ length h')%nat
  ∧ (∀ a : loc, ¬ S a → h' !! a = h !! a)
  ∧ (∀ (a : loc) t, h !! a = Some (DateObj t) → h' !! a = Some (DateObj t)).

(** A function on values that stays inside the region [S]. *)
Definition frames (S : loc → Prop) (f : value → M value) : Prop :=
  ∀ v h r h', region S h → val_in S h v → f v h = Ok r h' →
    grows S h h' ∧ val_in S h' r.

(** A value [cast] may be handed, directly or element by element: its
    elements are values of [S] when it is an array, and it is one itself
    when it is not. *)
Definition castable (S : loc → Prop) (h : heap) (v : value) : Prop :=
  match v with
  | VObject b =>
      match h !! b with
      | Some (Array elems) => Forall (val_in S h) elems
      | _ => val_in S h v
      end
  | _ => True
  end.

(** The fields of the record [obj] are such values. *)
Definition children_in (S : loc → Prop) (h : heap) (obj : value) : Prop :=
  match obj with
  | VObject l =>
      match h !! l with
      | Some o => Forall (castable S h) (obj_values o)
      | None => True
      end
  | _ => True
  end.

(** What one turn of the loop does to [casted]: nothing, or one value of
    [S] stored under the key of the turn, a key the schema gate let
    through. *)
Definition turn_shape (S : loc → Prop) (opts : TpsCasterOptions)
    (h' : heap) (casted : props) (key : string) (casted' : props) : Prop :=
  casted' = casted
  ∨ ∃ v, casted' = assoc_set key v casted ∧ val_in S h' v
         ∧ schema_gate opts key = false.

(** [Object.assign] on a plain record, as a list of fields. *)
Definition overlay (fields casted : props) : props :=
  fold_left (λ ps '(k, v), assoc_set k v ps) casted fields.

(** What lies below the record at [l]: the objects its fields lead to,
    and every location still to be allocated. *)
Definition below (h : heap) (l : loc) : loc → Prop :=
  λ a, reach h l a ∨ (length h ≤ a)%nat.

(** The references an object holds. *)
Definition refs (o : object) : list loc :=
  omap (λ v, match v with VObject b => Some b | _ => None end) (obj_values o).

Definition refs_within (h : heap) (R : list loc) (a : loc) : bool :=
  forallb (λ b, bool_decide (b ∈ R))
    (match h !! a with Some o => refs o | None => [] end).

(** [R] holds what the fields of the record at [l] refer to, is closed
    under references, and does not hold [l]: a check that [l] is not part
    of a cycle. *)
Definition separates (h : heap) (l : loc) (R : list loc) : bool :=
  refs_within h R l && forallb (refs_within h R) R && negb (bool_decide (l ∈ R)).

(** The field [key] of the record a call returned, read in the store the
    call left. *)
Definition field_of (h : heap) (r : value) (key : string) : option value :=
  match r with
  | VObject l =>
      match h !! l with
      | Some (Plain fields) => assoc_get key fields
      | _ => None
      end
  | _ => None
  end.

Definition is_string (v : value) : bool :=
  match v with VString _ => true | _ => false end.

(** No nested configuration below [p], at any depth, sets
    [rewriteFields]. *)
Inductive copies_below : Partial → Prop :=
  | copies_below_intro (p : Partial) :
      Forall (λ kq, p_rewriteFields kq.2 ≠ Some true ∧ copies_below kq.2)
        (default [] (p_deepCasters p)) →
      copies_below p.

(** ** Further vocabulary for the properties of the code *)

(** The fields of an instance, as the partial configuration that sets
    them all. *)
Definition partial_of_options (o : TpsCasterOptions) : Partial := {|
  p_enableAll := Some (enableAll o);
  p_onlySchema := Some (onlySchema o);
  p_rewriteFields := Some (rewriteFields o);
  p_stringsToNumbers := Some (stringsToNumbers o);
  p_numberMaxChars := Some (numberMaxChars o);
  p_stringsToDates := Some (stringsToDates o);
  p_datesMatchRegex := Some (datesMatchRegex o);
  p_stringsToBooleans := Some (stringsToBooleans o);
  p_stringsToObjects := Some (stringsToObjects o);
  p_schema := schema o;
  p_deepCasters := deepCasters o |}.

(** No toggle is on, and there is neither schema nor nested
    configuration. *)
Definition nothing_to_do (opts : TpsCasterOptions) : bool :=
  negb (stringsToNumbers opts) && negb (stringsToDates opts)
  && negb (stringsToBooleans opts) && negb (stringsToObjects opts)
  && match schema opts with None => true | Some _ => false end
  && match deepCasters opts with None => true | Some _ => false end.

(** The four toggles are off. *)
Definition toggles_off (opts : TpsCasterOptions) : bool :=
  negb (stringsToNumbers opts) && negb (stringsToDates opts)
  && negb (stringsToBooleans opts) && negb (stringsToObjects opts).

(** What the record [r] of the store [h'] holds under [key] after the
    parse [pr] of a string was stored there by a call that started in the
    store [h]: the number or boolean itself, or a reference to an object
    that was not in [h] -- for a date, a Date with that time value; for a
    JSON text, the value [alloc_json] returned for the parsed JSON [j] in
    a store [hk] at least as long as [h], with every object that
    [alloc_json] allocated, from [hk] to [hk'], as it left it. *)
Definition holds_parsed (h h' : heap) (r : value) (key : string)
    (pr : parsed) : Prop :=
  match pr with
  | P_number n => field_of h' r key = Some (VNumber n)
  | P_boolean b => field_of h' r key = Some (VBoolean b)
  | P_date t =>
      ∃ a, field_of h' r key = Some (VObject a) ∧ h !! a = None
           ∧ h' !! a = Some (DateObj (Some t))
  | P_object j =>
      ∃ hk v hk',
        (length h ≤ length hk)%nat
        ∧ alloc_json j hk = Ok v hk'
        ∧ field_of h' r key = Some v
        ∧ ∀ a, (length hk ≤ a)%nat → (a < length hk')%nat →
               h' !! a = hk' !! a
  end.

(** What [cast] does with a field that holds a non-empty string and that
    the schema gate lets through, as two passes over the priority list:
    the first heuristic that its toggle enables and that parses; and, only
    when there is none, and the schema has an own entry for the key that
    names a type other than ['string'], and the key is not the name of a
    member of [Object.prototype], the first heuristic that is eligible
    with that type forced and that parses. *)
Definition field_parse {host : Host} (opts : TpsCasterOptions)
    (key : string) (val : string) : option (heuristic * parsed) :=
  match first_success priority_order val opts None with
  | Some r => Some r
  | None =>
      match schema_lookup opts key with
      | Some (SType t) =>
          if inherited key || schema_type_eqb t T_string then None
          else first_success priority_order val opts (Some t)
      | _ => None
      end
  end.

(** ** The shapes the default date pattern names

    A template is a list of character classes: [None] stands for any
    digit, [Some c] for the character [c]. *)

Definition fits (e : option ascii) (c : ascii) : bool :=
  match e with None => is_digit c | Some a => Ascii.eqb a c end.

(** [s] starts with characters that fit the template. *)
Fixpoint starts_like (tpl : list (option ascii)) (s : string) : bool :=
  match tpl with
  | [] => true
  | e :: tpl' =>
      match s with
      | String c s' => fits e c && starts_like tpl' s'
      | EmptyString => false
      end
  end.

(** [s] is characters that fit the template, and nothing more. *)
Fixpoint is_like (tpl : list (option ascii)) (s : string) : bool :=
  match tpl with
  | [] => match s with EmptyString => true | String _ _ => false end
  | e :: tpl' =>
      match s with
      | String c s' => fits e c && is_like tpl' s'
      | EmptyString => false
      end
  end.

(** [s] ends with characters that fit the template. *)
Fixpoint ends_like (tpl : list (option ascii)) (s : string) : bool :=
  is_like tpl s
  || match s with
     | String _ s' => ends_like tpl s'
     | EmptyString => false
     end.

Definition yyyy_mm_dd : list (option ascii) :=
  [None; None; None; None; Some "-"%char; None; None; Some "-"%char;
   None; None].

Definition dd_mm_yy : list (option ascii) :=
  [None; None; Some "-"%char; None; None; Some "-"%char; None; None].

Definition dd_mm_yyyy : list (option ascii) :=
  [None; None; Some "-"%char; None; None; Some "-"%char;
   None; None; None; None].

(** The record at [l] is not written to while [cast] runs on it with the
    configuration [p]: no chain of references leads from the record back
    to it, in a store without dangling references, or no nested
    configuration of [p], at any depth, sets [rewriteFields]. *)
Definition undisturbed (h : heap) (l : loc) (p : Partial) : Prop :=
  (wf_heap h ∧ ¬ reach h l l) ∨ copies_below p.

(** The forced conversion of lines 86-91 does nothing for the value [v]
    under [key]: [key] names a member of [Object.prototype], so that
    [key in casted] holds, or the schema's own entry for [key] is not a type
    tag on which [_castSchemaField] acts for a value of this type -- for a
    number the tags [boolean], [string] and [date], for an object the tag
    [string], for a boolean none. *)
Definition fallback_idle (opts : TpsCasterOptions) (key : string)
    (v : value) : bool :=
  inherited key
  || match v with
     | VString _ => false
     | VNumber _ =>
         match schema_lookup opts key with
         | Some (SType (T_boolean | T_string | T_date)) => false
         | _ => true
         end
     | VNull | VObject _ =>
         match schema_lookup opts key with
         | Some (SType T_string) => false
         | _ => true
         end
     | VUndefined | VBoolean _ => true
     end.

(** A turn of the loop of [cast] under [p] does nothing for the value [v]
    under [key]: [v] is falsy; or the schema gate excludes [key]; or [v] is
    not a string, is not an object under a key that is [in
    opts.deepCasters], and the forced conversion does nothing for it. *)
Definition recast_idle (p : Partial) (key : string) (v : value) : bool :=
  let opts := resolve_options (Some p) in
  negb (truthy v) || schema_gate opts key
  || (negb (is_string v)
      && negb (is_object_type v && deep_registered p key)
      && fallback_idle opts key v).

(** Neither the schema of [p] nor the schema of a nested configuration
    below it, at any depth, names the type ['string']: the call of
    [JSON.stringify] in [_castSchemaField] is out of reach. *)
Inductive no_string_tag : Partial → Prop :=
  | no_string_tag_intro (p : Partial) :
      Forall (λ ke, ke.2 ≠ SType T_string) (default [] (p_schema p)) →
      Forall (λ kq, no_string_tag kq.2) (default [] (p_deepCasters p)) →
      no_string_tag p.

(** The computation [m] does not throw. *)
Definition silent {A} (m : M A) : Prop := ∀ h e h', m h ≠ Throw e h'.
(** * Properties *)

(** ** The options resolver *)

Lemma resolve_options_toggles (p : Partial) :
  let opts := resolve_options (Some p) in
  stringsToNumbers opts = default false (p_stringsToNumbers p)
  ∧ stringsToDates opts = default false (p_stringsToDates p)
  ∧ stringsToBooleans opts = default false (p_stringsToBooleans p)
  ∧ stringsToObjects opts = default false (p_stringsToObjects p).
Proof.
  unfold resolve_options, new_TpsCasterOptions; simpl.
  destruct (default false (p_enableAll p)); simpl; auto.
Qed.

(** C1 (as the code runs it).  [enableAllApply] is only ever called
    without its argument, so it returns at once: the configuration
    [{enableAll: true}] resolves to four toggles that are all off, a toggle
    set to false beside it stays false, and the header example of the
    source, cast with [{enableAll: true}], comes back with every field
    still a string. *)
Theorem enableAll_leaves_toggles_off :
  let opts := resolve_options (Some Scenario.enableAll_only) in
  let opts' := resolve_options (Some Scenario.enableAll_numbers_off) in
  enableAll opts = true
  ∧ (stringsToNumbers opts, stringsToDates opts,
     stringsToBooleans opts, stringsToObjects opts)
    = (false, false, false, false)
  ∧ enableAll opts' = true ∧ stringsToNumbers opts' = false
  ∧ ∀ host : Host,
      cast (VObject 0) (Some Scenario.enableAll_only) [Scenario.entity]
      = Ok (VObject 1) [Scenario.entity; Scenario.entity].
Proof.
  repeat split; reflexivity.
Qed.

(** ** Scenarios on the host [JS.host] *)

Example number_of_string_examples :
  JS.Number "123" = Finite 123 0
  ∧ JS.Number "123.45" = Finite 12345 (-2)
  ∧ JS.Number "true" = NaN
  ∧ JS.Number "hello" = NaN
  ∧ JS.Number " 0x1F " = Finite 31 0
  ∧ JS.Number "1e3" = Finite 1 3.
Proof. repeat split; reflexivity. Qed.

Example date_parse_examples :
  JS.Date_parse "2021-01-01" = Some 1609459200000%Z
  ∧ JS.days_from_civil 2021 1 1 = 18628%Z
  ∧ JS.Date_parse "1970-01-01T00:00:01Z" = Some 1000%Z
  ∧ JS.Date_parse "2021-13-01" = None.
Proof. repeat split; reflexivity. Qed.

Example default_date_pattern_examples :
  map (λ s, existsb (λ r, regex_test r s) datesMatchRegexDefault)
    ["2021-01-01"; "2021-01-01T10:00:00Z"; "01-02-2021"; "01-02-21";
     "true"; "123"; "01-02-212"]
  = [true; true; true; true; false; false; false].
Proof. reflexivity. Qed.

(** C2.  Scenario 1: the record of the header example, cast with the
    four toggles on, returns a new record in which [id] is the number 123,
    [price] the number 123.45, [date] a Date whose time value is
    2021-01-01T00:00:00Z, [is_active] the boolean true and [data] the
    parsed object with the one field [key: 'value']. *)
Theorem cast_scenario_all_heuristics :
  ∀ (stringify : heap → value → option string) (toString : number → string),
    let host := JS.host stringify toString in
    cast (VObject 0) (Some Scenario.all_four) [Scenario.entity]
    = Ok (VObject 3)
        [ Scenario.entity;
          DateObj (JS.Date_parse "2021-01-01");
          Plain [("key", VString "value")];
          Plain [ ("id", VNumber (Finite 123 0));
                  ("price", VNumber (Finite 12345 (-2)));
                  ("date", VObject 1);
                  ("is_active", VBoolean true);
                  ("data", VObject 2) ] ]
    ∧ JS.Date_parse "2021-01-01" = Some (18628 * 86400000)%Z.
Proof.
  intros stringify toString host. split; vm_compute; reflexivity.
Qed.

(** ** The monad *)

Lemma bind_Ok {A B} (m : M A) (f : A → M B) h b h' :
  bind m f h = Ok b h' ↔ ∃ a h1, m h = Ok a h1 ∧ f a h1 = Ok b h'.
Proof.
  unfold bind. destruct (m h) as [a h1|e h1|]; split.
  - eauto.
  - intros (a' & h1' & [= <- <-] & H). exact H.
  - discriminate.
  - intros (a' & h1' & [=] & _).
  - discriminate.
  - intros (a' & h1' & [=] & _).
Qed.

Lemma bind_Ok_intro {A B} (m : M A) (f : A → M B) h a h1 b h' :
  m h = Ok a h1 → f a h1 = Ok b h' → bind m f h = Ok b h'.
Proof. intros H1 H2. unfold bind. rewrite H1. exact H2. Qed.

Lemma ret_Ok {A} (a b : A) h h' : ret a h = Ok b h' ↔ a = b ∧ h = h'.
Proof. unfold ret. split; [intros [= -> ->]|intros [-> ->]]; auto. Qed.

(** Take a hypothesis [m h = Ok r h'] apart along the binds of [m]. *)
Ltac inv_M H :=
  lazymatch type of H with
  | bind _ _ _ = Ok _ _ =>
      let a := fresh "a" in
      let h1 := fresh "h" in
      let H1 := fresh "Hm" in
      apply bind_Ok in H as (a & h1 & H1 & H)
  | ret _ _ = Ok _ _ => apply ret_Ok in H as [? ?]; subst
  | throw _ _ = Ok _ _ => discriminate H
  | outside _ = Ok _ _ => discriminate H
  | Throw _ _ = Ok _ _ => discriminate H
  | Outside = Ok _ _ => discriminate H
  | Ok _ _ = Ok _ _ => injection H as ? ?; subst
  end.

(** [casted[key] = v] returns for every key but [__proto__], and then
    the key is set in [casted]. *)
Lemma store_Ok casted key v h casted' h' :
  store casted key v h = Ok casted' h' →
  casted' = assoc_set key v casted ∧ h' = h.
Proof.
  unfold store, set_prop.
  destruct (String.eqb key "__proto__" && negb (assoc_mem key casted));
    [discriminate|].
  intros [= <- <-]. auto.
Qed.

Lemma store_returns casted key v h :
  key ≠ "__proto__" → store casted key v h = Ok (assoc_set key v casted) h.
Proof.
  intros Hne. unfold store, set_prop.
  apply String.eqb_neq in Hne. rewrite Hne. reflexivity.
Qed.

Lemma json_nested_ind (P : json → Prop) :
  P JNull →
  (∀ b, P (JBoolean b)) →
  (∀ n, P (JNumber n)) →
  (∀ s, P (JString s)) →
  (∀ elems, Forall P elems → P (JArray elems)) →
  (∀ fields, Forall (λ kv, P kv.2) fields → P (JObject fields)) →
  ∀ j, P j.
Proof.
  intros Hnull Hbool Hnum Hstr Harr Hobj.
  fix IH 1. intros [| b | n | s | elems | fields].
  - exact Hnull.
  - apply Hbool.
  - apply Hnum.
  - apply Hstr.
  - apply Harr. induction elems as [|x xs IHxs]; constructor; [apply IH | exact IHxs].
  - apply Hobj. induction fields as [|[k x] xs IHxs]; constructor;
      [apply IH | exact IHxs].
Qed.


(** ** Exceptions *)

Section Exceptions.

Context {host : Host}.

(** [null] passes the [typeof] guard, and with [rewriteFields] the final
    [Object.assign(null, casted)] throws. *)
Lemma cast_null_rewrite_throws (p : Partial) (h : heap) :
  p_rewriteFields p = Some true →
  cast VNull (Some p) h = Throw TypeError h.
Proof.
  intros Hrw. destruct p; simpl in *. subst.
  unfold cast_with, resolve_options, new_TpsCasterOptions; simpl.
  destruct (default false p_enableAll0); reflexivity.
Qed.

Lemma alloc_json_returns (j : json) : ∀ h, ∃ v h', alloc_json j h = Ok v h'.
Proof.
  induction j as [| b | n | s | elems IH | fields IH] using json_nested_ind;
    intros h; simpl; try (eexists _, _; reflexivity).
  - assert (Hgo : ∀ h, ∃ vs h',
              (fix go (l : list json) : M (list value) :=
                 match l with
                 | [] => ret []
                 | x :: l' =>
                     let* v := alloc_json x in
                     let* vs := go l' in ret (v :: vs)
                 end) elems h = Ok vs h').
    { induction IH as [|x xs Hx _ IHxs]; intros h0.
      - eexists _, _. reflexivity.
      - destruct (Hx h0) as (v & h1 & Hv). destruct (IHxs h1) as (vs & h2 & Hvs).
        exists (v :: vs), h2.
        eapply bind_Ok_intro; [exact Hv|].
        eapply bind_Ok_intro; [exact Hvs|]. reflexivity. }
    destruct (Hgo h) as (vs & h1 & Hvs).
    eexists _, _. eapply bind_Ok_intro; [exact Hvs|]. reflexivity.
  - assert (Hgo : ∀ acc h, ∃ ps h',
              (fix go (l : list (string * json)) (acc : props) : M props :=
                 match l with
                 | [] => ret acc
                 | (k, x) :: l' =>
                     let* v := alloc_json x in go l' (assoc_set k v acc)
                 end) fields acc h = Ok ps h').
    { induction IH as [|[k x] xs Hx _ IHxs]; intros acc h0.
      - eexists _, _. reflexivity.
      - destruct (Hx h0) as (v & h1 & Hv).
        destruct (IHxs (assoc_set k v acc) h1) as (ps & h2 & Hps).
        exists ps, h2. eapply bind_Ok_intro; [exact Hv|]. exact Hps. }
    destruct (Hgo [] h) as (ps & h1 & Hps).
    eexists _, _. eapply bind_Ok_intro; [exact Hps|]. reflexivity.
Qed.

(** The string heuristics never throw: a number, a date, a boolean
    literal or a JSON text that does not parse makes them return
    [undefined], or go on to the next of them. *)
Lemma castFromString_returns val opts toType h :
  ∃ r h', _castFromString val opts toType h = Ok r h'.
Proof.
  unfold _castFromString.
  destruct (try_number val opts toType); [eexists _, _; reflexivity|].
  destruct (try_date val opts toType); [eexists _, _; reflexivity|].
  destruct (try_boolean val opts toType); [eexists _, _; reflexivity|].
  destruct (try_object val opts toType) as [j|]; [|eexists _, _; reflexivity].
  destruct (alloc_json_returns j h) as (v & h' & Hv).
  exists (Some v), h'. eapply bind_Ok_intro; [exact Hv|]. reflexivity.
Qed.

(** C3 (as the code runs it).  A record whose [prices] field is the array
    [[null]], cast with [{deepCasters: {prices: {rewriteFields: true}}}]:
    the nested call receives [null], which the [typeof] guard lets
    through, and [Object.assign(null, casted)] throws a [TypeError] that
    nothing catches.  So does [cast(null, {rewriteFields: true})] itself, in
    every store. *)
Theorem cast_throws_on_null_element :
  cast (VObject 0)
    (Some (Scenario.deep_prices Scenario.rewrite_only))
    [Plain [("prices", VObject 1)]; Array [VNull]]
  = Throw TypeError [Plain [("prices", VObject 1)]; Array [VNull]]
  ∧ ∀ h, cast VNull (Some Scenario.rewrite_only) h = Throw TypeError h.
Proof.
  split; [reflexivity|]. intros h. apply cast_null_rewrite_throws. reflexivity.
Qed.

(** C10.  [cast(null, options)] with [rewriteFields] false or absent
    returns a record that did not exist before the call and has no
    fields; the store is otherwise as it was. *)
Theorem cast_null_returns_new_empty_record
    (options : option Partial) (h : heap) :
  options ≫= p_rewriteFields ≠ Some true →
  cast VNull options h = Ok (VObject (length h)) (h ++ [Plain []])
  ∧ h !! length h = None.
Proof.
  intros Hrw. split; [|apply lookup_ge_None_2; lia].
  destruct options as [p|]; [|reflexivity].
  destruct p; simpl in *.
  unfold cast_with, resolve_options, new_TpsCasterOptions; simpl.
  destruct (default false p_enableAll0);
    destruct p_rewriteFields0 as [[]|]; simpl; try reflexivity;
    contradiction Hrw; reflexivity.
Qed.

End Exceptions.

Lemma cast_null_returns_new_empty_record_witness :
  @cast Scenario.host VNull (Some Scenario.numbers_only) [Plain []]
  = Ok (VObject 1) [Plain []; Plain []]
  ∧ [Plain []] !! 1 = None.
Proof.
  apply (cast_null_returns_new_empty_record (Some Scenario.numbers_only) [Plain []]).
  simpl. discriminate.
Defined.

(** ** The order of the string heuristics *)

Section Priority.

Context {host : Host}.

Lemma date_loop_existsb (matches : list regex) (val : string) :
  date_loop matches val
  = if existsb (λ r, regex_test r val) matches then js_Date_parse val else None.
Proof.
  induction matches as [|r rest IH]; simpl; [reflexivity|].
  rewrite IH.
  destruct (regex_test r val), (js_Date_parse val), (existsb _ rest);
    reflexivity.
Qed.

Lemma castFromString_first_success val opts toType :
  _castFromString val opts toType
  = materialise (first_success priority_order val opts toType).
Proof.
  unfold _castFromString, try_number, try_date, try_boolean, try_object.
  rewrite date_loop_existsb.
  unfold priority_order, first_success, eligible, enabled, parses.
  destruct toType as [[]|]; cbn [is_type schema_type_eqb forced orb];
    repeat match goal with
           | |- context [stringsToNumbers opts && ?x] =>
               destruct (stringsToNumbers opts && x)
           | |- context [stringsToDates opts && ?x] =>
               destruct (stringsToDates opts && x)
           | |- context [stringsToBooleans opts && ?x] =>
               destruct (stringsToBooleans opts && x)
           | |- context [stringsToObjects opts] =>
               destruct (stringsToObjects opts)
           end.
  all: destruct (isNaN (js_Number val)),
         (existsb (λ r, regex_test r val) (datesMatchRegex opts)),
         (js_Date_parse val),
         (String.eqb (toLowerCase val) "true"),
         (String.eqb (toLowerCase val) "false"),
         (js_JSON_parse val) as [[]|]; reflexivity.
Qed.

End Priority.

(** ** Own properties *)

Lemma assoc_get_set_eq {A} key (v : A) l :
  assoc_get key (assoc_set key v l) = Some v.
Proof.
  induction l as [|[k w] l IH]; simpl.
  - rewrite String.eqb_refl. reflexivity.
  - destruct (String.eqb key k) eqn:E; simpl; rewrite E; auto.
Qed.

Lemma assoc_get_set_ne {A} key key' (v : A) l :
  key ≠ key' → assoc_get key' (assoc_set key v l) = assoc_get key' l.
Proof.
  intros Hne. induction l as [|[k w] l IH]; simpl.
  - destruct (String.eqb key' key) eqn:E; [|reflexivity].
    apply String.eqb_eq in E. congruence.
  - destruct (String.eqb key k) eqn:E; simpl.
    + apply String.eqb_eq in E. subst k.
      destruct (String.eqb key' key) eqn:E'; [|reflexivity].
      apply String.eqb_eq in E'. congruence.
    + rewrite IH. reflexivity.
Qed.

Lemma assoc_set_values {A} (P : A → Prop) key v (l : list (string * A)) :
  P v → Forall P l.*2 → Forall P (assoc_set key v l).*2.
Proof.
  intros Hv. induction l as [|[k w] l IH]; simpl; intros Hl.
  - constructor; auto.
  - inversion Hl; subst.
    destruct (String.eqb key k); simpl; constructor; auto.
Qed.

Lemma assoc_set_keys {A} key (v : A) (l : list (string * A)) :
  assoc_mem key l = true → (assoc_set key v l).*1 = l.*1.
Proof.
  unfold assoc_mem. induction l as [|[k w] l IH]; simpl; [discriminate|].
  destruct (String.eqb key k) eqn:E; simpl; [reflexivity|].
  intros H. f_equal. apply IH. exact H.
Qed.

Lemma assoc_get_Some_values {A} key (v : A) l :
  assoc_get key l = Some v → v ∈ l.*2.
Proof.
  induction l as [|[k w] l IH]; simpl; [discriminate|].
  destruct (String.eqb key k).
  - intros [= ->]. left.
  - intros H. right. auto.
Qed.

Lemma imap_values {A} (f : nat → string) (l : list A) :
  (imap (λ i v, (f i, v)) l).*2 = l.
Proof.
  revert f. induction l as [|x l IH]; intros f; simpl; [reflexivity|].
  f_equal. unfold compose. apply (IH (λ i, f (S i))).
Qed.

Lemma obj_values_Array elems : obj_values (Array elems) = elems.
Proof. apply imap_values. Qed.

Lemma set_prop_values (P : value → Prop) o key v o' :
  set_prop o key v = Some o' →
  P v → Forall P (obj_values o) → Forall P (obj_values o').
Proof.
  intros Hset Hv Ho. destruct o as [fields|elems|t]; simpl in Hset.
  - destruct (_ && _); [discriminate|]. injection Hset as <-.
    apply assoc_set_values; auto.
  - destruct (array_index key (length elems)) as [i|]; [|discriminate].
    injection Hset as <-.
    rewrite obj_values_Array in *. apply Forall_insert; auto.
  - discriminate.
Qed.

Lemma assign_props_values (P : value → Prop) casted : ∀ o o',
  assign_props o casted = Some o' →
  Forall P (obj_values o) → Forall P casted.*2 →
  Forall P (obj_values o').
Proof.
  induction casted as [|[k v] casted IH]; simpl; intros o o' Ha Ho Hc.
  - injection Ha as <-. exact Ho.
  - destruct (set_prop o k v) as [o1|] eqn:E; [|discriminate].
    inversion Hc; subst. eapply IH; eauto. eapply set_prop_values; eauto.
Qed.

Lemma get_prop_value (P : value → Prop) o key :
  P VUndefined → Forall P (obj_values o) → P (get_prop o key).
Proof.
  intros Hu Ho. unfold get_prop.
  destruct (assoc_get key (props_of o)) as [v|] eqn:E; simpl; [|exact Hu].
  apply assoc_get_Some_values in E.
  rewrite Forall_forall in Ho. apply Ho. exact E.
Qed.

(** ** Regions *)

Section Regions.

Context (S : loc → Prop).

Lemma val_in_mono h h' v :
  (length h ≤ length h')%nat → val_in S h v → val_in S h' v.
Proof. destruct v; simpl; auto. intros ? [? ?]. split; [lia|auto]. Qed.

Lemma Forall_val_in_mono h h' vs :
  (length h ≤ length h')%nat →
  Forall (val_in S h) vs → Forall (val_in S h') vs.
Proof.
  intros Hl H. eapply Forall_impl; [exact H|].
  intros v. apply val_in_mono, Hl.
Qed.

Lemma grows_refl h : region S h → grows S h h.
Proof. intros H. split; [exact H|]. split; [lia|auto]. Qed.

Lemma grows_trans h1 h2 h3 : grows S h1 h2 → grows S h2 h3 → grows S h1 h3.
Proof.
  intros (_ & Hl1 & Hf1 & Hd1) (Hr & Hl2 & Hf2 & Hd2). split; [exact Hr|].
  split; [lia|]. split.
  - intros a Ha. rewrite Hf2, Hf1; auto.
  - intros a t Ha. auto.
Qed.

Lemma grows_outside h h' a : grows S h h' → ¬ S a → h' !! a = h !! a.
Proof. intros (_ & _ & H & _). apply H. Qed.

Lemma grows_date h h' a t :
  grows S h h' → h !! a = Some (DateObj t) → h' !! a = Some (DateObj t).
Proof. intros (_ & _ & _ & H). apply H. Qed.

Lemma grows_region h h' : grows S h h' → region S h'.
Proof. intros [H _]. exact H. Qed.

Lemma grows_length h h' : grows S h h' → (length h ≤ length h')%nat.
Proof. intros (_ & H & _). exact H. Qed.

Lemma region_values h a o :
  region S h → h !! a = Some o → S a → Forall (val_in S h) (obj_values o).
Proof.
  intros [_ Hok] Ha HS. apply Forall_forall. intros v Hv.
  specialize (Hok a o v Ha Hv). destruct v; simpl; auto.
  destruct Hok as [? ?]. auto.
Qed.

Lemma region_alloc h o :
  region S h → Forall (val_in S h) (obj_values o) →
  grows S h (h ++ [o]) ∧ val_in S (h ++ [o]) (VObject (length h)).
Proof.
  intros [Hfresh Hok] Ho.
  assert (Hlen : length (h ++ [o]) = Datatypes.S (length h))
    by (rewrite length_app; simpl; lia).
  split; [split; [split|split; [|split]]|].
  - intros a Ha. apply Hfresh. lia.
  - intros a o' v Ha Hv. rewrite Hlen.
    destruct (decide (a < length h)) as [Hlt|Hge].
    + rewrite lookup_app_l in Ha by exact Hlt.
      specialize (Hok a o' v Ha Hv). destruct v; auto.
      destruct Hok. split; [lia|auto].
    + assert (a = length h) as ->.
      { apply lookup_lt_Some in Ha. lia. }
      rewrite list_lookup_middle in Ha by reflexivity.
      injection Ha as <-.
      rewrite Forall_forall in Ho. specialize (Ho v Hv).
      destruct v; auto. destruct Ho. split; [lia|auto].
  - lia.
  - intros a Ha.
    destruct (decide (a < length h)) as [Hlt|Hge].
    + apply lookup_app_l, Hlt.
    + contradiction Ha. apply Hfresh. lia.
  - intros a t Ha. rewrite lookup_app_l; [exact Ha|].
    eapply lookup_lt_Some; eauto.
  - simpl. split; [lia|]. apply Hfresh. lia.
Qed.

(** A write of values of [S] keeps [S] a region, wherever it lands. *)
Lemma region_insert h l o :
  region S h → Forall (val_in S h) (obj_values o) → region S (<[l := o]> h).
Proof.
  intros [Hfresh Hok] Ho. split.
  - intros a. rewrite length_insert. apply Hfresh.
  - intros a o' v Ha Hv. rewrite length_insert.
    destruct (decide (a = l)) as [->|Hne].
    + assert (Hlt : l < length h).
      { apply lookup_lt_Some in Ha. rewrite length_insert in Ha. exact Ha. }
      rewrite list_lookup_insert_eq in Ha by exact Hlt. injection Ha as <-.
      rewrite Forall_forall in Ho. specialize (Ho v Hv).
      destruct v; auto. destruct Ho. auto.
    + rewrite list_lookup_insert_ne in Ha by auto. exact (Hok a o' v Ha Hv).
Qed.

Lemma assign_props_DateObj t casted o' :
  assign_props (DateObj t) casted = Some o' → o' = DateObj t.
Proof.
  destruct casted as [|[k v] casted]; simpl; [|discriminate].
  intros [= <-]. reflexivity.
Qed.

(** [Object.assign(obj, casted)] on an object of the region. *)
Lemma region_assign h l casted o' :
  region S h → S l → Forall (val_in S h) casted.*2 →
  assign_props (default (Plain []) (h !! l)) casted = Some o' →
  grows S h (<[l := o']> h).
Proof.
  intros Hr Hl Hc Ha. split; [|split; [|split]].
  - apply region_insert; [exact Hr|].
    eapply assign_props_values; [exact Ha| |exact Hc].
    destruct (h !! l) eqn:E; simpl; [|constructor].
    eapply region_values; eauto.
  - rewrite length_insert. lia.
  - intros a Hna. apply list_lookup_insert_ne. intros ->. auto.
  - intros a t Hat. destruct (decide (a = l)) as [->|Hne].
    + rewrite Hat in Ha. simpl in Ha. apply assign_props_DateObj in Ha as ->.
      apply list_lookup_insert_eq. eapply lookup_lt_Some; eauto.
    + rewrite list_lookup_insert_ne by auto. exact Hat.
Qed.

End Regions.

(** ** Allocation of parsed JSON *)

Section Frames.

Context {host : Host} (S : loc → Prop).

Lemma alloc_frame h o v h' :
  region S h → Forall (val_in S h) (obj_values o) →
  alloc o h = Ok v h' → grows S h h' ∧ val_in S h' v.
Proof.
  intros Hr Ho [= <- <-]. apply region_alloc; auto.
Qed.

Lemma alloc_json_frame j : ∀ h v h',
  region S h → alloc_json j h = Ok v h' → grows S h h' ∧ val_in S h' v.
Proof.
  induction j as [| b | n | s | elems IH | fields IH] using json_nested_ind;
    intros h v h' Hr H; simpl in H.
  1-4: inv_M H; split; [apply grows_refl; auto | exact I].
  - inv_M H.
    assert (Hgo : grows S h h0 ∧ Forall (val_in S h0) a).
    { clear H. revert h a h0 Hr Hm.
      induction IH as [|x xs Hx _ IHxs]; intros h vs h1 Hr Hm.
      - inv_M Hm. split; [apply grows_refl; auto | constructor].
      - inv_M Hm. inv_M Hm. inv_M Hm.
        destruct (Hx _ _ _ Hr Hm0) as [Hg1 Hv1].
        destruct (IHxs _ _ _ (grows_region _ _ _ Hg1) Hm1) as [Hg2 Hv2].
        split; [eapply grows_trans; eauto|].
        constructor; [|exact Hv2].
        eapply val_in_mono; [|exact Hv1]. eapply grows_length; eauto. }
    destruct Hgo as [Hg Hvs].
    destruct (alloc_frame h0 (Array a) v h') as [Hg' Hv]; auto.
    { eapply grows_region; eauto. }
    { rewrite obj_values_Array. exact Hvs. }
    split; [eapply grows_trans; eauto | exact Hv].
  - inv_M H.
    assert (Hgo : ∀ acc, Forall (val_in S h) acc.*2 →
              ∀ ps h1,
                (fix go (l : list (string * json)) (acc : props) : M props :=
                   match l with
                   | [] => ret acc
                   | (k, x) :: l' =>
                       let* v := alloc_json x in go l' (assoc_set k v acc)
                   end) fields acc h = Ok ps h1 →
                grows S h h1 ∧ Forall (val_in S h1) ps.*2).
    { clear H Hm. revert h Hr.
      induction IH as [|[k x] xs Hx _ IHxs]; intros h Hr acc Hacc ps h1 Hm.
      - inv_M Hm. split; [apply grows_refl; auto | exact Hacc].
      - inv_M Hm. simpl in Hx.
        destruct (Hx _ _ _ Hr Hm0) as [Hg1 Hv1].
        eapply IHxs in Hm as [Hg2 Hv2].
        + split; [eapply grows_trans; eauto | exact Hv2].
        + eapply grows_region; eauto.
        + apply assoc_set_values; [exact Hv1|].
          eapply Forall_val_in_mono; [|exact Hacc].
          eapply grows_length; eauto. }
    destruct (Hgo [] ltac:(constructor) _ _ Hm) as [Hg Hps].
    destruct (alloc_frame h0 (Plain a) v h') as [Hg' Hv]; auto.
    { eapply grows_region; eauto. }
    split; [eapply grows_trans; eauto | exact Hv].
Qed.

Lemma castFromString_frame val opts toType h r h' :
  region S h → _castFromString val opts toType h = Ok r h' →
  grows S h h' ∧ ∀ v, r = Some v → val_in S h' v.
Proof.
  intros Hr H. unfold _castFromString in H.
  destruct (try_number val opts toType).
  { inv_M H. split; [apply grows_refl; auto|]. intros v [= <-]. exact I. }
  destruct (try_date val opts toType).
  { inv_M H. inv_M H.
    apply alloc_frame in Hm as [Hg Hv]; [ | exact Hr | constructor ].
    split; [exact Hg|]. intros v [= <-]. exact Hv. }
  destruct (try_boolean val opts toType).
  { inv_M H. split; [apply grows_refl; auto|]. intros v [= <-]. exact I. }
  destruct (try_object val opts toType).
  { inv_M H. inv_M H.
    apply alloc_json_frame in Hm as [Hg Hv]; [ | exact Hr ].
    split; [exact Hg|]. intros v [= <-]. exact Hv. }
  inv_M H. split; [apply grows_refl; auto|]. intros v [=].
Qed.

Lemma castSchemaField_frame val toType opts h r h' :
  region S h → _castSchemaField val toType opts h = Ok r h' →
  grows S h h' ∧ ∀ v, r = Some v → val_in S h' v.
Proof.
  intros Hr H. unfold _castSchemaField in H. inv_M H.
  assert (Hfirst : grows S h h0 ∧ ∀ v, a = Some v → val_in S h0 v).
  { destruct val; try (inv_M Hm; split; [apply grows_refl; auto|]; intros v [=]).
    destruct (negb (schema_type_eqb toType T_string)).
    - eapply castFromString_frame; eauto.
    - inv_M Hm. split; [apply grows_refl; auto|]. intros v [=]. }
  destruct Hfirst as [Hg Hv]. pose proof (grows_region _ _ _ Hg) as Hr0.
  destruct a as [v0|].
  { inv_M H. split; [exact Hg|]. intros v [= <-]. auto. }
  assert (Hnone : ret (A := option value) None h0 = Ok r h' →
            grows S h h' ∧ ∀ v, r = Some v → val_in S h' v).
  { intros Hn. inv_M Hn. split; [exact Hg|]. intros v [=]. }
  assert (Hstr : (if schema_type_eqb toType T_string
                  then λ h, match js_JSON_stringify h val with
                            | Some s => Ok (Some (VString s)) h
                            | None => Throw TypeError h
                            end
                  else ret None) h0 = Ok r h' →
            grows S h h' ∧ ∀ v, r = Some v → val_in S h' v).
  { destruct (schema_type_eqb toType T_string); [|exact Hnone].
    destruct (js_JSON_stringify h0 val); [|discriminate].
    intros [= <- <-]. split; [exact Hg|]. intros v [= <-]. exact I. }
  destruct val; auto.
  destruct toType; auto.
  - inv_M H. split; [exact Hg|]. intros v [= <-]. exact I.
  - inv_M H. inv_M H.
    apply alloc_frame in Hm0 as [Hg' Hv']; [ | exact Hr0 | constructor ].
    split; [eapply grows_trans; eauto|]. intros v [= <-]. exact Hv'.
  - inv_M H. split; [exact Hg|]. intros v [= <-]. exact I.
Qed.

Lemma mapM_frame (f : value → M value) :
  frames S f →
  ∀ vs h rs h', region S h → Forall (val_in S h) vs →
    mapM f vs h = Ok rs h' → grows S h h' ∧ Forall (val_in S h') rs.
Proof.
  intros Hf. induction vs as [|v vs IH]; intros h rs h' Hr Hvs H; simpl in H.
  - inv_M H. split; [apply grows_refl; auto | constructor].
  - inv_M H. inv_M H. inv_M H. apply Forall_cons in Hvs as [Hv0 Hvs0].
    destruct (Hf _ _ _ _ Hr Hv0 Hm) as [Hg1 Hv1].
    eapply IH in Hm0 as [Hg2 Hv2].
    + split; [eapply grows_trans; eauto|]. constructor; [|exact Hv2].
      eapply val_in_mono; [|exact Hv1]. eapply grows_length; eauto.
    + eapply grows_region; eauto.
    + eapply Forall_val_in_mono; [|exact Hvs0]. eapply grows_length; eauto.
Qed.

Lemma val_in_castable h v : region S h → val_in S h v → castable S h v.
Proof.
  intros Hr Hv. destruct v; simpl; auto.
  destruct (h !! l) as [[]|] eqn:Hl; auto.
  destruct Hv as [_ Hs]. rewrite <- obj_values_Array.
  eapply region_values; eauto.
Qed.

Lemma get_field_frame obj key h v h' :
  children_in S h obj → get_field obj key h = Ok v h' →
  h' = h ∧ castable S h v.
Proof.
  intros Hc H. destruct obj; simpl in H;
    try (inv_M H; split; [reflexivity | exact I]).
  inv_M H. inv_M H. unfold read in Hm. injection Hm as <- <-.
  split; [reflexivity|]. simpl in Hc.
  destruct (h !! l) as [o|]; simpl; [|exact I].
  apply get_prop_value; [exact I | exact Hc].
Qed.

Lemma isArray_frame v h arr h' :
  castable S h v → isArray v h = Ok arr h' →
  h' = h ∧ match arr with
           | Some elems => Forall (val_in S h) elems
           | None => val_in S h v
           end.
Proof.
  intros Hv H. destruct v; simpl in H;
    try (inv_M H; split; [reflexivity | exact I]).
  inv_M H. inv_M H. unfold read in Hm. injection Hm as <- <-.
  split; [reflexivity|]. simpl in Hv.
  destruct (h !! l) as [[]|]; simpl; auto.
Qed.

(** One turn of the loop stays in the region, and either leaves
    [casted] alone or stores one value of the region under the key of the
    turn, which then is a key the schema gate let through. *)
Lemma cast_key_frame deep opts obj casted key h casted' h' :
  (∀ k f, deep k = Some f → frames S f) →
  region S h → children_in S h obj →
  cast_key deep opts obj casted key h = Ok casted' h' →
  grows S h h' ∧ turn_shape S opts h' casted key casted'.
Proof.
  unfold turn_shape.
  intros Hdeep Hr Hc H. unfold cast_key in H. inv_M H.
  apply get_field_frame in Hm as [-> Hval]; [|exact Hc].
  assert (Hsame : ∀ hx, ret casted hx = Ok casted' h' → hx = h →
            grows S h h'
            ∧ (casted' = casted
               ∨ ∃ v, casted' = assoc_set key v casted ∧ val_in S h' v
                      ∧ schema_gate opts key = false)).
  { intros hx Hx ->. inv_M Hx. split; [apply grows_refl; auto | left; auto]. }
  destruct (negb (truthy a)); [eapply Hsame; eauto|].
  destruct (schema_gate opts key) eqn:Hgate; [eapply Hsame; eauto|].
  inv_M H.
  assert (Hfirst : grows S h h0 ∧ ∀ v, a0 = Some v → val_in S h0 v).
  { destruct a; try (inv_M Hm; split; [apply grows_refl; auto|]; intros v [=]).
    eapply castFromString_frame; eauto. }
  destruct Hfirst as [Hg Hv]. pose proof (grows_region _ _ _ Hg) as Hr0.
  pose proof (grows_length _ _ _ Hg) as Hlen0.
  destruct a0 as [v0|].
  { apply store_Ok in H as [-> <-]. split; [exact Hg|]. right. exists v0. auto. }
  destruct (if is_object_type a then deep key else None) as [cast_deep|] eqn:Hd.
  { assert (Hf : frames S cast_deep).
    { destruct (is_object_type a); [|discriminate]. eapply Hdeep; eauto. }
    assert (h0 = h) as ->.
    { destruct a; try discriminate Hd; inv_M Hm; reflexivity. }
    inv_M H.
    apply isArray_frame in Hm0 as [-> Harr]; [|exact Hval].
    destruct a0 as [elems|].
    - inv_M H. inv_M H. apply store_Ok in H as [-> <-].
      eapply mapM_frame in Hm0 as [Hg1 Hvs]; eauto.
      apply alloc_frame in Hm1 as [Hg2 Hv2];
        [| eapply grows_region; eauto | rewrite obj_values_Array; exact Hvs].
      split; [eapply grows_trans; eauto|].
      right. eexists. eauto.
    - inv_M H. apply store_Ok in H as [-> <-].
      eapply Hf in Hm0 as [Hg1 Hv1]; auto.
      split; [exact Hg1|]. right. eexists. eauto. }
  assert (Hsame0 : ret casted h0 = Ok casted' h' →
            grows S h h'
            ∧ (casted' = casted
               ∨ ∃ v, casted' = assoc_set key v casted ∧ val_in S h' v
                      ∧ schema_gate opts key = false)).
  { intros Hx. inv_M Hx. split; [exact Hg | left; auto]. }
  rewrite Hgate in Hsame0.
  destruct (_ && negb (key_in key casted)); [|auto].
  destruct (schema_lookup opts key) as [[b|toType]|]; [auto| |auto].
  inv_M H. apply castSchemaField_frame in Hm0 as [Hg1 Hv1]; [|exact Hr0].
  destruct a0 as [v1|].
  - apply store_Ok in H as [-> <-].
    split; [eapply grows_trans; eauto|]. right. eexists. eauto.
  - inv_M H. split; [eapply grows_trans; eauto | left; auto].
Qed.

(** The loop, with an invariant [Q] of the caller's choice on [casted]
    and the store. *)
Lemma foldM_cast_key_frame deep opts obj (Q : props → heap → Prop) h :
  (∀ k f, deep k = Some f → frames S f) →
  (∀ h'', grows S h h'' → children_in S h'' obj) →
  ∀ keys,
    (∀ key c hi c' hi',
        key ∈ keys → grows S h hi →
        cast_key deep opts obj c key hi = Ok c' hi' →
        grows S hi hi' → turn_shape S opts hi' c key c' →
        Q c hi → Q c' hi') →
    ∀ casted hi casted' h',
      grows S h hi → Q casted hi →
      foldM (cast_key deep opts obj) keys casted hi = Ok casted' h' →
      grows S h h' ∧ Q casted' h'.
Proof.
  intros Hdeep Hobj. induction keys as [|key keys IH];
    intros Hstep casted hi casted' h' Hg HQ H; simpl in H.
  - inv_M H. auto.
  - inv_M H. pose proof Hm as Hturn.
    apply cast_key_frame in Hm as [Hg1 Hshape]; auto;
      [|eapply grows_region; eauto].
    eapply IH in H; eauto.
    + intros key' c hj c' hj' Hin. apply Hstep. right. exact Hin.
    + eapply grows_trans; eauto.
    + eapply Hstep; eauto. left.
Qed.

Lemma turn_shape_values opts h h' c key c' :
  grows S h h' → turn_shape S opts h' c key c' →
  Forall (val_in S h) c.*2 → Forall (val_in S h') c'.*2.
Proof.
  intros Hg Hshape Hc. pose proof (grows_length _ _ _ Hg) as Hlen.
  destruct Hshape as [->|(v & -> & Hv & _)].
  - eapply Forall_val_in_mono; eauto.
  - apply assoc_set_values; [exact Hv|]. eapply Forall_val_in_mono; eauto.
Qed.

Lemma children_in_region h obj :
  region S h → val_in S h obj → children_in S h obj.
Proof.
  intros Hr Hv. destruct obj; simpl; auto.
  destruct (h !! l) eqn:Hl; [|exact I].
  destruct Hv as [_ Hs].
  eapply Forall_impl; [eapply region_values; eauto|].
  intros v. apply val_in_castable, Hr.
Qed.

Lemma enumerate_heap obj h keys h' :
  enumerate obj h = Ok keys h' → h' = h.
Proof.
  intros H. destruct obj; simpl in H; try (inv_M H; reflexivity).
  inv_M H. inv_M H. unfold read in Hm. congruence.
Qed.

Lemma cast_fields_frame deep opts obj h casted h' :
  (∀ k f, deep k = Some f → frames S f) →
  region S h →
  (∀ h'', grows S h h'' → children_in S h'' obj) →
  cast_fields deep opts obj h = Ok casted h' →
  grows S h h' ∧ Forall (val_in S h') casted.*2.
Proof.
  intros Hdeep Hr Hobj H. unfold cast_fields in H. inv_M H.
  apply enumerate_heap in Hm as ->.
  eapply (foldM_cast_key_frame deep opts obj
            (λ c hi, Forall (val_in S hi) c.*2)) in H;
    [ exact H | exact Hdeep | exact Hobj | | apply grows_refl, Hr | constructor ].
  intros key c hi c' hi' _ _ _ Hg Hshape. eapply turn_shape_values; eauto.
Qed.

Lemma cast_with_frames deep opts :
  (∀ k f, deep k = Some f → frames S f) →
  frames S (cast_with deep opts).
Proof.
  intros Hdeep obj h r h' Hr Hobj H. unfold cast_with in H.
  destruct (negb (is_object_type obj)).
  { inv_M H. split; [apply grows_refl; auto | exact Hobj]. }
  inv_M H.
  apply cast_fields_frame in Hm as [Hg Hc]; auto.
  2:{ intros h'' Hg. apply children_in_region; [eapply grows_region; eauto|].
      eapply val_in_mono; [|exact Hobj]. eapply grows_length; eauto. }
  pose proof (grows_region _ _ _ Hg) as Hr0.
  pose proof (grows_length _ _ _ Hg) as Hlen.
  assert (Hobj0 : val_in S h0 obj) by (eapply val_in_mono; eauto).
  pose proof (children_in_region _ _ Hr0 Hobj0) as Hch.
  destruct (rewriteFields opts).
  - unfold assign_in_place in H. destruct obj; try discriminate H.
    inv_M H. unfold read in Hm. injection Hm as <- <-.
    destruct (assign_props _ a) as [o'|] eqn:Ha; [|discriminate H].
    inv_M H. inv_M H.
    unfold write in Hm. injection Hm as <-. subst h'.
    destruct Hobj0 as [Hlt Hs].
    split; [eapply grows_trans; [exact Hg|]|].
    + exact (region_assign S h0 l a o' Hr0 Hs Hc Ha).
    + simpl. split; [|exact Hs]. rewrite length_insert. exact Hlt.
  - unfold assign_copy in H. inv_M H.
    assert (h1 = h0 ∧ Forall (val_in S h0) a0.*2) as [-> Hsrc].
    { destruct obj; simpl in Hm; try (inv_M Hm; split; [reflexivity|constructor]).
      inv_M Hm. inv_M Hm. unfold read in Hm0. injection Hm0 as <- <-.
      split; [reflexivity|]. destruct Hobj0 as [_ Hs].
      destruct (h0 !! l) eqn:Hl0; simpl;
        [eapply region_values; eauto | constructor]. }
    destruct (assign_props (Plain []) a0) as [o1|] eqn:Ha1;
      simpl in H; [|discriminate H].
    destruct (assign_props o1 a) as [o2|] eqn:Ha2; [|discriminate H].
    apply alloc_frame in H as [Hg' Hv]; auto.
    + split; [eapply grows_trans; eauto | exact Hv].
    + eapply assign_props_values; [exact Ha2| |exact Hc].
      eapply assign_props_values; [exact Ha1|constructor | exact Hsrc].
Qed.

End Frames.

(** ** The fields of the resolved options *)

Lemma resolve_options_schema p : schema (resolve_options (Some p)) = p_schema p.
Proof.
  unfold resolve_options, new_TpsCasterOptions. simpl.
  destruct (default false (p_enableAll p)); simpl;
    destruct (p_schema p); reflexivity.
Qed.

Lemma resolve_options_onlySchema p :
  onlySchema (resolve_options (Some p)) = default false (p_onlySchema p).
Proof.
  unfold resolve_options, new_TpsCasterOptions. simpl.
  destruct (default false (p_enableAll p)); reflexivity.
Qed.

Lemma resolve_options_rewriteFields p :
  rewriteFields (resolve_options (Some p)) = default false (p_rewriteFields p).
Proof.
  unfold resolve_options, new_TpsCasterOptions. simpl.
  destruct (default false (p_enableAll p)); reflexivity.
Qed.

(** ** The recursion through [deepCasters] *)

Lemma Partial_nested_ind (P : Partial → Prop) :
  (∀ p, Forall (λ kq, P kq.2) (default [] (p_deepCasters p)) → P p) →
  ∀ p, P p.
Proof.
  intros Hstep. fix IH 1. intros p. apply Hstep.
  destruct p as [? ? ? ? ? ? ? ? ? ? casters]. simpl.
  destruct casters as [casters|]; simpl; [|constructor].
  induction casters as [|[k q] rest IHrest]; constructor;
    [apply IH | exact IHrest].
Qed.

Section Recursion.

Context {host : Host}.

Lemma cast_partial_unfold (p : Partial) :
  cast_partial p = cast_with (deep_casters p) (resolve_options (Some p)).
Proof. destruct p. reflexivity. Qed.

(** The call for a key that [opts.deepCasters] only inherits runs with
    the default options, as a call with the configuration [{}] does. *)
Lemma cast_partial_no_options :
  cast_with (λ _, None) (resolve_options None)
  = cast_partial Scenario.no_options.
Proof. reflexivity. Qed.

Lemma deep_casters_lookup (p : Partial) (key : string) :
  deep_casters p key
  = match p_deepCasters p with
    | Some casters =>
        match assoc_get key casters with
        | Some q => Some (cast_partial q)
        | None =>
            if inherited key then Some (cast_partial Scenario.no_options)
            else None
        end
    | None => None
    end.
Proof.
  unfold deep_casters. destruct (p_deepCasters p) as [casters|];
    [|reflexivity].
  induction casters as [|[k q] rest IH]; simpl; [reflexivity|].
  destruct (String.eqb key k); [reflexivity | exact IH].
Qed.


Lemma deep_casters_None (p : Partial) key :
  deep_casters p key = None ↔ deep_registered p key = false.
Proof.
  rewrite deep_casters_lookup. unfold deep_registered, key_in, assoc_mem.
  destruct (p_deepCasters p) as [casters|]; [|tauto].
  destruct (assoc_get key casters); simpl; [split; discriminate|].
  destruct (inherited key); split; (discriminate || reflexivity).
Qed.

Lemma assoc_get_elem_of {A} key (x : A) l :
  assoc_get key l = Some x → ∃ k, (k, x) ∈ l.
Proof.
  induction l as [|[k w] l IH]; simpl; [discriminate|].
  destruct (String.eqb key k).
  - intros [= ->]. exists k. left.
  - intros H. destruct (IH H) as [k' Hk']. exists k'. right. exact Hk'.
Qed.

(** A nested call runs with a nested configuration of [p], or with the
    default options. *)
Lemma deep_casters_Some (p : Partial) key f :
  deep_casters p key = Some f →
  (∃ k q, (k, q) ∈ default [] (p_deepCasters p) ∧ f = cast_partial q)
  ∨ f = cast_partial Scenario.no_options.
Proof.
  rewrite deep_casters_lookup.
  destruct (p_deepCasters p) as [casters|]; simpl; [|discriminate].
  destruct (assoc_get key casters) as [q|] eqn:E.
  - intros [= <-]. apply assoc_get_elem_of in E as [k Hk]. eauto.
  - destruct (inherited key); [|discriminate]. intros [= <-]. auto.
Qed.

(** A call of [cast] stays in any region that holds its argument. *)
Lemma cast_partial_frames (S : loc → Prop) : ∀ p, frames S (cast_partial p).
Proof.
  induction p as [p IH] using Partial_nested_ind.
  rewrite cast_partial_unfold. apply cast_with_frames.
  intros k f Hf. apply deep_casters_Some in Hf as [(k' & q & Hin & ->)| ->].
  - rewrite Forall_forall in IH. exact (IH _ Hin).
  - rewrite <- cast_partial_no_options. apply cast_with_frames. discriminate.
Qed.

Lemma deep_casters_frames (S : loc → Prop) p k f :
  deep_casters p k = Some f → frames S f.
Proof.
  intros Hf. apply deep_casters_Some in Hf as [(k' & q & _ & ->)| ->];
    apply cast_partial_frames.
Qed.

End Recursion.

(** ** Calls that only extend the store *)

Section Prefixes.

Context {host : Host}.

Lemma alloc_prefix o h v h' :
  alloc o h = Ok v h' →
  h `prefix_of` h' ∧ v = VObject (length h) ∧ h' !! length h = Some o.
Proof.
  intros [= <- <-]. split; [apply prefix_app_r; reflexivity|].
  split; [reflexivity|]. apply list_lookup_middle. reflexivity.
Qed.

Lemma alloc_json_spec j : ∀ h v h',
  alloc_json j h = Ok v h' →
  h `prefix_of` h'
  ∧ match j with
    | JArray _ =>
        ∃ a elems, v = VObject a ∧ (length h ≤ a)%nat
                   ∧ h' !! a = Some (Array elems)
    | JObject _ =>
        ∃ a fields, v = VObject a ∧ (length h ≤ a)%nat
                    ∧ h' !! a = Some (Plain fields)
    | _ => True
    end.
Proof.
  induction j as [| b | n | s | elems IH | fields IH] using json_nested_ind;
    intros h v h' H; simpl in H.
  1-4: inv_M H; split; [reflexivity | exact I].
  - inv_M H. apply alloc_prefix in H as (Hp & -> & Hl).
    assert (Hin : h `prefix_of` h0).
    { clear Hp Hl. revert h a h0 Hm.
      induction IH as [|x xs Hx _ IHxs]; intros h vs h1 Hm.
      + inv_M Hm. reflexivity.
      + inv_M Hm. inv_M Hm. inv_M Hm.
        etransitivity; [eapply Hx; eauto | eapply IHxs; eauto]. }
    split; [etransitivity; eauto|].
    exists (length h0), a. split; [reflexivity|]. split; [|exact Hl].
    apply prefix_length, Hin.
  - inv_M H. apply alloc_prefix in H as (Hp & -> & Hl).
    assert (Hin : h `prefix_of` h0).
    { clear Hp Hl. revert Hm. generalize (@nil (string * value)).
      revert h a h0.
      induction IH as [|[k x] xs Hx _ IHxs]; intros h ps h1 acc Hm.
      + inv_M Hm. reflexivity.
      + inv_M Hm. etransitivity; [eapply Hx; eauto | eapply IHxs; eauto]. }
    split; [etransitivity; eauto|].
    exists (length h0), a. split; [reflexivity|]. split; [|exact Hl].
    apply prefix_length, Hin.
Qed.

Lemma alloc_json_prefix j h v h' :
  alloc_json j h = Ok v h' → h `prefix_of` h'.
Proof. intros H. apply alloc_json_spec in H as [H _]. exact H. Qed.

Lemma alloc_json_compound j h v h' :
  alloc_json j h = Ok v h' →
  match j with
  | JArray _ =>
      ∃ a elems, v = VObject a ∧ (length h ≤ a)%nat
                 ∧ h' !! a = Some (Array elems)
  | JObject _ =>
      ∃ a fields, v = VObject a ∧ (length h ≤ a)%nat
                  ∧ h' !! a = Some (Plain fields)
  | _ => True
  end.
Proof. intros H. apply alloc_json_spec in H as [_ H]. exact H. Qed.

Lemma try_object_compound val opts toType j :
  try_object val opts toType = Some j →
  (∃ elems, j = JArray elems) ∨ (∃ fields, j = JObject fields).
Proof.
  unfold try_object. destruct (_ || _); [|discriminate].
  destruct (js_JSON_parse val) as [[]|]; try discriminate;
    intros [= <-]; eauto.
Qed.

Lemma castFromString_prefix val opts toType h r h' :
  _castFromString val opts toType h = Ok r h' → h `prefix_of` h'.
Proof.
  unfold _castFromString. intros H.
  destruct (try_number val opts toType); [inv_M H; reflexivity|].
  destruct (try_date val opts toType).
  { inv_M H. inv_M H. apply alloc_prefix in Hm as (Hp & _). exact Hp. }
  destruct (try_boolean val opts toType); [inv_M H; reflexivity|].
  destruct (try_object val opts toType).
  { inv_M H. inv_M H. eapply alloc_json_prefix; eauto. }
  inv_M H. reflexivity.
Qed.

Lemma castSchemaField_prefix val toType opts h r h' :
  _castSchemaField val toType opts h = Ok r h' → h `prefix_of` h'.
Proof.
  intros H. unfold _castSchemaField in H. inv_M H.
  assert (Hp : h `prefix_of` h0).
  { destruct val; try (inv_M Hm; reflexivity).
    destruct (negb (schema_type_eqb toType T_string));
      [eapply castFromString_prefix; eauto | inv_M Hm; reflexivity]. }
  etransitivity; [exact Hp|]. clear Hp Hm.
  destruct a; [inv_M H; reflexivity|].
  destruct val; try (inv_M H; reflexivity).
  - destruct (schema_type_eqb toType T_string); [|inv_M H; reflexivity].
    destruct (js_JSON_stringify h0 VNull); [|discriminate].
    injection H as _ <-. reflexivity.
  - destruct toType; try (inv_M H; reflexivity).
    inv_M H. inv_M H. apply alloc_prefix in Hm as [Hp _]. exact Hp.
  - destruct (schema_type_eqb toType T_string); [|inv_M H; reflexivity].
    destruct (js_JSON_stringify h0 (VObject l)); [|discriminate].
    injection H as _ <-. reflexivity.
Qed.

Lemma mapM_prefix (f : value → M value) :
  (∀ v h r h', f v h = Ok r h' → h `prefix_of` h') →
  ∀ l h rs h', mapM f l h = Ok rs h' → h `prefix_of` h'.
Proof.
  intros Hf. induction l as [|x l IH]; intros h rs h' H; simpl in H.
  - inv_M H. reflexivity.
  - inv_M H. inv_M H. inv_M H.
    etransitivity; [eapply Hf; eauto | eapply IH; eauto].
Qed.

Lemma get_field_heap obj key h v h' :
  get_field obj key h = Ok v h' → h' = h.
Proof.
  destruct obj; simpl; intros H; try (inv_M H; reflexivity).
  inv_M H. inv_M H. unfold read in Hm. congruence.
Qed.

Lemma isArray_heap v h arr h' : isArray v h = Ok arr h' → h' = h.
Proof.
  destruct v; simpl; intros H; try (inv_M H; reflexivity).
  inv_M H. inv_M H. unfold read in Hm. congruence.
Qed.

Lemma cast_key_prefix (deep : string → option (value → M value))
    opts obj c key h c' h' :
  (∀ k f, deep k = Some f →
          ∀ v h r h', f v h = Ok r h' → h `prefix_of` h') →
  cast_key deep opts obj c key h = Ok c' h' → h `prefix_of` h'.
Proof.
  intros Hdeep H. unfold cast_key in H. inv_M H.
  apply get_field_heap in Hm as ->.
  destruct (negb (truthy a)); [inv_M H; reflexivity|].
  destruct (schema_gate opts key); [inv_M H; reflexivity|].
  inv_M H.
  assert (Hp : h `prefix_of` h0).
  { destruct a; try (inv_M Hm; reflexivity).
    eapply castFromString_prefix; eauto. }
  etransitivity; [exact Hp|]. clear Hp Hm.
  destruct a0; [apply store_Ok in H as [_ <-]; reflexivity|].
  destruct (if is_object_type a then deep key else None) as [f|] eqn:Hd.
  { assert (Hf : deep key = Some f)
      by (destruct (is_object_type a); [exact Hd | discriminate]).
    inv_M H. apply isArray_heap in Hm as ->.
    destruct a0 as [elems|].
    - inv_M H. inv_M H. apply store_Ok in H as [_ <-].
      apply alloc_prefix in Hm0 as [Hp _].
      etransitivity; [|exact Hp].
      eapply mapM_prefix; [|exact Hm]. eapply Hdeep; eauto.
    - inv_M H. apply store_Ok in H as [_ <-]. eapply Hdeep; eauto. }
  destruct (_ && negb (key_in key c)); [|inv_M H; reflexivity].
  destruct (schema_lookup opts key) as [[b|toType]|];
    [inv_M H; reflexivity| |inv_M H; reflexivity].
  inv_M H. apply castSchemaField_prefix in Hm.
  destruct a0; [apply store_Ok in H as [_ <-] | inv_M H]; exact Hm.
Qed.

Lemma foldM_cast_key_prefix (deep : string → option (value → M value))
    opts obj :
  (∀ k f, deep k = Some f →
          ∀ v h r h', f v h = Ok r h' → h `prefix_of` h') →
  ∀ keys c h c' h',
    foldM (cast_key deep opts obj) keys c h = Ok c' h' → h `prefix_of` h'.
Proof.
  intros Hdeep. induction keys as [|k keys IH]; intros c h c' h' H;
    simpl in H.
  - inv_M H. reflexivity.
  - inv_M H. etransitivity; [eapply cast_key_prefix; eauto | eapply IH; eauto].
Qed.

Lemma cast_with_prefix (deep : string → option (value → M value)) opts :
  (∀ k f, deep k = Some f →
          ∀ v h r h', f v h = Ok r h' → h `prefix_of` h') →
  rewriteFields opts = false →
  ∀ v h r h', cast_with deep opts v h = Ok r h' → h `prefix_of` h'.
Proof.
  intros Hdeep Hrw v h r h' H. unfold cast_with in H.
  destruct (negb (is_object_type v)); [inv_M H; reflexivity|].
  inv_M H. rewrite Hrw in H.
  unfold cast_fields in Hm. inv_M Hm. apply enumerate_heap in Hm0 as ->.
  apply foldM_cast_key_prefix in Hm; [|exact Hdeep].
  etransitivity; [exact Hm|].
  unfold assign_copy in H. inv_M H.
  assert (h1 = h0) as ->.
  { destruct v; try (inv_M Hm0; reflexivity).
    inv_M Hm0. inv_M Hm0. unfold read in Hm1. congruence. }
  destruct (_ ≫= _) as [o'|]; [|discriminate H].
  apply alloc_prefix in H as [Hp _]. exact Hp.
Qed.

Lemma rewriteFields_off p :
  p_rewriteFields p ≠ Some true →
  rewriteFields (resolve_options (Some p)) = false.
Proof.
  intros Hrw. rewrite resolve_options_rewriteFields.
  destruct (p_rewriteFields p) as [[]|]; try reflexivity.
  contradiction Hrw. reflexivity.
Qed.

Lemma cast_partial_prefix : ∀ p,
  copies_below p → p_rewriteFields p ≠ Some true →
  ∀ v h r h', cast_partial p v h = Ok r h' → h `prefix_of` h'.
Proof.
  induction p as [p IH] using Partial_nested_ind.
  intros Hcopies Hrw. rewrite cast_partial_unfold.
  apply cast_with_prefix; [|apply rewriteFields_off, Hrw].
  intros k f Hf. apply deep_casters_Some in Hf as [(k' & q & Hin & ->)| ->].
  - inversion Hcopies as [p' Hall]; subst.
    rewrite Forall_forall in IH, Hall.
    destruct (Hall _ Hin) as [Hq Hcq]. simpl in Hq, Hcq.
    exact (IH _ Hin Hcq Hq).
  - rewrite <- cast_partial_no_options.
    apply cast_with_prefix; [discriminate | reflexivity].
Qed.

Lemma deep_casters_prefix (p : Partial) :
  copies_below p →
  ∀ k f, deep_casters p k = Some f →
         ∀ v h r h', f v h = Ok r h' → h `prefix_of` h'.
Proof.
  intros Hcopies k f Hf.
  apply deep_casters_Some in Hf as [(k' & q & Hin & ->)| ->].
  - inversion Hcopies as [p' Hall]; subst.
    rewrite Forall_forall in Hall.
    destruct (Hall _ Hin) as [Hq Hcq]. simpl in Hq, Hcq.
    apply cast_partial_prefix; assumption.
  - rewrite <- cast_partial_no_options.
    apply cast_with_prefix; [discriminate | reflexivity].
Qed.

End Prefixes.

(** ** Records: [Object.assign] as an overlay *)

Lemma assign_props_Plain casted : ∀ fields o',
  assign_props (Plain fields) casted = Some o' →
  o' = Plain (overlay fields casted).
Proof.
  unfold overlay.
  induction casted as [|[k v] casted IH]; intros fields o'; simpl.
  - intros [= <-]. reflexivity.
  - destruct (_ && _); [discriminate|]. apply IH.
Qed.

(** Without the key [__proto__] in the source, [Object.assign] on a
    record stays in the model. *)
Lemma assign_props_Plain_Some casted : ∀ fields,
  "__proto__" ∉ casted.*1 →
  assign_props (Plain fields) casted = Some (Plain (overlay fields casted)).
Proof.
  unfold overlay.
  induction casted as [|[k v] casted IH]; intros fields Hk; simpl;
    [reflexivity|].
  destruct (String.eqb k "__proto__") eqn:E.
  - apply String.eqb_eq in E. subst k. contradiction Hk. left.
  - simpl. apply IH. intros Hin. apply Hk. right. exact Hin.
Qed.

Lemma assoc_get_None_keys {A} key (l : list (string * A)) :
  assoc_get key l = None ↔ key ∉ l.*1.
Proof.
  induction l as [|[k w] l IH]; simpl.
  - split; [intros _ H; inversion H | reflexivity].
  - destruct (String.eqb key k) eqn:E.
    + apply String.eqb_eq in E. subst. split; [discriminate|].
      intros H. contradiction H. left.
    + apply String.eqb_neq in E. rewrite IH. split.
      * intros H Hin. inversion Hin; subst; auto.
      * intros H Hin. apply H. right. exact Hin.
Qed.

Lemma assoc_set_snoc {A} key (v : A) l :
  key ∉ l.*1 → assoc_set key v l = (l ++ [(key, v)])%list.
Proof.
  induction l as [|[k w] l IH]; simpl; intros Hk; [reflexivity|].
  destruct (String.eqb key k) eqn:E.
  - apply String.eqb_eq in E. subst. contradiction Hk. left.
  - f_equal. apply IH. intros Hin. apply Hk. right. exact Hin.
Qed.

Lemma overlay_app fields c1 c2 :
  overlay fields (c1 ++ c2)%list = overlay (overlay fields c1) c2.
Proof. unfold overlay. apply fold_left_app. Qed.

(** Copying a record with distinct keys gives the same fields in the same
    order. *)
Lemma overlay_copy fields :
  NoDup fields.*1 → overlay [] fields = fields.
Proof.
  induction fields as [|[k v] fields IH] using rev_ind; intros Hnd;
    [reflexivity|].
  rewrite fmap_app in Hnd. apply NoDup_app in Hnd as (Hnd & Hdisj & _).
  rewrite overlay_app, IH by exact Hnd. simpl.
  apply assoc_set_snoc. intros Hin. apply (Hdisj _ Hin). left.
Qed.

Lemma assoc_get_overlay key casted : ∀ fields,
  NoDup casted.*1 →
  assoc_get key (overlay fields casted)
  = match assoc_get key casted with
    | Some v => Some v
    | None => assoc_get key fields
    end.
Proof.
  induction casted as [|[k v] casted IH]; intros fields Hnd; simpl;
    [reflexivity|].
  simpl in Hnd. apply NoDup_cons in Hnd as [Hk Hnd].
  change (overlay fields ((k, v) :: casted))
    with (overlay (assoc_set k v fields) casted).
  rewrite IH by exact Hnd.
  destruct (String.eqb key k) eqn:E.
  - apply String.eqb_eq in E. subst k.
    apply assoc_get_None_keys in Hk. rewrite Hk.
    apply assoc_get_set_eq.
  - apply String.eqb_neq in E.
    destruct (assoc_get key casted); [reflexivity|].
    apply assoc_get_set_ne. congruence.
Qed.

Lemma assoc_set_NoDup {A} key (v : A) l :
  NoDup l.*1 → NoDup (assoc_set key v l).*1.
Proof.
  intros Hnd. destruct (assoc_mem key l) eqn:E.
  - rewrite assoc_set_keys by exact E. exact Hnd.
  - unfold assoc_mem in E.
    destruct (assoc_get key l) eqn:E'; [discriminate|].
    apply assoc_get_None_keys in E'.
    rewrite assoc_set_snoc by exact E'. rewrite fmap_app. simpl.
    apply NoDup_app. split; [exact Hnd|]. split.
    + intros x Hx Hin. apply list_elem_of_singleton in Hin. subst. auto.
    + apply NoDup_singleton.
Qed.

(** ** Stores without dangling references, and what lies below a record *)

Lemma wf_heap_lookup h a o v :
  wf_heap h → h !! a = Some o → v ∈ obj_values o → allocated h v.
Proof.
  intros Hwf Ha Hv. unfold wf_heap in Hwf.
  rewrite Forall_forall in Hwf.
  specialize (Hwf o (list_elem_of_lookup_2 _ _ _ Ha)).
  rewrite Forall_forall in Hwf. auto.
Qed.

Lemma region_below h l : wf_heap h → region (below h l) h.
Proof.
  intros Hwf. split.
  - intros a Ha. right. exact Ha.
  - intros a o v Ha Hv. pose proof (wf_heap_lookup _ _ _ _ Hwf Ha Hv) as Hal.
    destruct v; auto. simpl in Hal. split; [exact Hal|].
    intros [Hreach|Hge].
    + left. eapply reach_trans; [exact Hreach|]. eapply reach_field; eauto.
    + apply lookup_lt_Some in Ha. lia.
Qed.

Lemma below_not_self h l o :
  h !! l = Some o → ¬ reach h l l → ¬ below h l l.
Proof.
  intros Hl Hn [Hr|Hge]; [auto|]. apply lookup_lt_Some in Hl. lia.
Qed.

Lemma below_children h l o :
  wf_heap h → h !! l = Some o → Forall (val_in (below h l) h) (obj_values o).
Proof.
  intros Hwf Hl. apply Forall_forall. intros v Hv.
  pose proof (wf_heap_lookup _ _ _ _ Hwf Hl Hv) as Hal.
  destruct v; simpl; auto. split; [exact Hal|].
  left. eapply reach_field; eauto.
Qed.

(** A region is a store without dangling references. *)
Lemma region_wf_heap S h : region S h → wf_heap h.
Proof.
  intros [_ Hok]. apply Forall_forall. intros o Ho.
  apply list_elem_of_lookup in Ho as [a Ha].
  apply Forall_forall. intros v Hv.
  specialize (Hok a o v Ha Hv). destruct v; simpl; auto. tauto.
Qed.

(** ** A call of [cast] on a record *)

Section Records.

Context {host : Host}.

Lemma cast_object_inv deep opts l h r h' :
  cast_with deep opts (VObject l) h = Ok r h' →
  ∃ casted h1 o',
    cast_fields deep opts (VObject l) h = Ok casted h1
    ∧ if rewriteFields opts
      then assign_props (default (Plain []) (h1 !! l)) casted = Some o'
           ∧ r = VObject l ∧ h' = <[l := o']> h1
      else assign_props (Plain []) (props_of (default (Plain []) (h1 !! l)))
             ≫= (λ o, assign_props o casted) = Some o'
           ∧ r = VObject (length h1) ∧ h' = (h1 ++ [o'])%list.
Proof.
  intros H. unfold cast_with in H. simpl in H. inv_M H.
  destruct (rewriteFields opts).
  - unfold assign_in_place in H. inv_M H.
    unfold read in Hm0. injection Hm0 as <- <-.
    destruct (assign_props _ a) as [o'|] eqn:Ha; [|discriminate H].
    inv_M H. inv_M H. unfold write in Hm0. injection Hm0 as <-.
    exists a, h0, o'. auto.
  - unfold assign_copy in H. inv_M H. inv_M Hm0. inv_M Hm0.
    unfold read in Hm1. injection Hm1 as <- <-.
    destruct (_ ≫= _) as [o'|] eqn:Ha; [|discriminate H].
    unfold alloc in H. injection H as <- <-.
    exists a, h0, o'. auto.
Qed.

(** The loop on a record that lies outside the region [S] while its
    fields lead into it: the record is not written to while the loop
    runs. *)
Lemma cast_fields_top (S : loc → Prop) deep opts l o (Q : props → Prop)
    h casted h1 :
  (∀ k f, deep k = Some f → frames S f) →
  region S h → ¬ S l → h !! l = Some o →
  (∀ h'', grows S h h'' → Forall (castable S h'') (obj_values o)) →
  (∀ key c hi c' hi',
      key ∈ own_keys o → grows S h hi → hi !! l = Some o →
      cast_key deep opts (VObject l) c key hi = Ok c' hi' →
      turn_shape S opts hi' c key c' → Q c → Q c') →
  Q [] →
  cast_fields deep opts (VObject l) h = Ok casted h1 →
  grows S h h1 ∧ h1 !! l = Some o ∧ Forall (val_in S h1) casted.*2 ∧ Q casted.
Proof.
  intros Hdeep Hr Hl Ho Hch Hstep HQ H.
  assert (Hfix : ∀ h'', grows S h h'' → h'' !! l = Some o).
  { intros h'' Hg. rewrite (grows_outside _ _ _ _ Hg); auto. }
  unfold cast_fields in H. inv_M H.
  simpl in Hm. inv_M Hm. inv_M Hm.
  unfold read in Hm0. injection Hm0 as <- <-. rewrite Ho in H. simpl in H.
  eapply (foldM_cast_key_frame S deep opts (VObject l)
            (λ c hi, Forall (val_in S hi) c.*2 ∧ Q c) h) in H
    as (Hg & Hc & HQ').
  - split; [exact Hg|]. split; [apply Hfix, Hg|]. auto.
  - exact Hdeep.
  - intros h'' Hg. simpl. rewrite (Hfix _ Hg). apply Hch, Hg.
  - intros key c hi c' hi' Hin Hg Hturn Hg' Hshape [Hc HQc]. split.
    + eapply turn_shape_values; eauto.
    + eapply Hstep; eauto.
  - apply grows_refl, Hr.
  - split; [constructor | exact HQ].
Qed.

Lemma below_castable h l o h'' :
  wf_heap h → h !! l = Some o → grows (below h l) h h'' →
  Forall (castable (below h l) h'') (obj_values o).
Proof.
  intros Hwf Hl Hg.
  eapply Forall_impl.
  - eapply Forall_val_in_mono; [eapply grows_length; eauto|].
    apply below_children; eauto.
  - intros v. apply val_in_castable. eapply grows_region; eauto.
Qed.

(** [cast] on a plain record that is not part of a cycle.  [Q] is an
    invariant of the caller's choice on the fields set so far. *)
Lemma cast_record_spec (p : Partial) l fields (Q : props → Prop) h r h' :
  let opts := resolve_options (Some p) in
  wf_heap h → ¬ reach h l l →
  h !! l = Some (Plain fields) → NoDup fields.*1 →
  (∀ key c hi c' hi',
      key ∈ fields.*1 → grows (below h l) h hi →
      hi !! l = Some (Plain fields) →
      cast_key (deep_casters p) opts (VObject l) c key hi = Ok c' hi' →
      turn_shape (below h l) opts hi' c key c' → Q c → Q c') →
  Q [] →
  cast_partial p (VObject l) h = Ok r h' →
  ∃ casted h1,
    cast_fields (deep_casters p) opts (VObject l) h = Ok casted h1
    ∧ grows (below h l) h h1 ∧ h1 !! l = Some (Plain fields)
    ∧ Forall (val_in (below h l) h1) casted.*2
    ∧ NoDup casted.*1 ∧ Q casted
    ∧ if rewriteFields opts
      then r = VObject l ∧ h' = <[l := Plain (overlay fields casted)]> h1
      else r = VObject (length h1)
           ∧ h' = (h1 ++ [Plain (overlay fields casted)])%list.
Proof.
  intros opts Hwf Hacyc Hl Hnd Hstep HQ H.
  rewrite cast_partial_unfold in H.
  apply cast_object_inv in H as (casted & h1 & o' & Hloop & Hres).
  pose proof Hloop as Hloop'.
  eapply (cast_fields_top (below h l) _ _ l (Plain fields)
            (λ c, NoDup c.*1 ∧ Q c)) in Hloop
    as (Hg & Hl1 & Hc & Hnd' & HQ').
  - exists casted, h1. repeat (split; [assumption|]).
    fold opts in Hres. rewrite Hl1 in Hres. simpl in Hres.
    destruct (rewriteFields opts).
    + destruct Hres as (Ha & -> & ->).
      apply assign_props_Plain in Ha as ->. auto.
    + destruct Hres as (Ha & -> & ->).
      destruct (assign_props (Plain []) fields) as [o1|] eqn:Ha1;
        simpl in Ha; [|discriminate].
      apply assign_props_Plain in Ha1 as ->.
      rewrite overlay_copy in Ha by exact Hnd.
      apply assign_props_Plain in Ha as ->. auto.
  - intros k f. apply deep_casters_frames.
  - apply region_below, Hwf.
  - eapply below_not_self; eauto.
  - exact Hl.
  - intros h'' Hg. eapply below_castable; eauto.
  - intros key c hi c' hi' Hin Hg Hli Hturn Hshape [Hndc HQc]. split.
    + destruct Hshape as [->|(v & -> & _)]; [exact Hndc|].
      apply assoc_set_NoDup, Hndc.
    + eapply Hstep; eauto.
  - split; [constructor | exact HQ].
Qed.

Lemma cast_fields_record deep opts l fields h :
  h !! l = Some (Plain fields) →
  cast_fields deep opts (VObject l) h
  = foldM (cast_key deep opts (VObject l)) fields.*1 [] h.
Proof.
  intros Hl. unfold cast_fields, enumerate, read, bind, ret.
  rewrite Hl. reflexivity.
Qed.

(** What one turn of the loop does to [casted], in any store: nothing, or
    one value stored under the key of the turn, a key the schema gate let
    through. *)
Lemma cast_key_turn deep opts obj c key h c' h' :
  cast_key deep opts obj c key h = Ok c' h' →
  c' = c ∨ ∃ v, c' = assoc_set key v c ∧ schema_gate opts key = false.
Proof.
  intros H. unfold cast_key in H. inv_M H.
  destruct (negb (truthy a)); [inv_M H; auto|].
  destruct (schema_gate opts key); [inv_M H; auto|].
  inv_M H.
  destruct a0; [apply store_Ok in H as [-> _]; eauto|].
  destruct (if is_object_type a then deep key else None).
  { inv_M H. destruct a0.
    - inv_M H. inv_M H. apply store_Ok in H as [-> _]. eauto.
    - inv_M H. apply store_Ok in H as [-> _]. eauto. }
  destruct (_ && negb (key_in key c)); [|inv_M H; auto].
  destruct (schema_lookup opts key) as [[b|toType]|];
    [inv_M H; auto| |inv_M H; auto].
  inv_M H. destruct a0; [apply store_Ok in H as [-> _]; eauto | inv_M H; auto].
Qed.

(** The loop, with an invariant [Q] of the caller's choice on [casted]
    that does not depend on the store. *)
Lemma foldM_cast_key_turns deep opts obj (Q : props → Prop) : ∀ keys,
  (∀ key c v, key ∈ keys → schema_gate opts key = false →
              Q c → Q (assoc_set key v c)) →
  ∀ c h c' h',
    Q c → foldM (cast_key deep opts obj) keys c h = Ok c' h' → Q c'.
Proof.
  induction keys as [|key keys IH]; intros Hstep c h c' h' HQ H; simpl in H.
  - inv_M H. exact HQ.
  - inv_M H. eapply IH; [|  |exact H].
    + intros k c0 v Hk. apply Hstep. right. exact Hk.
    + apply cast_key_turn in Hm as [->|(v & -> & Hgate)]; [exact HQ|].
      apply Hstep; [left | exact Hgate | exact HQ].
Qed.

(** [cast] on a plain record that is not written to while the call
    runs.  [Q] is an invariant of the caller's choice on the fields set so
    far. *)
Lemma cast_record_undisturbed (p : Partial) l fields (Q : props → Prop)
    h r h' :
  let opts := resolve_options (Some p) in
  undisturbed h l p →
  h !! l = Some (Plain fields) → NoDup fields.*1 →
  (∀ key c v, key ∈ fields.*1 → schema_gate opts key = false →
              Q c → Q (assoc_set key v c)) →
  Q [] →
  cast (VObject l) (Some p) h = Ok r h' →
  ∃ casted h1,
    h1 !! l = Some (Plain fields) ∧ NoDup casted.*1 ∧ Q casted
    ∧ if rewriteFields opts
      then r = VObject l ∧ h' = <[l := Plain (overlay fields casted)]> h1
      else r = VObject (length h1)
           ∧ h' = (h1 ++ [Plain (overlay fields casted)])%list.
Proof.
  intros opts Hund Hl Hnd Hstep HQ H. simpl in H.
  rewrite cast_partial_unfold in H.
  apply cast_object_inv in H as (casted & h1 & o' & Hloop & Hres).
  fold opts in Hloop, Hres.
  assert (Hl1 : h1 !! l = Some (Plain fields)).
  { destruct Hund as [[Hwf Hacyc]|Hcopies].
    - eapply (cast_fields_top (below h l) _ _ l (Plain fields) (λ _, True))
        in Hloop as (_ & Hl1 & _); eauto.
      + intros k f. apply deep_casters_frames.
      + apply region_below, Hwf.
      + eapply below_not_self; eauto.
      + intros h'' Hg. eapply below_castable; eauto.
    - rewrite (cast_fields_record _ _ _ _ _ Hl) in Hloop.
      apply foldM_cast_key_prefix in Hloop;
        [|apply deep_casters_prefix, Hcopies].
      eapply prefix_lookup_Some; eauto. }
  rewrite (cast_fields_record _ _ _ _ _ Hl) in Hloop.
  apply (foldM_cast_key_turns _ _ _ (λ c, NoDup c.*1 ∧ Q c)) in Hloop
    as [Hndc HQc].
  2:{ intros key c v Hin Hgate [Hndc HQc]. split.
      - apply assoc_set_NoDup, Hndc.
      - apply Hstep; auto. }
  2:{ split; [constructor | exact HQ]. }
  exists casted, h1. split; [exact Hl1|]. split; [exact Hndc|].
  split; [exact HQc|].
  rewrite Hl1 in Hres. simpl in Hres.
  destruct (rewriteFields opts).
  - destruct Hres as (Ha & -> & ->).
    apply assign_props_Plain in Ha as ->. auto.
  - destruct Hres as (Ha & -> & ->).
    destruct (assign_props (Plain []) fields) as [o1|] eqn:Ha1;
      simpl in Ha; [|discriminate].
    apply assign_props_Plain in Ha1 as ->.
    rewrite overlay_copy in Ha by exact Hnd.
    apply assign_props_Plain in Ha as ->. auto.
Qed.

End Records.

(** ** Checking that a record is not part of a cycle *)

Lemma elem_of_refs o b : b ∈ refs o ↔ VObject b ∈ obj_values o.
Proof.
  unfold refs. rewrite list_elem_of_omap. split.
  - intros (v & Hv & Hb). destruct v; try discriminate.
    injection Hb as ->. exact Hv.
  - intros H. exists (VObject b). auto.
Qed.

Lemma refs_within_spec h R a o b :
  refs_within h R a = true → h !! a = Some o →
  VObject b ∈ obj_values o → b ∈ R.
Proof.
  unfold refs_within. intros H Ha Hb. rewrite Ha in H.
  rewrite forallb_forall in H. apply elem_of_refs in Hb.
  apply list_elem_of_In in Hb. specialize (H b Hb).
  apply bool_decide_eq_true in H. exact H.
Qed.

Lemma separates_sound h l R : separates h l R = true → ¬ reach h l l.
Proof.
  unfold separates. intros H.
  apply andb_true_iff in H as [H Hl]. apply andb_true_iff in H as [Hfields Hclosed].
  apply negb_true_iff, bool_decide_eq_false in Hl.
  rewrite forallb_forall in Hclosed.
  assert (Hall : ∀ a b, reach h a b → a = l ∨ a ∈ R → b ∈ R).
  { intros a b Hr. induction Hr as [a o b Ha Hb | a b c _ IH1 _ IH2];
      intros Hstart.
    - destruct Hstart as [Heq|Hin].
      + subst a. exact (refs_within_spec h R l o b Hfields Ha Hb).
      + apply (refs_within_spec h R a o b); [|exact Ha|exact Hb].
        apply Hclosed, list_elem_of_In, Hin.
    - apply IH2. right. apply IH1, Hstart. }
  intros Hr. apply Hl. eapply Hall; eauto.
Qed.

(** ** Fields the schema gate excludes *)

Section Gate.

Context {host : Host}.

(** A field the schema gate excludes is in the returned record with the
    value it had in the input record. *)
Lemma gated_field_unchanged (p : Partial) l fields key h r h' :
  undisturbed h l p →
  h !! l = Some (Plain fields) → NoDup fields.*1 →
  schema_gate (resolve_options (Some p)) key = true →
  cast (VObject l) (Some p) h = Ok r h' →
  ∃ l' fields',
    r = VObject l' ∧ h' !! l' = Some (Plain fields')
    ∧ assoc_get key fields' = assoc_get key fields.
Proof.
  intros Hund Hl Hnd Hgate H.
  eapply (cast_record_undisturbed p l fields (λ c, assoc_get key c = None))
    in H as (casted & h1 & Hl1 & Hndc & Hk & Hres); eauto.
  - assert (Hget : assoc_get key (overlay fields casted) = assoc_get key fields).
    { rewrite assoc_get_overlay by exact Hndc. rewrite Hk. reflexivity. }
    destruct (rewriteFields _).
    + destruct Hres as [-> ->]. exists l, (overlay fields casted).
      split; [reflexivity|]. split; [|exact Hget].
      apply list_lookup_insert_eq. eapply lookup_lt_Some; eauto.
    + destruct Hres as [-> ->]. exists (length h1), (overlay fields casted).
      split; [reflexivity|]. split; [|exact Hget].
      apply list_lookup_middle. reflexivity.
  - intros key' c v _ Hgate' Hc.
    rewrite assoc_get_set_ne; [exact Hc|]. intros ->. congruence.
Qed.

(** C5, amended.  A field that the schema maps to [false] is in the
    returned record with the value (same primitive, same reference) it had
    in the input record, whatever the toggles, the other schema entries
    and the nested configurations are, for a record that is not written
    to while the call runs: no chain of references leads from the record
    back to it, in a store without dangling references, or no nested
    configuration sets [rewriteFields].  The record is a plain record with
    distinct keys, none of them [__proto__]. *)
Theorem schema_false_field_unchanged (p : Partial) sch l fields key h r h' :
  undisturbed h l p →
  h !! l = Some (Plain fields) → NoDup fields.*1 →
  "__proto__" ∉ fields.*1 →
  p_schema p = Some sch → assoc_get key sch = Some (SFlag false) →
  cast (VObject l) (Some p) h = Ok r h' →
  ∃ l' fields',
    r = VObject l' ∧ h' !! l' = Some (Plain fields')
    ∧ assoc_get key fields' = assoc_get key fields.
Proof.
  intros Hund Hl Hnd _ Hsch Hkey H.
  eapply gated_field_unchanged; eauto.
  unfold schema_gate. rewrite resolve_options_schema, Hsch, Hkey. reflexivity.
Qed.

(** C4, amended.  With a schema in the configuration and [onlySchema]
    true, a field that is absent from the schema and whose name is not the
    name of a member of [Object.prototype] is in the returned record with
    the value it had in the input record, whatever the toggles are, for a
    record that is not written to while the call runs: no chain of
    references leads from the record back to it, in a store without
    dangling references, or no nested configuration sets [rewriteFields].
    The record is a plain record with distinct keys, none of them
    [__proto__]. *)
Theorem onlySchema_absent_field_unchanged
    (p : Partial) sch l fields key h r h' :
  undisturbed h l p →
  h !! l = Some (Plain fields) → NoDup fields.*1 →
  "__proto__" ∉ fields.*1 →
  p_schema p = Some sch → p_onlySchema p = Some true →
  assoc_get key sch = None → inherited key = false →
  cast (VObject l) (Some p) h = Ok r h' →
  ∃ l' fields',
    r = VObject l' ∧ h' !! l' = Some (Plain fields')
    ∧ assoc_get key fields' = assoc_get key fields.
Proof.
  intros Hund Hl Hnd _ Hsch Honly Hkey Hinh H.
  eapply gated_field_unchanged; eauto.
  unfold schema_gate, key_in, assoc_mem.
  rewrite resolve_options_schema, Hsch, Hkey, resolve_options_onlySchema, Honly,
    Hinh.
  reflexivity.
Qed.

End Gate.

(** C5 as stated fails on a record that holds itself.  The record at 0
    holds itself under [self]; the nested configuration for [self] rewrites
    the record it is handed, which is the record being cast, so the field
    [n], which the schema maps to [false], is the number 5 in the
    result. *)
Lemma schema_false_cyclic_counterexample :
  let h := [Plain [("n", VString "5"); ("self", VObject 0)]] in
  let h' := [ Plain [("n", VNumber (Finite 5 0)); ("self", VObject 0)];
              Plain [("n", VNumber (Finite 5 0)); ("self", VObject 0)] ] in
  let p := Scenario.skip_n_deep_self in
  p_schema p ≫= assoc_get "n" = Some (SFlag false)
  ∧ field_of h (VObject 0) "n" = Some (VString "5")
  ∧ cast (host := Scenario.host) (VObject 0) (Some p) h = Ok (VObject 1) h'
  ∧ field_of h' (VObject 1) "n" = Some (VNumber (Finite 5 0)).
Proof. repeat split; vm_compute; reflexivity. Qed.

Lemma schema_false_field_unchanged_witness :
  let h := [Plain [("note", VString "hello")]] in
  let p := Scenario.numbers_with_schema None [("note", SFlag false)] in
  cast (host := Scenario.host) (VObject 0) (Some p) h
  = Ok (VObject 1) [Plain [("note", VString "hello")];
                    Plain [("note", VString "hello")]]
  ∧ ∃ l' fields',
      VObject 1 = VObject l'
      ∧ [Plain [("note", VString "hello")];
         Plain [("note", VString "hello")]] !! l' = Some (Plain fields')
      ∧ assoc_get "note" fields' = Some (VString "hello").
Proof.
  split; [reflexivity|].
  apply (schema_false_field_unchanged (host := Scenario.host)
           (Scenario.numbers_with_schema None [("note", SFlag false)])
           [("note", SFlag false)] 0 [("note", VString "hello")] "note"
           [Plain [("note", VString "hello")]]).
  - left. split; [repeat constructor|].
    apply (separates_sound _ _ []). reflexivity.
  - reflexivity.
  - apply (bool_decide_unpack _). reflexivity.
  - apply (bool_decide_unpack _). reflexivity.
  - reflexivity.
  - reflexivity.
  - reflexivity.
Defined.

(** C4 as stated fails without a schema: the condition is only consulted when
    [opts.schema] is set, so [{id: '123'}] cast with
    [{onlySchema: true, stringsToNumbers: true}] returns [id] as the number
    123 although [id] is in no schema. *)
Lemma onlySchema_without_schema_counterexample :
  let h := [Plain [("id", VString "123")]] in
  let p := Scenario.onlySchema_numbers in
  onlySchema (resolve_options (Some p)) = true
  ∧ p_schema p ≫= assoc_get "id" = None
  ∧ cast (host := Scenario.host) (VObject 0) (Some p) h
    = Ok (VObject 1) [Plain [("id", VString "123")];
                      Plain [("id", VNumber (Finite 123 0))]]
  ∧ VNumber (Finite 123 0) ≠ VString "123".
Proof.
  repeat split; try reflexivity. discriminate.
Qed.

(** With a schema, [onlySchema] still lets through a field whose name
    is the name of a member of [Object.prototype]:
    [!(key in opts.schema)] is false for [toString], which every schema
    inherits, so [{toString: '5'}] cast with
    [{onlySchema: true, stringsToNumbers: true, schema: {n: true}}] returns
    [toString] as the number 5. *)
Example onlySchema_inherited_key_example :
  let h := [Plain [("toString", VString "5")]] in
  let p := Scenario.numbers_with_schema (Some true) [("n", SFlag true)] in
  p_schema p ≫= assoc_get "toString" = None
  ∧ inherited "toString" = true
  ∧ cast (host := Scenario.host) (VObject 0) (Some p) h
    = Ok (VObject 1) [Plain [("toString", VString "5")];
                      Plain [("toString", VNumber (Finite 5 0))]].
Proof. repeat split; vm_compute; reflexivity. Qed.

Lemma onlySchema_absent_field_unchanged_witness :
  let h := [Plain [("id", VString "123"); ("n", VString "5")]] in
  let p := Scenario.numbers_with_schema (Some true) [("n", SFlag true)] in
  cast (host := Scenario.host) (VObject 0) (Some p) h
  = Ok (VObject 1) [Plain [("id", VString "123"); ("n", VString "5")];
                    Plain [("id", VString "123"); ("n", VNumber (Finite 5 0))]]
  ∧ ∃ l' fields',
      VObject 1 = VObject l'
      ∧ [Plain [("id", VString "123"); ("n", VString "5")];
         Plain [("id", VString "123"); ("n", VNumber (Finite 5 0))]] !! l'
        = Some (Plain fields')
      ∧ assoc_get "id" fields' = Some (VString "123").
Proof.
  split; [reflexivity|].
  apply (onlySchema_absent_field_unchanged (host := Scenario.host)
           (Scenario.numbers_with_schema (Some true) [("n", SFlag true)])
           [("n", SFlag true)] 0
           [("id", VString "123"); ("n", VString "5")] "id"
           [Plain [("id", VString "123"); ("n", VString "5")]]).
  - left. split; [repeat constructor|].
    apply (separates_sound _ _ []). reflexivity.
  - reflexivity.
  - apply (bool_decide_unpack _). reflexivity.
  - apply (bool_decide_unpack _). reflexivity.
  - reflexivity.
  - reflexivity.
  - reflexivity.
  - reflexivity.
  - reflexivity.
Defined.

(** ** Copy or rewrite *)

Section CopyOrRewrite.

Context {host : Host}.


(** The object the caller passed is what a call with [rewriteFields]
    false leaves alone; a nested configuration with its own
    [rewriteFields] rewrites the nested records where they are.  Here the
    record at 0 and the array at 1 are as before, and the two price
    records at 2 and 3 now hold numbers. *)
Example nested_rewrite_example :
  cast (host := Scenario.host) (VObject 0)
    (Some (Scenario.deep_prices Scenario.rewrite_numbers)) Scenario.price_list
  = Ok (VObject 5)
      [ Plain [("prices", VObject 1)];
        Array [VObject 2; VObject 3];
        Plain [("price", VNumber (Finite 12345 (-2)))];
        Plain [("price", VNumber (Finite 23456 (-2)))];
        Array [VObject 2; VObject 3];
        Plain [("prices", VObject 4)] ].
Proof. vm_compute. reflexivity. Qed.

End CopyOrRewrite.



(** ** Casting the output again *)




Section Recast.

Context {host : Host}.

(** A turn of the loop on a field that is falsy, or gated, or that holds
    no string, meets no nested configuration and is left alone by the
    forced conversion, does nothing. *)
Lemma cast_key_inert (deep : string → option (value → M value))
    opts l fields c key v hi :
  hi !! l = Some (Plain fields) → assoc_get key fields = Some v →
  (truthy v = true → schema_gate opts key = false →
   is_string v = false
   ∧ (is_object_type v = true → deep key = None)
   ∧ fallback_idle opts key v = true) →
  cast_key deep opts (VObject l) c key hi = Ok c hi.
Proof.
  intros Hl Hv Hidle. unfold cast_key, get_field, read, bind, ret.
  rewrite Hl. simpl. unfold get_prop. simpl. rewrite Hv. simpl.
  destruct (truthy v) eqn:Ht; [simpl|reflexivity].
  destruct (schema_gate opts key); [reflexivity|].
  destruct Hidle as (Hstr & Hdeep & Hfb); [reflexivity..|].
  unfold fallback_idle, key_in in Hfb. unfold key_in.
  destruct v as [ | |b|n|s|a]; try discriminate Hstr; try discriminate Ht;
    simpl; rewrite ?Hdeep by reflexivity;
    (destruct (inherited key);
     [ rewrite orb_true_r, andb_false_r; reflexivity |]);
    simpl in Hfb; rewrite orb_false_r;
    (destruct (_ && negb _); [|reflexivity]);
    (destruct (schema_lookup opts key) as [[fl|[]]|] eqn:E;
     try discriminate Hfb; reflexivity).
Qed.


Lemma resolve_options_deepCasters p :
  deepCasters (resolve_options (Some p)) = p_deepCasters p.
Proof.
  unfold resolve_options, new_TpsCasterOptions. simpl.
  destruct (default false (p_enableAll p)); simpl;
    destruct (p_deepCasters p); reflexivity.
Qed.

(** A field for which a turn of the loop does nothing comes out of
    [cast] as it went in. *)
Lemma cast_keeps_inert_field (p : Partial) l fields key v h r h' :
  wf_heap h → ¬ reach h l l →
  h !! l = Some (Plain fields) → NoDup fields.*1 →
  assoc_get key fields = Some v → recast_idle p key v = true →
  cast (VObject l) (Some p) h = Ok r h' →
  field_of h' r key = Some v.
Proof.
  intros Hwf Hacyc Hl Hnd Hv Hidle H. simpl in H.
  eapply (cast_record_spec p l fields (λ c, assoc_get key c = None)) in H
    as (casted & h1 & _ & Hg & Hl1 & _ & Hndc & Hk & Hres); eauto.
  - assert (Hget : assoc_get key (overlay fields casted) = Some v).
    { rewrite assoc_get_overlay by exact Hndc. rewrite Hk. exact Hv. }
    destruct (rewriteFields _); destruct Hres as [-> ->]; simpl.
    + rewrite list_lookup_insert_eq by (eapply lookup_lt_Some; eauto).
      exact Hget.
    + rewrite list_lookup_middle by reflexivity. exact Hget.
  - intros key' c hi c' hi' _ _ Hli Hturn Hshape Hc.
    destruct (String.eqb key' key) eqn:E.
    + apply String.eqb_eq in E. subst key'.
      erewrite cast_key_inert in Hturn; eauto.
      * injection Hturn as <- _. exact Hc.
      * intros Ht Hgate. unfold recast_idle in Hidle.
        rewrite Ht, Hgate in Hidle. simpl in Hidle.
        apply andb_true_iff in Hidle as [Hidle Hfb].
        apply andb_true_iff in Hidle as [Hstr Hdeep].
        apply negb_true_iff in Hstr, Hdeep.
        split; [exact Hstr|]. split; [|exact Hfb].
        intros Hobj. rewrite Hobj in Hdeep. simpl in Hdeep.
        apply deep_casters_None, Hdeep.
    + apply String.eqb_neq in E.
      destruct Hshape as [->|(v' & -> & _)]; [exact Hc|].
      rewrite assoc_get_set_ne; auto.
Qed.


End Recast.


(** The cases the condition of C9 sets aside do change: a number under
    the tags [string] and [date], and an object under the tag [string]
    (here the field [o] of the first output is the record at 1, and the
    text that [JSON.stringify] returns for it in the second). *)
Example recast_changes_tagged_field_example :
  let ps := Scenario.numbers_with_schema None [("n", SType T_string)] in
  let pd := Scenario.numbers_with_schema None [("n", SType T_date)] in
  let h := [Plain [("n", VString "5")]] in
  let h1 := [Plain [("n", VString "5")]; Plain [("n", VNumber (Finite 5 0))]] in
  cast (host := JS.printing_host) (VObject 0) (Some ps) h = Ok (VObject 1) h1
  ∧ cast (host := JS.printing_host) (VObject 1) (Some ps) h1
    = Ok (VObject 2) (h1 ++ [Plain [("n", VString "5")]])%list
  ∧ cast (host := JS.printing_host) (VObject 0) (Some pd) h = Ok (VObject 1) h1
  ∧ cast (host := JS.printing_host) (VObject 1) (Some pd) h1
    = Ok (VObject 3) (h1 ++ [DateObj (Some 5%Z); Plain [("n", VObject 2)]])%list.
Proof. repeat split; vm_compute; reflexivity. Qed.


(** ** Nested sequences *)

Lemma foldM_app {A B} (f : B → A → M B) l1 l2 b h b' h' :
  foldM f (l1 ++ l2)%list b h = Ok b' h' ↔
  ∃ b1 h1, foldM f l1 b h = Ok b1 h1 ∧ foldM f l2 b1 h1 = Ok b' h'.
Proof.
  revert b h. induction l1 as [|a l1 IH]; intros b h; simpl.
  - split.
    + intros H. exists b, h. split; [reflexivity | exact H].
    + intros (b1 & h1 & [= <- <-] & H). exact H.
  - split.
    + intros H. inv_M H. apply IH in H as (b1 & h1 & H1 & H2).
      exists b1, h1. split; [|exact H2].
      apply bind_Ok. eauto.
    + intros (b1 & h1 & H1 & H2). inv_M H1.
      apply bind_Ok. eexists _, _. split; [exact Hm|].
      apply IH. eauto.
Qed.

Section Deep.

Context {host : Host}.





End Deep.



(** ** When [cast] does not throw *)

Section Throws.

Context {host : Host}.

Lemma silent_Ok {A} (m : M A) :
  (∀ h, ∃ a h', m h = Ok a h') → silent m.
Proof.
  intros Hm h e h' H. destruct (Hm h) as (a & h1 & Ha). congruence.
Qed.

Lemma silent_ret {A} (a : A) : silent (ret a).
Proof. intros h e h' H. discriminate. Qed.

Lemma silent_outside {A} : silent (outside : M A).
Proof. intros h e h' H. discriminate. Qed.

Lemma silent_bind {A B} (m : M A) (f : A → M B) :
  silent m → (∀ a, silent (f a)) → silent (bind m f).
Proof.
  intros Hm Hf h e h' H. unfold bind in H.
  destruct (m h) as [a h1|e1 h1|] eqn:E.
  - exact (Hf a _ _ _ H).
  - exact (Hm _ _ _ E).
  - discriminate.
Qed.

Lemma silent_read l : silent (read l).
Proof. intros h e h' H. discriminate. Qed.

Lemma silent_alloc o : silent (alloc o).
Proof. intros h e h' H. discriminate. Qed.

Lemma silent_store casted key v : silent (store casted key v).
Proof.
  intros h e h' H. unfold store in H.
  destruct (set_prop (Plain casted) key v) as [[]|]; discriminate.
Qed.

Lemma silent_get_field obj key : silent (get_field obj key).
Proof. destruct obj; intros h e h' H; discriminate. Qed.

Lemma silent_isArray v : silent (isArray v).
Proof. destruct v; intros h e h' H; discriminate. Qed.

Lemma silent_enumerate obj : silent (enumerate obj).
Proof. destruct obj; intros h e h' H; discriminate. Qed.

Lemma silent_castFromString val opts toType :
  silent (_castFromString val opts toType).
Proof. apply silent_Ok. intros h. apply castFromString_returns. Qed.

(** [_castSchemaField] throws only under the tag ['string'], where it
    calls [JSON.stringify]. *)
Lemma silent_castSchemaField val toType opts :
  toType ≠ T_string → silent (_castSchemaField val toType opts).
Proof.
  intros Ht.
  assert (Hneq : schema_type_eqb toType T_string = false)
    by (destruct toType; try reflexivity; contradiction Ht; reflexivity).
  unfold _castSchemaField. rewrite Hneq. apply silent_bind.
  - destruct val; try apply silent_ret. apply silent_castFromString.
  - intros [v|]; [apply silent_ret|].
    destruct val; try apply silent_ret.
    destruct toType; try apply silent_ret.
    apply silent_bind; [apply silent_alloc | intros; apply silent_ret].
Qed.

Lemma silent_mapM {A B} (f : A → M B) :
  (∀ a, silent (f a)) → ∀ l, silent (mapM f l).
Proof.
  intros Hf. induction l as [|a l IH]; simpl; [apply silent_ret|].
  apply silent_bind; [apply Hf|]. intros b.
  apply silent_bind; [exact IH|]. intros bs. apply silent_ret.
Qed.

Lemma silent_foldM {A B} (f : B → A → M B) :
  (∀ b a, silent (f b a)) → ∀ l b, silent (foldM f l b).
Proof.
  intros Hf. induction l as [|a l IH]; intros b; simpl; [apply silent_ret|].
  apply silent_bind; [apply Hf | intros b'; apply IH].
Qed.

Lemma silent_cast_key (deep : string → option (value → M value))
    opts obj casted key :
  (∀ k f, deep k = Some f → ∀ v, silent (f v)) →
  (∀ k, schema_lookup opts k ≠ Some (SType T_string)) →
  silent (cast_key deep opts obj casted key).
Proof.
  intros Hdeep Hsch. unfold cast_key.
  apply silent_bind; [apply silent_get_field|]. intros val.
  destruct (negb (truthy val)); [apply silent_ret|].
  destruct (schema_gate opts key); [apply silent_ret|].
  apply silent_bind.
  { destruct val; try apply silent_ret. apply silent_castFromString. }
  intros [v|]; [apply silent_store|].
  destruct (if is_object_type val then deep key else None) as [f|] eqn:Hf.
  - assert (Hf' : ∀ v, silent (f v)).
    { destruct (is_object_type val); [|discriminate]. eauto. }
    apply silent_bind; [apply silent_isArray|]. intros [elems|].
    + apply silent_bind; [apply silent_mapM, Hf'|]. intros vs.
      apply silent_bind; [apply silent_alloc | intros; apply silent_store].
    + apply silent_bind; [apply Hf' | intros; apply silent_store].
  - destruct (_ && negb _); [|apply silent_ret].
    destruct (schema_lookup opts key) as [[fl|toType]|] eqn:E;
      try apply silent_ret.
    apply silent_bind.
    + apply silent_castSchemaField. intros ->. exact (Hsch key E).
    + intros [v|]; [apply silent_store | apply silent_ret].
Qed.

Lemma silent_cast_with (deep : string → option (value → M value)) opts obj :
  (∀ k f, deep k = Some f → ∀ v, silent (f v)) →
  (∀ k, schema_lookup opts k ≠ Some (SType T_string)) →
  rewriteFields opts = false ∨ obj ≠ VNull →
  silent (cast_with deep opts obj).
Proof.
  intros Hdeep Hsch Hrw. unfold cast_with.
  destruct (negb (is_object_type obj)) eqn:Hobj; [apply silent_ret|].
  apply silent_bind.
  { unfold cast_fields. apply silent_bind; [apply silent_enumerate|].
    intros keys. apply silent_foldM. intros b a.
    apply silent_cast_key; assumption. }
  intros casted. destruct (rewriteFields opts).
  - destruct obj; try discriminate Hobj.
    + destruct Hrw as [Hrw|Hrw]; [discriminate | contradiction Hrw; reflexivity].
    + unfold assign_in_place.
      apply silent_bind; [apply silent_read|]. intros o.
      destruct (assign_props o casted); [|apply silent_outside].
      apply silent_bind; [|intros; apply silent_ret].
      intros h e h' H. discriminate.
  - unfold assign_copy. apply silent_bind.
    + destruct obj; try apply silent_ret.
      apply silent_bind; [apply silent_read | intros; apply silent_ret].
    + intros source.
      destruct (_ ≫= _); [apply silent_alloc | apply silent_outside].
Qed.

Lemma no_string_tag_lookup p k :
  no_string_tag p →
  schema_lookup (resolve_options (Some p)) k ≠ Some (SType T_string).
Proof.
  intros Hp. inversion Hp as [p' Hsch _]; subst.
  unfold schema_lookup. rewrite resolve_options_schema.
  destruct (p_schema p) as [sch|]; simpl; [|discriminate].
  intros E. apply assoc_get_elem_of in E as [k' Hk'].
  rewrite Forall_forall in Hsch. simpl in Hsch.
  exact (Hsch _ Hk' eq_refl).
Qed.

Lemma silent_cast_partial : ∀ p,
  copies_below p → no_string_tag p →
  ∀ v, p_rewriteFields p ≠ Some true ∨ v ≠ VNull → silent (cast_partial p v).
Proof.
  induction p as [p IH] using Partial_nested_ind.
  intros Hcopies Htag v Hrw. rewrite cast_partial_unfold.
  apply silent_cast_with.
  - intros k f Hf. apply deep_casters_Some in Hf as [(k' & q & Hin & ->)| ->].
    + inversion Hcopies as [p' Hall]; subst.
      inversion Htag as [p' _ Hnested]; subst.
      rewrite Forall_forall in IH, Hall, Hnested.
      destruct (Hall _ Hin) as [Hq Hcq]. simpl in Hq, Hcq.
      intros v'. apply (IH _ Hin Hcq (Hnested _ Hin)). left. exact Hq.
    + intros v'. rewrite <- cast_partial_no_options.
      apply silent_cast_with; [discriminate | discriminate | left; reflexivity].
  - intros k. apply no_string_tag_lookup, Htag.
  - destruct Hrw as [Hrw|Hv]; [left | right; exact Hv].
    rewrite resolve_options_rewriteFields.
    destruct (p_rewriteFields p) as [[]|]; try reflexivity.
    contradiction Hrw. reflexivity.
Qed.

(** On a record [cast] does not throw, whatever the configuration at the
    top, when no nested configuration sets [rewriteFields] and no schema
    names the type ['string']. *)
Lemma cast_record_silent (p : Partial) l :
  copies_below p → no_string_tag p → silent (cast (VObject l) (Some p)).
Proof.
  intros Hcopies Htag. apply silent_cast_partial; [assumption..|].
  right. discriminate.
Qed.

End Throws.

(** * Further properties of the code *)

(** ** The guard on the argument *)

Section Guard.

Context {host : Host}.

(** X1.  An argument that is not of type [object] -- [undefined], a
    boolean, a number, a string -- is returned as it is, under every
    configuration (or none), [rewriteFields] included: nothing is
    allocated, nothing is written and nothing is thrown. *)
Theorem cast_non_object_unchanged (v : value) (options : option Partial) h :
  is_object_type v = false → cast v options h = Ok v h.
Proof.
  intros Hv. destruct options as [p|]; simpl.
  - rewrite cast_partial_unfold. unfold cast_with. rewrite Hv. reflexivity.
  - unfold cast_with. rewrite Hv. reflexivity.
Qed.

(** X2.  [cast(null, options)] throws exactly when [rewriteFields] is
    true: then it is a [TypeError], and otherwise a new record is
    returned. *)
Theorem cast_null_throws_iff (p : Partial) h :
  (∃ e h', cast VNull (Some p) h = Throw e h') ↔ p_rewriteFields p = Some true.
Proof.
  split.
  - intros (e & h' & H). simpl in H. rewrite cast_partial_unfold in H.
    unfold cast_with in H. simpl in H.
    rewrite resolve_options_rewriteFields in H.
    destruct (p_rewriteFields p) as [[]|]; simpl in H;
      [reflexivity | discriminate | discriminate].
  - intros Hrw. exists TypeError, h. apply cast_null_rewrite_throws, Hrw.
Qed.

End Guard.

Lemma cast_non_object_unchanged_witness :
  cast (host := Scenario.host) (VString "42") (Some Scenario.rewrite_numbers) []
  = Ok (VString "42") [].
Proof.
  apply (cast_non_object_unchanged (host := Scenario.host)). reflexivity.
Defined.

Lemma cast_null_throws_iff_witness :
  ∃ e h', cast (host := Scenario.host) VNull (Some Scenario.rewrite_only) []
          = Throw e h'.
Proof.
  apply (cast_null_throws_iff (host := Scenario.host) Scenario.rewrite_only []).
  reflexivity.
Defined.

(** ** The options *)

(** X3.  Building options from an instance gives that instance back, and
    so does building them from the fields of what a first resolution
    gave: to resolve twice is to resolve once.  Without an argument the
    constructor gives the field initialisers. *)
Theorem resolve_options_instance (o : TpsCasterOptions)
    (options : option Partial) :
  resolve_options (Some (partial_of_options o)) = o
  ∧ resolve_options (Some (partial_of_options (resolve_options options)))
    = resolve_options options
  ∧ resolve_options None = default_options.
Proof.
  assert (H : ∀ o', resolve_options (Some (partial_of_options o')) = o').
  { intros [ea os rw n mc d re b ob sch dc].
    unfold resolve_options, new_TpsCasterOptions, assign_options; simpl.
    destruct ea, sch, dc; reflexivity. }
  split; [apply H|]. split; [apply H | reflexivity].
Qed.

(** ** What the string heuristics return *)

Section Heuristic_results.

Context {host : Host}.

(** X4.  When the string heuristics return a value, it is a number that
    is not [NaN], or a boolean -- and then the store is as it was -- or a
    reference to an object the call has just allocated: a Date with a
    valid time value, a record or an array.  They never return a string,
    [null], [NaN] or an invalid Date, and they never touch an object that
    was there before. *)
Theorem castFromString_result val opts toType h v h' :
  _castFromString val opts toType h = Ok (Some v) h' →
  h `prefix_of` h'
  ∧ ((∃ n, v = VNumber n ∧ isNaN n = false ∧ h' = h)
     ∨ (∃ b, v = VBoolean b ∧ h' = h)
     ∨ (∃ a, v = VObject a ∧ (length h ≤ a)%nat
             ∧ ((∃ t, h' !! a = Some (DateObj (Some t)))
                ∨ (∃ fields, h' !! a = Some (Plain fields))
                ∨ (∃ elems, h' !! a = Some (Array elems))))).
Proof.
  intros H. split; [eapply castFromString_prefix; eauto|].
  unfold _castFromString in H.
  destruct (try_number val opts toType) as [n|] eqn:En.
  { inv_M H. simplify_eq. left. exists n. split; [reflexivity|].
    split; [|reflexivity].
    unfold try_number in En. destruct (_ || _); [|discriminate].
    destruct (isNaN (js_Number val)) eqn:E; simpl in En; [discriminate|].
    injection En as <-. exact E. }
  destruct (try_date val opts toType) as [t|].
  { inv_M H. inv_M H. apply alloc_prefix in Hm as (_ & -> & Hl).
    simplify_eq. right. right. exists (length h). split; [reflexivity|].
    split; [lia|]. left. eauto. }
  destruct (try_boolean val opts toType) as [b|].
  { inv_M H. simplify_eq. right. left. eauto. }
  destruct (try_object val opts toType) as [j|] eqn:Ej;
    [|inv_M H; discriminate].
  inv_M H. inv_M H. right. right.
  apply alloc_json_compound in Hm.
  apply try_object_compound in Ej as [[elems ->]|[fields ->]];
    destruct Hm as (a0 & x & -> & Hlen & Hl); simplify_eq;
    exists a0; (split; [reflexivity|]); (split; [exact Hlen|]); eauto.
Qed.

(** X5.  A string whose [length] -- the number of its UTF-16 code units
    -- is more than 20 and more than [numberMaxChars] is beyond the
    number, date and boolean toggles: the heuristics, called without a
    forced type, return nothing when [stringsToObjects] is off, and
    otherwise only what [JSON.parse] makes of the string. *)
Theorem castFromString_long_string val opts :
  (20 < js_length val)%nat →
  number_leb (number_of_nat (js_length val)) (numberMaxChars opts) = false →
  _castFromString val opts None
  = match try_object val opts None with
    | Some j => let* obj := alloc_json j in ret (Some obj)
    | None => ret None
    end
  ∧ (stringsToObjects opts = false →
     ∀ h, _castFromString val opts None h = Ok None h).
Proof.
  intros Hlen Hmax.
  assert (Hn : try_number val opts None = None).
  { unfold try_number. rewrite Hmax, andb_false_r. reflexivity. }
  assert (Hd : try_date val opts None = None).
  { unfold try_date.
    replace (js_length val <=? 20)%nat with false
      by (symmetry; apply Nat.leb_gt; lia).
    rewrite andb_false_r. reflexivity. }
  assert (Hb : try_boolean val opts None = None).
  { unfold try_boolean.
    replace (js_length val <=? 5)%nat with false
      by (symmetry; apply Nat.leb_gt; lia).
    rewrite andb_false_r. reflexivity. }
  unfold _castFromString. rewrite Hn, Hd, Hb. split; [reflexivity|].
  intros Hobj h. unfold try_object. rewrite Hobj. reflexivity.
Qed.

End Heuristic_results.

Lemma castFromString_result_witness :
  [] `prefix_of` [DateObj (Some 1609459200000%Z)]
  ∧ ((∃ n, VObject 0 = VNumber n ∧ isNaN n = false
           ∧ [DateObj (Some 1609459200000%Z)] = [])
     ∨ (∃ b, VObject 0 = VBoolean b ∧ [DateObj (Some 1609459200000%Z)] = [])
     ∨ (∃ a, VObject 0 = VObject a ∧ (length (@nil object) ≤ a)%nat
             ∧ ((∃ t, [DateObj (Some 1609459200000%Z)] !! a
                      = Some (DateObj (Some t)))
                ∨ (∃ fields, [DateObj (Some 1609459200000%Z)] !! a
                             = Some (Plain fields))
                ∨ (∃ elems, [DateObj (Some 1609459200000%Z)] !! a
                            = Some (Array elems))))).
Proof.
  apply (castFromString_result (host := Scenario.host) "2021-01-01"
           (resolve_options (Some Scenario.all_four)) None []).
  vm_compute. reflexivity.
Defined.

Lemma castFromString_long_string_witness :
  _castFromString (host := Scenario.host) "123456789012345678901"
    (resolve_options (Some Scenario.numbers_only)) None []
  = Ok None [].
Proof.
  refine (proj2 (castFromString_long_string (host := Scenario.host)
                   "123456789012345678901"
                   (resolve_options (Some Scenario.numbers_only)) _ _) _ []);
    [vm_compute; lia | reflexivity | reflexivity].
Defined.

(** ** One field of a record, from the turn of the loop to the result *)

Section Fields.

Context {host : Host}.

(** The loop on a record, around the turn on the field [key]: the turns
    on the keys [ks1] before it run from [h] to [hk], in which the record
    is as it was and nothing is set under [key]; the turn runs from [hk]
    to [hk']; the turns on the keys [ks2] after it run from [hk'] to [h1]
    and leave what is set under [key] alone; and the result is assembled
    in [h1]. *)
Lemma cast_field_phases (p : Partial) l fields key h r h' :
  let opts := resolve_options (Some p) in
  wf_heap h → ¬ reach h l l →
  h !! l = Some (Plain fields) → NoDup fields.*1 →
  key ∈ fields.*1 →
  cast (VObject l) (Some p) h = Ok r h' →
  ∃ ks1 ks2 c hk c' hk' casted h1,
    foldM (cast_key (deep_casters p) opts (VObject l)) ks1 [] h = Ok c hk
    ∧ grows (below h l) h hk ∧ hk !! l = Some (Plain fields)
    ∧ assoc_get key c = None
    ∧ cast_key (deep_casters p) opts (VObject l) c key hk = Ok c' hk'
    ∧ grows (below h l) hk hk'
    ∧ foldM (cast_key (deep_casters p) opts (VObject l)) ks2 c' hk'
      = Ok casted h1
    ∧ grows (below h l) hk' h1 ∧ h1 !! l = Some (Plain fields)
    ∧ assoc_get key casted = assoc_get key c'
    ∧ NoDup casted.*1
    ∧ if rewriteFields opts
      then r = VObject l ∧ h' = <[l := Plain (overlay fields casted)]> h1
      else r = VObject (length h1)
           ∧ h' = (h1 ++ [Plain (overlay fields casted)])%list.
Proof.
  intros opts Hwf Hacyc Hl Hnd Hin H. simpl in H.
  eapply (cast_record_spec p l fields (λ _, True)) in H
    as (casted & h1 & Hloop & Hg & Hl1 & _ & Hndc & _ & Hres); eauto.
  fold opts in Hloop, Hres.
  rewrite (cast_fields_record _ _ _ _ _ Hl) in Hloop.
  apply list_elem_of_split in Hin as (ks1 & ks2 & Hkeys).
  rewrite Hkeys in Hnd, Hloop.
  apply NoDup_app in Hnd as (_ & Hks1 & Hnd2).
  apply NoDup_cons in Hnd2 as [Hks2 _].
  assert (Hk1 : key ∉ ks1) by (intros Hin; apply (Hks1 _ Hin); left).
  apply foldM_app in Hloop as (c1 & hk & Hphase1 & Hrest).
  simpl in Hrest. inv_M Hrest. rename a into c2, h0 into hk2, Hm into Hturn.
  set (S := below h l).
  assert (Hr : region S h) by (apply region_below, Hwf).
  assert (HnS : ¬ S l) by (intros Hb; exact (below_not_self h l _ Hl Hacyc Hb)).
  assert (Hdeep : ∀ k f, deep_casters p k = Some f → frames S f)
    by (intros k f; apply deep_casters_frames).
  assert (Hch : ∀ h'', grows S h h'' → children_in S h'' (VObject l)).
  { intros h'' Hg''. simpl.
    rewrite (grows_outside _ _ _ _ Hg'') by exact HnS. rewrite Hl.
    eapply below_castable; eauto. }
  (* before the field *)
  pose proof Hphase1 as Hloop1.
  eapply (foldM_cast_key_frame S _ opts (VObject l)
            (λ c _, assoc_get key c = None) h) in Hphase1
    as [Hg1 Hc1]; [ | exact Hdeep | exact Hch | | apply grows_refl, Hr
                  | reflexivity ].
  2:{ intros key' c hi c' hi' Hin' _ _ _ Hshape Hc.
      destruct Hshape as [->|(v & -> & _)]; [exact Hc|].
      rewrite assoc_get_set_ne; [exact Hc|]. intros ->. auto. }
  assert (Hlk : hk !! l = Some (Plain fields))
    by (rewrite (grows_outside _ _ _ _ Hg1) by exact HnS; exact Hl).
  (* the field *)
  pose proof Hturn as Hturn'.
  apply (cast_key_frame S) in Hturn' as [Hgk _];
    [ | exact Hdeep | eapply grows_region; eauto | apply Hch, Hg1 ].
  assert (Hg2 : grows S h hk2) by (eapply grows_trans; eauto).
  (* after the field *)
  pose proof Hrest as Hloop2.
  eapply (foldM_cast_key_frame S _ opts (VObject l)
            (λ c _, assoc_get key c = assoc_get key c2) hk2) in Hrest
    as [Hg3 Hc3]; [ | exact Hdeep | | | apply grows_refl; eapply grows_region; eauto
                  | reflexivity ].
  2:{ intros h'' Hg''. apply Hch. eapply grows_trans; eauto. }
  2:{ intros key' c hi c' hi' Hin' _ _ _ Hshape Hc.
      destruct Hshape as [->|(v & -> & _)]; [exact Hc|].
      rewrite assoc_get_set_ne; [exact Hc|]. intros ->. auto. }
  exists ks1, ks2, c1, hk, c2, hk2, casted, h1.
  repeat (split; [assumption|]). exact Hres.
Qed.

(** The turn of the loop on the field [key] of a record: it starts in
    the store [hk] the turns on the keys [ks] before it left, in which the
    record is as it was, with nothing set under [key] so far, and what it
    sets -- or, when it sets nothing, the value of the input -- is what
    the result holds under [key]. *)
Lemma cast_field_turn_loop (p : Partial) l fields key h r h' :
  let opts := resolve_options (Some p) in
  wf_heap h → ¬ reach h l l →
  h !! l = Some (Plain fields) → NoDup fields.*1 →
  key ∈ fields.*1 →
  cast (VObject l) (Some p) h = Ok r h' →
  ∃ ks c hk c' hk',
    foldM (cast_key (deep_casters p) opts (VObject l)) ks [] h = Ok c hk
    ∧ grows (below h l) h hk ∧ hk !! l = Some (Plain fields)
    ∧ assoc_get key c = None
    ∧ cast_key (deep_casters p) opts (VObject l) c key hk = Ok c' hk'
    ∧ (length hk' ≤ length h')%nat
    ∧ (∀ b t, hk' !! b = Some (DateObj t) → h' !! b = Some (DateObj t))
    ∧ field_of h' r key
      = match assoc_get key c' with
        | Some v => Some v
        | None => assoc_get key fields
        end.
Proof.
  intros opts Hwf Hacyc Hl Hnd Hin H.
  destruct (cast_field_phases p l fields key h r h' Hwf Hacyc Hl Hnd Hin H)
    as (ks1 & ks2 & c1 & hk & c2 & hk2 & casted & h1 & Hloop1 & Hg1 & Hlk
        & Hc1 & Hturn & _ & _ & Hg3 & Hl1 & Hc3 & Hndc & Hres).
  fold opts in Hturn, Hres, Hloop1.
  pose proof (grows_length _ _ _ Hg3) as Hlen.
  assert (Hget : assoc_get key (overlay fields casted)
                 = match assoc_get key c2 with
                   | Some v => Some v
                   | None => assoc_get key fields
                   end).
  { rewrite assoc_get_overlay by exact Hndc. rewrite Hc3. reflexivity. }
  assert (Hl1lt : l < length h1) by (eapply lookup_lt_Some; eauto).
  exists ks1, c1, hk, c2, hk2.
  split; [exact Hloop1|]. split; [exact Hg1|]. split; [exact Hlk|].
  split; [exact Hc1|]. split; [exact Hturn|].
  destruct (rewriteFields opts); destruct Hres as [-> ->]; simpl.
  - rewrite length_insert. split; [exact Hlen|]. split.
    + intros b t Hb. rewrite list_lookup_insert_ne.
      * eapply grows_date; eauto.
      * intros ->. apply (grows_date _ _ _ _ _ Hg3) in Hb. congruence.
    + rewrite list_lookup_insert_eq by exact Hl1lt. exact Hget.
  - rewrite length_app. split; [lia|]. split.
    + intros b t Hb. rewrite lookup_app_l.
      * eapply grows_date; eauto.
      * apply lookup_lt_Some in Hb. lia.
    + rewrite list_lookup_middle by reflexivity. exact Hget.
Qed.

Lemma cast_field_turn (p : Partial) l fields key h r h' :
  let opts := resolve_options (Some p) in
  wf_heap h → ¬ reach h l l →
  h !! l = Some (Plain fields) → NoDup fields.*1 →
  key ∈ fields.*1 →
  cast (VObject l) (Some p) h = Ok r h' →
  ∃ c hk c' hk',
    grows (below h l) h hk ∧ hk !! l = Some (Plain fields)
    ∧ assoc_get key c = None
    ∧ cast_key (deep_casters p) opts (VObject l) c key hk = Ok c' hk'
    ∧ (length hk' ≤ length h')%nat
    ∧ (∀ b t, hk' !! b = Some (DateObj t) → h' !! b = Some (DateObj t))
    ∧ field_of h' r key
      = match assoc_get key c' with
        | Some v => Some v
        | None => assoc_get key fields
        end.
Proof.
  intros opts Hwf Hacyc Hl Hnd Hin H.
  destruct (cast_field_turn_loop p l fields key h r h' Hwf Hacyc Hl Hnd Hin H)
    as (ks & c & hk & c' & hk' & _ & Hrest).
  exists c, hk, c', hk'. exact Hrest.
Qed.

Lemma get_field_record l fields key v hk :
  hk !! l = Some (Plain fields) → assoc_get key fields = Some v →
  get_field (VObject l) key hk = Ok v hk.
Proof.
  intros Hl Hv. unfold get_field, read, bind, ret. rewrite Hl. simpl.
  unfold get_prop. simpl. rewrite Hv. reflexivity.
Qed.

Lemma cast_key_unfold (deep : string → option (value → M value))
    opts l fields c key v hk :
  hk !! l = Some (Plain fields) → assoc_get key fields = Some v →
  cast_key deep opts (VObject l) c key hk
  = (if negb (truthy v) then ret c else
     if schema_gate opts key then ret c else
     let* castedVal :=
       match v with
       | VString s => _castFromString s opts None
       | _ => ret None
       end in
     match castedVal with
     | Some v' => store c key v'
     | None =>
     match (if is_object_type v then deep key else None) with
     | Some cast_deep =>
         let* arr := isArray v in
         match arr with
         | Some elems =>
             let* vs := mapM cast_deep elems in
             let* a := alloc (Array vs) in
             store c key a
         | None =>
             let* v' := cast_deep v in
             store c key v'
         end
     | None =>
     if match schema opts with Some sch => key_in key sch | None => false end
        && negb (key_in key c)
     then
       match schema_lookup opts key with
       | Some (SFlag _) => ret c
       | Some (SType toType) =>
           let* castedVal := _castSchemaField v toType opts in
           match castedVal with
           | Some v' => store c key v'
           | None => ret c
           end
       | None => ret c
       end
     else ret c
     end end) hk.
Proof.
  intros Hl Hv. unfold cast_key. unfold bind at 1.
  rewrite (get_field_record _ _ _ _ _ Hl Hv). reflexivity.
Qed.

(** The condition of line 86 for a key that has an own entry in the
    schema and nothing set in [casted] yet: it holds unless the key names
    a member of [Object.prototype]. *)
Lemma fallback_guard opts key (c : props) entry :
  schema_lookup opts key = Some entry → assoc_get key c = None →
  match schema opts with Some sch => key_in key sch | None => false end
  && negb (key_in key c)
  = negb (inherited key).
Proof.
  unfold schema_lookup, key_in, assoc_mem.
  destruct (schema opts) as [sch|]; simpl; [|discriminate].
  intros -> ->. reflexivity.
Qed.

Lemma assoc_get_Some_keys {A} key (v : A) l :
  assoc_get key l = Some v → key ∈ l.*1.
Proof.
  intros Hv. destruct (decide (key ∈ l.*1)) as [Hin|Hnin]; [exact Hin|].
  apply assoc_get_None_keys in Hnin. congruence.
Qed.

Lemma schema_lookup_resolve p key :
  schema_lookup (resolve_options (Some p)) key = p_schema p ≫= assoc_get key.
Proof. unfold schema_lookup. rewrite resolve_options_schema. reflexivity. Qed.

Lemma schema_gate_tagged opts key t :
  schema_lookup opts key = Some (SType t) → schema_gate opts key = false.
Proof.
  unfold schema_lookup, schema_gate, key_in, assoc_mem.
  destruct (schema opts) as [sch|]; simpl.
  - intros ->. simpl. apply andb_false_r.
  - discriminate.
Qed.

(** The objects a turn of the loop allocated are as the turn left them
    when [cast] returns. *)
Lemma cast_field_turn_block (p : Partial) l fields key h r h' :
  let opts := resolve_options (Some p) in
  wf_heap h → ¬ reach h l l →
  h !! l = Some (Plain fields) → NoDup fields.*1 →
  key ∈ fields.*1 →
  cast (VObject l) (Some p) h = Ok r h' →
  ∃ c hk c' hk',
    (length h ≤ length hk)%nat ∧ hk !! l = Some (Plain fields)
    ∧ assoc_get key c = None
    ∧ cast_key (deep_casters p) opts (VObject l) c key hk = Ok c' hk'
    ∧ (∀ b t, hk' !! b = Some (DateObj t) → h' !! b = Some (DateObj t))
    ∧ field_of h' r key
      = match assoc_get key c' with
        | Some v => Some v
        | None => assoc_get key fields
        end
    ∧ (hk `prefix_of` hk' →
       ∀ a, (length hk ≤ a)%nat → (a < length hk')%nat → h' !! a = hk' !! a).
Proof.
  intros opts Hwf Hacyc Hl Hnd Hin H.
  destruct (cast_field_phases p l fields key h r h' Hwf Hacyc Hl Hnd Hin H)
    as (ks1 & ks2 & c1 & hk & c2 & hk2 & casted & h1 & Hloop1 & Hg1 & Hlk
        & Hc1 & Hturn & Hgk & Hloop2 & Hg3 & Hl1 & Hc3 & Hndc & Hres).
  fold opts in Hturn, Hres, Hloop1, Hloop2.
  pose proof (grows_length _ _ _ Hg1) as Hlen1.
  pose proof (grows_length _ _ _ Hgk) as Hlenk.
  pose proof (grows_length _ _ _ Hg3) as Hlen3.
  assert (Hget : assoc_get key (overlay fields casted)
                 = match assoc_get key c2 with
                   | Some v => Some v
                   | None => assoc_get key fields
                   end).
  { rewrite assoc_get_overlay by exact Hndc. rewrite Hc3. reflexivity. }
  assert (Hllt : l < length h) by (eapply lookup_lt_Some; eauto).
  assert (Hl1lt : l < length h1) by (eapply lookup_lt_Some; eauto).
  (* the turns after the field stay away from what the turn allocated *)
  assert (Hblock : hk `prefix_of` hk2 →
            ∀ a, (length hk ≤ a)%nat → (a < length hk2)%nat →
                 h1 !! a = hk2 !! a).
  { intros Hpre a Hge Hlt.
    set (S2 := λ b : loc, (b < length hk)%nat ∨ (length hk2 ≤ b)%nat).
    pose proof (region_wf_heap _ _ (grows_region _ _ _ Hg1)) as Hwfk.
    pose proof (region_wf_heap _ _ (grows_region _ _ _ Hgk)) as Hwfk2.
    assert (Hr2 : region S2 hk2).
    { split.
      - intros b Hb. right. exact Hb.
      - intros x o v Hx Hxv.
        pose proof (wf_heap_lookup _ _ _ _ Hwfk2 Hx Hxv) as Hal.
        destruct v as [ | | | | |b]; auto. simpl in Hal.
        split; [exact Hal|]. intros [Hxlt|Hxge].
        + left. apply lookup_lt_is_Some in Hxlt as [o' Ho'].
          pose proof (prefix_lookup_Some _ _ _ _ Ho' Hpre) as Ho2.
          rewrite Hx in Ho2. injection Ho2 as ->.
          exact (wf_heap_lookup _ _ _ _ Hwfk Ho' Hxv).
        + apply lookup_lt_Some in Hx. lia. }
    eapply (foldM_cast_key_frame S2 _ opts (VObject l) (λ _ _, True) hk2)
      in Hloop2 as [Hg2 _].
    - apply (grows_outside _ _ _ _ Hg2). unfold S2. lia.
    - intros k f. apply deep_casters_frames.
    - intros h'' Hg''. apply children_in_region; [eapply grows_region; eauto|].
      pose proof (grows_length _ _ _ Hg'') as Hlen''.
      simpl. unfold S2. split; lia.
    - auto.
    - apply grows_refl, Hr2.
    - exact I. }
  exists c1, hk, c2, hk2.
  split; [exact Hlen1|]. split; [exact Hlk|]. split; [exact Hc1|].
  split; [exact Hturn|].
  destruct (rewriteFields opts); destruct Hres as [-> ->]; simpl.
  - split; [|split].
    + intros b t Hb. rewrite list_lookup_insert_ne.
      * eapply grows_date; eauto.
      * intros ->. apply (grows_date _ _ _ _ _ Hg3) in Hb. congruence.
    + rewrite list_lookup_insert_eq by exact Hl1lt. exact Hget.
    + intros Hpre a Hge Hlt. rewrite list_lookup_insert_ne by lia.
      apply Hblock; assumption.
  - split; [|split].
    + intros b t Hb. rewrite lookup_app_l.
      * eapply grows_date; eauto.
      * apply lookup_lt_Some in Hb. lia.
    + rewrite list_lookup_middle by reflexivity. exact Hget.
    + intros Hpre a Hge Hlt. rewrite lookup_app_l by lia.
      apply Hblock; assumption.
Qed.


(** X7.  For a record outside every cycle, in a store without dangling
    references, without an own key [__proto__], on which [cast] returns: a
    field that holds a number other than [0] and [NaN], under a key that
    is not the name of a member of [Object.prototype] and to which the
    schema gives a type tag: with ['boolean'] the result holds [true],
    with ['string'] the text of the number, with ['date'] a new Date whose
    time value is the number clipped as [new Date(n)] does; with
    ['number'] and ['object'] the number stays.  Toggles and nested
    configurations play no part.  (Under a key such as [constructor] or
    [valueOf] the condition [!(key in casted)] of line 86 fails, and the
    number stays whatever the tag.) *)
Theorem number_field_schema_cast (p : Partial) l fields key n t h r h' :
  wf_heap h → ¬ reach h l l →
  h !! l = Some (Plain fields) → NoDup fields.*1 →
  "__proto__" ∉ fields.*1 →
  assoc_get key fields = Some (VNumber n) → number_truthy n = true →
  p_schema p ≫= assoc_get key = Some (SType t) →
  inherited key = false →
  cast (VObject l) (Some p) h = Ok r h' →
  match t with
  | T_boolean => field_of h' r key = Some (VBoolean true)
  | T_string => field_of h' r key = Some (VString (js_Number_toString n))
  | T_date =>
      ∃ a, field_of h' r key = Some (VObject a) ∧ h !! a = None
           ∧ h' !! a = Some (DateObj (time_clip n))
  | T_number | T_object => field_of h' r key = Some (VNumber n)
  end.
Proof.
  intros Hwf Hacyc Hl Hnd _ Hv Htruthy Hsch Hinh H.
  destruct (cast_field_turn p l fields key h r h' Hwf Hacyc Hl Hnd
              (assoc_get_Some_keys _ _ _ Hv) H)
    as (c & hk & c' & hk' & Hg & Hlk & Hc & Hturn & Hlen & Hdate & ->).
  rewrite <- schema_lookup_resolve in Hsch.
  rewrite (cast_key_unfold _ _ _ _ _ _ _ _ Hlk Hv) in Hturn.
  simpl in Hturn. rewrite Htruthy in Hturn. simpl in Hturn.
  rewrite (schema_gate_tagged _ _ _ Hsch) in Hturn.
  rewrite (fallback_guard _ _ _ _ Hsch Hc), Hinh, Hsch in Hturn.
  simpl in Hturn.
  pose proof (grows_length _ _ _ Hg) as Hlenk.
  assert (Hkey : key ≠ "__proto__")
    by (intros ->; vm_compute in Hinh; discriminate).
  unfold _castSchemaField, bind, ret, alloc in Hturn.
  destruct t; simpl in Hturn;
    rewrite ?(store_returns _ _ _ _ Hkey) in Hturn; injection Hturn as <- <-;
    rewrite ?assoc_get_set_eq, ?Hc, ?Htruthy; try reflexivity; try exact Hv.
  exists (length hk). split; [reflexivity|].
  split; [apply lookup_ge_None_2; lia|].
  apply Hdate. apply list_lookup_middle. reflexivity.
Qed.

End Fields.


Lemma number_field_schema_cast_witness :
  field_of
    [Plain [("active", VNumber (Finite 1 0))];
     Plain [("active", VBoolean true)]]
    (VObject 1) "active"
  = Some (VBoolean true).
Proof.
  apply (number_field_schema_cast (host := Scenario.host)
           (Scenario.numbers_with_schema None [("active", SType T_boolean)])
           0 [("active", VNumber (Finite 1 0))] "active"
           (Finite 1 0) T_boolean
           [Plain [("active", VNumber (Finite 1 0))]]).
  - repeat constructor.
  - apply (separates_sound _ _ []). reflexivity.
  - reflexivity.
  - apply (bool_decide_unpack _). reflexivity.
  - apply (bool_decide_unpack _). reflexivity.
  - reflexivity.
  - reflexivity.
  - reflexivity.
  - reflexivity.
  - reflexivity.
Defined.

(** ** String fields *)

Section String_fields.

Context {host : Host}.

Lemma materialise_Some hz pr hk v hk' :
  materialise (Some (hz, pr)) hk = Ok v hk' → ∃ v', v = Some v'.
Proof.
  destruct pr; simpl; intros H; inv_M H; try inv_M H; eauto.
Qed.

(** A parse stored under [key] by the turn of the loop that ran from
    [hk] to [hk'] is what the result holds there. *)
Lemma stored_parse h hk hk' h' r key hz pr v :
  (length h ≤ length hk)%nat →
  (∀ b t, hk' !! b = Some (DateObj t) → h' !! b = Some (DateObj t)) →
  (hk `prefix_of` hk' →
   ∀ a, (length hk ≤ a)%nat → (a < length hk')%nat → h' !! a = hk' !! a) →
  materialise (Some (hz, pr)) hk = Ok (Some v) hk' →
  field_of h' r key = Some v →
  holds_parsed h h' r key pr.
Proof.
  intros Hlen Hdate Hblock Hm Hf.
  destruct pr as [n|t|b|j]; simpl in Hm; simpl.
  - inv_M Hm. simplify_eq. exact Hf.
  - inv_M Hm. inv_M Hm. apply alloc_prefix in Hm0 as (_ & -> & Hl).
    simplify_eq. exists (length hk).
    split; [exact Hf|]. split; [apply lookup_ge_None_2; lia|].
    apply Hdate, Hl.
  - inv_M Hm. simplify_eq. exact Hf.
  - inv_M Hm. inv_M Hm. simplify_eq.
    exists hk, v, hk'. split; [exact Hlen|]. split; [exact Hm0|].
    split; [exact Hf|]. apply Hblock. eapply alloc_json_prefix; eauto.
Qed.

(** [_castSchemaField] on a string: nothing under the tag ['string'],
    and otherwise the heuristics with the type forced. *)
Lemma castSchemaField_string val t opts h :
  _castSchemaField (VString val) t opts h
  = if schema_type_eqb t T_string then Ok None h
    else materialise (first_success priority_order val opts (Some t)) h.
Proof.
  unfold _castSchemaField.
  destruct (schema_type_eqb t T_string); simpl; [reflexivity|].
  rewrite castFromString_first_success. unfold bind.
  destruct (materialise _ h) as [[v|] h1|e h1|]; reflexivity.
Qed.

(** The turn of the loop on a field that holds a non-empty string and
    that the schema gate lets through: it stores what [field_parse]
    names, and nothing when that is nothing. *)
Lemma cast_key_string (deep : string → option (value → M value))
    opts l fields c key val hk c' hk' :
  hk !! l = Some (Plain fields) →
  assoc_get key fields = Some (VString val) → val ≠ "" →
  schema_gate opts key = false → assoc_get key c = None →
  cast_key deep opts (VObject l) c key hk = Ok c' hk' →
  match field_parse opts key val with
  | Some (hz, pr) =>
      ∃ v, materialise (Some (hz, pr)) hk = Ok (Some v) hk'
           ∧ c' = assoc_set key v c
  | None => c' = c ∧ hk' = hk
  end.
Proof.
  intros Hlk Hv Hne Hgate Hc Hturn.
  rewrite (cast_key_unfold _ _ _ _ _ _ _ _ Hlk Hv) in Hturn.
  assert (Ht : truthy (VString val) = true).
  { simpl. apply negb_true_iff, String.eqb_neq, Hne. }
  rewrite Ht, Hgate in Hturn. simpl in Hturn.
  rewrite castFromString_first_success in Hturn.
  unfold field_parse.
  destruct (first_success priority_order val opts None) as [[hz pr]|] eqn:Hfs.
  { inv_M Hturn. destruct (materialise_Some _ _ _ _ _ Hm) as [v' ->].
    apply store_Ok in Hturn as [-> ->]. exists v'. auto. }
  simpl in Hturn. unfold bind at 1, ret at 1 in Hturn.
  destruct (schema_lookup opts key) as [[fl|t]|] eqn:Hsch.
  - rewrite (fallback_guard _ _ _ _ Hsch Hc) in Hturn.
    destruct (negb (inherited key)); inv_M Hturn; auto.
  - rewrite (fallback_guard _ _ _ _ Hsch Hc) in Hturn.
    destruct (inherited key); simpl in Hturn;
      rewrite ?orb_true_l, ?orb_false_l; [inv_M Hturn; auto|].
    unfold bind in Hturn. rewrite castSchemaField_string in Hturn.
    destruct (schema_type_eqb t T_string); [inv_M Hturn; auto|].
    destruct (first_success priority_order val opts (Some t))
      as [[hz pr]|] eqn:Hfs'.
    + destruct (materialise (Some (hz, pr)) hk) as [v h1|e h1|] eqn:Hm;
        try discriminate.
      destruct (materialise_Some _ _ _ _ _ Hm) as [v' ->].
      apply store_Ok in Hturn as [-> ->]. exists v'. auto.
    + simpl in Hturn. inv_M Hturn. auto.
  - destruct (_ && negb _); inv_M Hturn; auto.
Qed.

(** A field that holds a non-empty string and that the schema gate lets
    through holds in the result what [field_parse] names, and the string
    when that is nothing. *)
Lemma string_field_parse (p : Partial) l fields key val h r h' :
  let opts := resolve_options (Some p) in
  wf_heap h → ¬ reach h l l →
  h !! l = Some (Plain fields) → NoDup fields.*1 →
  assoc_get key fields = Some (VString val) → val ≠ "" →
  schema_gate opts key = false →
  cast (VObject l) (Some p) h = Ok r h' →
  match field_parse opts key val with
  | Some (hz, pr) => holds_parsed h h' r key pr
  | None => field_of h' r key = Some (VString val)
  end.
Proof.
  intros opts Hwf Hacyc Hl Hnd Hv Hne Hgate H.
  destruct (cast_field_turn_block p l fields key h r h' Hwf Hacyc Hl Hnd
              (assoc_get_Some_keys _ _ _ Hv) H)
    as (c & hk & c' & hk' & Hlen & Hlk & Hc & Hturn & Hdate & Hf & Hblock).
  fold opts in Hturn.
  apply (cast_key_string _ _ _ _ _ _ _ _ _ _ Hlk Hv Hne Hgate Hc) in Hturn.
  destruct (field_parse opts key val) as [[hz pr]|].
  - destruct Hturn as (v & Hm & ->). rewrite assoc_get_set_eq in Hf.
    eapply stored_parse; eauto.
  - destruct Hturn as [-> ->]. rewrite Hc in Hf. rewrite Hf. exact Hv.
Qed.


(** X8.  For a record outside every cycle, in a store without dangling
    references, without an own key [__proto__], on which [cast] returns: a
    field that holds a non-empty string, under a key the schema gate lets
    through: when one of the heuristics the toggles enable parses the
    string, the result holds that parse under the key -- the first in the
    order number, date, boolean, object; for a JSON text, the objects
    [alloc_json] builds for the parsed JSON.  The type the schema names
    for the key is not consulted: a numeric string under the tag
    ['string'] becomes a number when [stringsToNumbers] is on. *)
Theorem string_field_heuristic (p : Partial) l fields key s hz pr h r h' :
  let opts := resolve_options (Some p) in
  wf_heap h → ¬ reach h l l →
  h !! l = Some (Plain fields) → NoDup fields.*1 →
  "__proto__" ∉ fields.*1 →
  assoc_get key fields = Some (VString s) → s ≠ "" →
  schema_gate opts key = false →
  first_success priority_order s opts None = Some (hz, pr) →
  cast (VObject l) (Some p) h = Ok r h' →
  holds_parsed h h' r key pr.
Proof.
  intros opts Hwf Hacyc Hl Hnd _ Hv Hne Hgate Hfs H.
  pose proof (string_field_parse p l fields key s h r h'
                Hwf Hacyc Hl Hnd Hv Hne Hgate H) as Hp.
  fold opts in Hp. unfold field_parse in Hp. rewrite Hfs in Hp. exact Hp.
Qed.

(** X9.  For a record outside every cycle, in a store without dangling
    references, without an own key [__proto__], on which [cast] returns: a
    field that holds a string no heuristic parses comes out as it went
    in: neither a toggle-enabled heuristic parses it, nor -- when the
    schema names a type other than ['string'] for the key, and the key is
    not the name of a member of [Object.prototype] -- a heuristic forced
    by that type.  A nested configuration registered under the key plays
    no part, since the field holds no object. *)
Theorem string_field_unparsed (p : Partial) l fields key s h r h' :
  let opts := resolve_options (Some p) in
  wf_heap h → ¬ reach h l l →
  h !! l = Some (Plain fields) → NoDup fields.*1 →
  "__proto__" ∉ fields.*1 →
  assoc_get key fields = Some (VString s) →
  first_success priority_order s opts None = None →
  (∀ t, p_schema p ≫= assoc_get key = Some (SType t) →
        inherited key = true ∨ t = T_string
        ∨ first_success priority_order s opts (Some t) = None) →
  cast (VObject l) (Some p) h = Ok r h' →
  field_of h' r key = Some (VString s).
Proof.
  intros opts Hwf Hacyc Hl Hnd _ Hv Hfs Hforced H.
  destruct (cast_field_turn p l fields key h r h' Hwf Hacyc Hl Hnd
              (assoc_get_Some_keys _ _ _ Hv) H)
    as (c & hk & c' & hk' & Hg & Hlk & Hc & Hturn & Hlen & Hdate & ->).
  fold opts in Hturn.
  assert (Hsame : c' = c →
            match assoc_get key c' with
            | Some v => Some v
            | None => assoc_get key fields
            end = Some (VString s)).
  { intros ->. rewrite Hc. exact Hv. }
  apply Hsame.
  destruct (String.eqb s "") eqn:Es.
  { rewrite (cast_key_unfold _ _ _ _ _ _ _ _ Hlk Hv) in Hturn.
    simpl in Hturn. rewrite Es in Hturn. simpl in Hturn.
    inv_M Hturn. reflexivity. }
  apply String.eqb_neq in Es.
  destruct (schema_gate opts key) eqn:Hgate.
  { rewrite (cast_key_unfold _ _ _ _ _ _ _ _ Hlk Hv) in Hturn.
    rewrite Hgate in Hturn.
    destruct (negb (truthy (VString s))); inv_M Hturn; reflexivity. }
  apply (cast_key_string _ _ _ _ _ _ _ _ _ _ Hlk Hv Es Hgate Hc) in Hturn.
  assert (Hnone : field_parse opts key s = None).
  { unfold field_parse. rewrite Hfs.
    destruct (schema_lookup opts key) as [[fl|t]|] eqn:Hsch; try reflexivity.
    unfold opts in Hsch. rewrite schema_lookup_resolve in Hsch.
    destruct (Hforced t Hsch) as [Hi | [Hs | Hn] ].
    - rewrite Hi. reflexivity.
    - rewrite Hs, orb_true_r. reflexivity.
    - rewrite Hn. destruct (_ || _); reflexivity. }
  rewrite Hnone in Hturn. destruct Hturn as [-> _]. reflexivity.
Qed.

(** X10.  For a record outside every cycle, in a store without dangling
    references, without an own key [__proto__], on which [cast] returns: a
    field that holds a non-empty string the toggle-enabled heuristics do
    not parse, under a key that is not the name of a member of
    [Object.prototype] and for which the schema names a type other than
    ['string']: the heuristic of that type is forced, and when it parses
    the string the result holds the parse.  The length limits of the
    toggles do not apply: under the tag ['number'] a numeric string longer
    than [numberMaxChars] becomes a number. *)
Theorem string_field_schema_forced
    (p : Partial) l fields key s t hz pr h r h' :
  let opts := resolve_options (Some p) in
  wf_heap h → ¬ reach h l l →
  h !! l = Some (Plain fields) → NoDup fields.*1 →
  "__proto__" ∉ fields.*1 →
  assoc_get key fields = Some (VString s) → s ≠ "" →
  first_success priority_order s opts None = None →
  p_schema p ≫= assoc_get key = Some (SType t) → t ≠ T_string →
  inherited key = false →
  first_success priority_order s opts (Some t) = Some (hz, pr) →
  cast (VObject l) (Some p) h = Ok r h' →
  holds_parsed h h' r key pr.
Proof.
  intros opts Hwf Hacyc Hl Hnd _ Hv Hne Hfs Hsch Ht Hinh Hfs' H.
  rewrite <- schema_lookup_resolve in Hsch. fold opts in Hsch.
  pose proof (string_field_parse p l fields key s h r h'
                Hwf Hacyc Hl Hnd Hv Hne (schema_gate_tagged _ _ _ Hsch) H)
    as Hp.
  fold opts in Hp. unfold field_parse in Hp.
  rewrite Hfs, Hsch, Hinh in Hp.
  assert (Hneq : schema_type_eqb t T_string = false)
    by (destruct t; try reflexivity; contradiction Ht; reflexivity).
  rewrite Hneq, Hfs' in Hp. exact Hp.
Qed.

End String_fields.



(** [{data: '{"key":"value"}'}] with the four toggles on: the field comes
    back as the record that the JSON text stands for. *)
Lemma string_field_heuristic_witness :
  let text := "{" ++ Scenario.quoted "key" ++ ":" ++ Scenario.quoted "value"
              ++ "}" in
  let h := [Plain [("data", VString text)]] in
  let h' := [ Plain [("data", VString text)];
              Plain [("key", VString "value")];
              Plain [("data", VObject 1)] ] in
  cast (host := Scenario.host) (VObject 0) (Some Scenario.all_four) h
  = Ok (VObject 2) h'
  ∧ holds_parsed h h' (VObject 2) "data"
      (P_object (JObject [("key", JString "value")])).
Proof.
  split; [vm_compute; reflexivity|].
  apply (string_field_heuristic (host := Scenario.host) Scenario.all_four
           0 [("data", VString ("{" ++ Scenario.quoted "key" ++ ":"
                                  ++ Scenario.quoted "value" ++ "}"))]
           "data"
           ("{" ++ Scenario.quoted "key" ++ ":" ++ Scenario.quoted "value"
            ++ "}")
           H_object).
  - repeat constructor.
  - apply (separates_sound _ _ []). reflexivity.
  - reflexivity.
  - apply (bool_decide_unpack _). reflexivity.
  - apply (bool_decide_unpack _). reflexivity.
  - reflexivity.
  - discriminate.
  - reflexivity.
  - vm_compute. reflexivity.
  - vm_compute. reflexivity.
Defined.

Lemma string_field_unparsed_witness :
  field_of
    [Plain [("note", VString "hello")]; Plain [("note", VString "hello")]]
    (VObject 1) "note"
  = Some (VString "hello").
Proof.
  apply (string_field_unparsed (host := Scenario.host)
           (Scenario.numbers_with_schema None [("note", SType T_number)])
           0 [("note", VString "hello")] "note" "hello"
           [Plain [("note", VString "hello")]]).
  - repeat constructor.
  - apply (separates_sound _ _ []). reflexivity.
  - reflexivity.
  - apply (bool_decide_unpack _). reflexivity.
  - apply (bool_decide_unpack _). reflexivity.
  - reflexivity.
  - reflexivity.
  - intros t [= <-]. right. right. reflexivity.
  - reflexivity.
Defined.

Lemma string_field_schema_forced_witness :
  holds_parsed
    [Plain [("n", VString "123456789012")]]
    [Plain [("n", VString "123456789012")];
     Plain [("n", VNumber (Finite 123456789012 0))]]
    (VObject 1) "n" (P_number (Finite 123456789012 0)).
Proof.
  apply (string_field_schema_forced (host := Scenario.host)
           (Scenario.numbers_with_schema None [("n", SType T_number)])
           0 [("n", VString "123456789012")] "n" "123456789012"
           T_number H_number).
  - repeat constructor.
  - apply (separates_sound _ _ []). reflexivity.
  - reflexivity.
  - apply (bool_decide_unpack _). reflexivity.
  - apply (bool_decide_unpack _). reflexivity.
  - reflexivity.
  - discriminate.
  - reflexivity.
  - reflexivity.
  - discriminate.
  - reflexivity.
  - reflexivity.
  - reflexivity.
Defined.

(** ** The store, for any argument and any configuration *)

Section Store.

Context {host : Host}.

Lemma cast_frames (S : loc → Prop) options :
  frames S (λ v, cast v options).
Proof.
  destruct options as [p|]; simpl.
  - apply cast_partial_frames.
  - apply cast_with_frames. discriminate.
Qed.

(** What a call on [v] in the store [h] may touch: the object [v] refers
    to, the objects references lead to from there, and every location
    still to be allocated. *)
Lemma region_reachable v h :
  wf_heap h →
  region (λ a, (length h ≤ a)%nat
               ∨ ∃ l, v = VObject l ∧ (a = l ∨ reach h l a)) h.
Proof.
  intros Hwf. split.
  - intros a Ha. left. exact Ha.
  - intros a o w Ha Hw.
    pose proof (wf_heap_lookup _ _ _ _ Hwf Ha Hw) as Hal.
    destruct w as [ | | | | |b]; auto. simpl in Hal. split; [exact Hal|].
    intros [Hge|(l & -> & [->|Hr])].
    + apply lookup_lt_Some in Ha. lia.
    + right. exists l. split; [reflexivity|]. right.
      eapply reach_field; eauto.
    + right. exists l. split; [reflexivity|]. right.
      eapply reach_trans; [exact Hr|]. eapply reach_field; eauto.
Qed.

(** X11.  In a store without dangling references, for any argument and
    any configuration, a call of [cast] that returns leaves a store
    without dangling references that is at least as long, returns a value
    that exists in it, leaves every Date its time value, and leaves every
    object as it was that is neither the argument nor reachable from it
    through references -- also when nested configurations rewrite. *)
Theorem cast_store_invariants
    (v : value) (options : option Partial) h r h' :
  wf_heap h → allocated h v →
  cast v options h = Ok r h' →
  wf_heap h' ∧ (length h ≤ length h')%nat ∧ allocated h' r
  ∧ (∀ b t, h !! b = Some (DateObj t) → h' !! b = Some (DateObj t))
  ∧ (∀ b, (b < length h)%nat → v ≠ VObject b →
          (∀ l, v = VObject l → ¬ reach h l b) →
          h' !! b = h !! b).
Proof.
  intros Hwf Hv H.
  set (S := λ a : loc, (length h ≤ a)%nat
                       ∨ ∃ l, v = VObject l ∧ (a = l ∨ reach h l a)).
  assert (Hr : region S h) by (apply region_reachable, Hwf).
  assert (HvS : val_in S h v).
  { destruct v; simpl; auto. split; [exact Hv|].
    right. eexists. split; [reflexivity|]. left. reflexivity. }
  destruct (cast_frames S options v h r h' Hr HvS H) as [Hg Hres].
  split; [eapply region_wf_heap, grows_region; eauto|].
  split; [eapply grows_length; eauto|].
  split; [destruct r; simpl; auto; apply Hres|].
  split; [intros b t; eapply grows_date; eauto|].
  intros b Hb Hne Hnr. apply (grows_outside S _ _ _ Hg).
  intros [Hge|(l & -> & [->|Hreach])].
  - lia.
  - apply Hne. reflexivity.
  - eapply Hnr; eauto.
Qed.

End Store.

Lemma cast_store_invariants_witness :
  let h := Scenario.price_list in
  let h' :=
    [ Plain [("prices", VObject 1)]; Array [VObject 2; VObject 3];
      Plain [("price", VNumber (Finite 12345 (-2)))];
      Plain [("price", VNumber (Finite 23456 (-2)))];
      Array [VObject 2; VObject 3]; Plain [("prices", VObject 4)] ] in
  wf_heap h' ∧ (length h ≤ length h')%nat ∧ allocated h' (VObject 5)
  ∧ (∀ b t, h !! b = Some (DateObj t) → h' !! b = Some (DateObj t))
  ∧ (∀ b, (b < length h)%nat → VObject 0 ≠ VObject b →
          (∀ l, VObject 0 = VObject l → ¬ reach h l b) →
          h' !! b = h !! b).
Proof.
  apply (cast_store_invariants (host := Scenario.host) (VObject 0)
           (Some (Scenario.deep_prices Scenario.rewrite_numbers))
           Scenario.price_list).
  - repeat constructor.
  - simpl. lia.
  - vm_compute. reflexivity.
Defined.

(** ** Copying configurations write to no object of the store *)

Section Copies.

Context {host : Host}.

(** X12.  When neither the configuration nor any nested configuration
    below it, at any depth, sets [rewriteFields], a call of [cast] writes
    to no object: the store it leaves is the store it found, followed by
    the objects it allocated.  This holds for any argument, and for a call
    without options. *)
Theorem cast_copy_writes_nothing
    (v : value) (options : option Partial) h r h' :
  match options with
  | Some p => p_rewriteFields p ≠ Some true ∧ copies_below p
  | None => True
  end →
  cast v options h = Ok r h' →
  h `prefix_of` h'.
Proof.
  destruct options as [p|]; simpl.
  - intros [Hrw Hcopies]. apply cast_partial_prefix; assumption.
  - intros _. apply cast_with_prefix; [discriminate | reflexivity].
Qed.

End Copies.

Lemma cast_copy_writes_nothing_witness :
  Scenario.price_list
  `prefix_of`
    (Scenario.price_list
     ++ [ Plain [("price", VNumber (Finite 12345 (-2)))];
          Plain [("price", VNumber (Finite 23456 (-2)))];
          Array [VObject 4; VObject 5];
          Plain [("prices", VObject 6)] ])%list.
Proof.
  apply (cast_copy_writes_nothing (host := Scenario.host) (VObject 0)
           (Some (Scenario.deep_prices Scenario.numbers_only))
           Scenario.price_list (VObject 7)).
  - split; [discriminate|].
    constructor. simpl. constructor; [|constructor].
    split; [discriminate|]. constructor. simpl. constructor.
  - vm_compute. reflexivity.
Defined.

(** ** When [cast] does not throw *)



(** ** The keys of the result *)

Lemma assoc_set_keys_subset {A} key (v : A) l k :
  k ∈ (assoc_set key v l).*1 → k = key ∨ k ∈ l.*1.
Proof.
  induction l as [|[k' w] l IH]; simpl.
  - intros Hk. apply elem_of_cons in Hk as [->|Hk]; [left; reflexivity|].
    inversion Hk.
  - destruct (String.eqb key k') eqn:E; simpl.
    + intros Hk. right. exact Hk.
    + intros Hk. apply elem_of_cons in Hk as [->|Hk].
      * right. left.
      * destruct (IH Hk) as [->|Hin]; [left; reflexivity|].
        right. right. exact Hin.
Qed.

Lemma overlay_keys casted : ∀ fields,
  (∀ k, k ∈ casted.*1 → k ∈ fields.*1) →
  (overlay fields casted).*1 = fields.*1.
Proof.
  unfold overlay.
  induction casted as [|[k v] casted IH]; intros fields Hsub; simpl;
    [reflexivity|].
  assert (Hk : (assoc_set k v fields).*1 = fields.*1).
  { apply assoc_set_keys. unfold assoc_mem.
    destruct (assoc_get k fields) eqn:E; [reflexivity|].
    apply assoc_get_None_keys in E. contradiction E. apply Hsub. left. }
  rewrite IH; [exact Hk|].
  intros k' Hk'. rewrite Hk. apply Hsub. right. exact Hk'.
Qed.

Section Keys.

Context {host : Host}.

(** X14.  For a record outside every cycle, in a store without dangling
    references, without an own key [__proto__], on which [cast] returns:
    the record returned has the keys of the input, in the same order: no
    field is added, dropped or moved, whatever the configuration.  (An own
    key [__proto__], as [JSON.parse] can create, is dropped by the copy
    of line 97, which assigns it through the setter.) *)
Theorem cast_keeps_keys (p : Partial) l fields h r h' :
  wf_heap h → ¬ reach h l l →
  h !! l = Some (Plain fields) → NoDup fields.*1 →
  "__proto__" ∉ fields.*1 →
  cast (VObject l) (Some p) h = Ok r h' →
  ∃ l' fields',
    r = VObject l' ∧ h' !! l' = Some (Plain fields')
    ∧ fields'.*1 = fields.*1.
Proof.
  intros Hwf Hacyc Hl Hnd _ H. simpl in H.
  eapply (cast_record_spec p l fields
            (λ c, ∀ k, k ∈ c.*1 → k ∈ fields.*1)) in H
    as (casted & h1 & _ & _ & Hl1 & _ & _ & Hsub & Hres); eauto.
  - pose proof (overlay_keys casted fields Hsub) as Hkeys.
    assert (Hlt : l < length h1) by (eapply lookup_lt_Some; eauto).
    destruct (rewriteFields _); destruct Hres as [-> ->].
    + exists l, (overlay fields casted). split; [reflexivity|].
      split; [apply list_lookup_insert_eq, Hlt | exact Hkeys].
    + exists (length h1), (overlay fields casted). split; [reflexivity|].
      split; [apply list_lookup_middle; reflexivity | exact Hkeys].
  - intros key c hi c' hi' Hin _ _ _ Hshape Hc k Hk.
    destruct Hshape as [->|(v & -> & _)]; [auto|].
    apply assoc_set_keys_subset in Hk as [->|Hk]; auto.
  - intros k Hk. inversion Hk.
Qed.

(** X15.  For a record outside every cycle, in a store without dangling
    references, without an own key [__proto__], on which [cast] returns: a
    field that holds no string has the same value in the result when no
    step of the loop acts on it ([recast_idle]): the value is falsy, or
    the schema gate excludes the key, or
    - the value is a boolean, or
    - it is a number, and the key names a member of [Object.prototype] or
      the schema's entry for the key is not one of the tags ['boolean'],
      ['string'], ['date'], or
    - it is a Date or another object, the key is not [in
      opts.deepCasters] -- which holds for [constructor], [toString] and
      the like whenever [deepCasters] is set -- and the key names a
      member of [Object.prototype] or the schema's entry for the key is
      not the tag ['string'].
    The toggles play no part. *)
Theorem non_string_field_unchanged (p : Partial) l fields key v h r h' :
  wf_heap h → ¬ reach h l l →
  h !! l = Some (Plain fields) → NoDup fields.*1 →
  "__proto__" ∉ fields.*1 →
  assoc_get key fields = Some v → is_string v = false →
  recast_idle p key v = true →
  cast (VObject l) (Some p) h = Ok r h' →
  field_of h' r key = Some v.
Proof.
  intros Hwf Hacyc Hl Hnd _ Hv _ Hidle H.
  eapply cast_keeps_inert_field; eauto.
Qed.

End Keys.

Lemma cast_keeps_keys_witness :
  ∃ l' fields',
    VObject 1 = VObject l'
    ∧ [Plain [("id", VString "42"); ("n", VNumber (Finite 5 0))];
       Plain [("id", VNumber (Finite 42 0)); ("n", VNumber (Finite 5 0))]]
      !! l' = Some (Plain fields')
    ∧ fields'.*1 = [("id", VString "42"); ("n", VNumber (Finite 5 0))].*1.
Proof.
  apply (cast_keeps_keys (host := Scenario.host) Scenario.numbers_only
           0 [("id", VString "42"); ("n", VNumber (Finite 5 0))]
           [Plain [("id", VString "42"); ("n", VNumber (Finite 5 0))]]).
  - repeat constructor.
  - apply (separates_sound _ _ []). reflexivity.
  - reflexivity.
  - apply (bool_decide_unpack _). reflexivity.
  - apply (bool_decide_unpack _). reflexivity.
  - reflexivity.
Defined.

Lemma non_string_field_unchanged_witness :
  field_of
    [Plain [("id", VString "42"); ("n", VNumber (Finite 5 0))];
     Plain [("id", VNumber (Finite 42 0)); ("n", VNumber (Finite 5 0))]]
    (VObject 1) "n"
  = Some (VNumber (Finite 5 0)).
Proof.
  apply (non_string_field_unchanged (host := Scenario.host)
           Scenario.numbers_only
           0 [("id", VString "42"); ("n", VNumber (Finite 5 0))] "n"
           (VNumber (Finite 5 0))
           [Plain [("id", VString "42"); ("n", VNumber (Finite 5 0))]]).
  - repeat constructor.
  - apply (separates_sound _ _ []). reflexivity.
  - reflexivity.
  - apply (bool_decide_unpack _). reflexivity.
  - apply (bool_decide_unpack _). reflexivity.
  - reflexivity.
  - reflexivity.
  - reflexivity.
  - reflexivity.
Defined.

(** ** A configuration that asks for nothing *)

Lemma own_keys_NoDup (o : object) :
  match o with Plain fields => NoDup fields.*1 | _ => True end →
  NoDup (own_keys o).
Proof.
  destruct o as [fields|elems|t]; unfold own_keys; simpl.
  - auto.
  - intros _. rewrite fmap_imap.
    rewrite (imap_ext _ (λ j _, pretty j)) by reflexivity.
    rewrite imap_seq_0. apply NoDup_fmap_2; [apply _ | apply NoDup_seq].
  - intros _. constructor.
Qed.

(** The decimal numeral of an index starts with a digit. *)
Lemma pretty_N_go_ne_underscore x s s' :
  s ≠ String "_" s' → pretty_N_go x s ≠ String "_" s'.
Proof.
  revert s. induction (N.lt_wf_0 x) as [x _ IH]; intros s Hs.
  assert (x = 0 ∨ 0 < x)%N as [->|Hx] by lia.
  - rewrite pretty_N_go_0. exact Hs.
  - rewrite pretty_N_go_step by exact Hx. apply IH.
    + apply N.div_lt; [exact Hx | reflexivity].
    + unfold pretty_N_char. repeat case_match; discriminate.
Qed.

Lemma index_key_not_proto i : index_key i ≠ "__proto__".
Proof.
  unfold index_key, pretty, pretty_nat, pretty, pretty_N.
  destruct (decide (N.of_nat i = 0%N)); [discriminate|].
  apply pretty_N_go_ne_underscore. discriminate.
Qed.

Lemma own_keys_no_proto (o : object) :
  match o with Plain fields => "__proto__" ∉ fields.*1 | _ => True end →
  "__proto__" ∉ own_keys o.
Proof.
  destruct o as [fields|elems|t]; unfold own_keys; simpl.
  - auto.
  - intros _ Hin. rewrite fmap_imap in Hin.
    rewrite (imap_ext _ (λ j _, index_key j)) in Hin by reflexivity.
    rewrite imap_seq_0 in Hin.
    apply list_elem_of_fmap in Hin as (j & Hj & _).
    exact (index_key_not_proto j (eq_sym Hj)).
  - intros _ Hin. inversion Hin.
Qed.

Section Idle.

Context {host : Host}.

Lemma castFromString_idle s opts h :
  toggles_off opts = true → _castFromString s opts None h = Ok None h.
Proof.
  unfold toggles_off. intros Hoff.
  apply andb_prop in Hoff as [Hoff Ho].
  apply andb_prop in Hoff as [Hoff Hb].
  apply andb_prop in Hoff as [Hn Hd].
  apply negb_true_iff in Hn, Hd, Hb, Ho.
  unfold _castFromString, try_number, try_date, try_boolean, try_object.
  rewrite Hn, Hd, Hb, Ho. reflexivity.
Qed.

Lemma cast_key_idle (deep : string → option (value → M value))
    opts obj c key h :
  toggles_off opts = true → schema opts = None → deep key = None →
  cast_key deep opts obj c key h = Ok c h.
Proof.
  intros Hoff Hsch Hdeep. unfold cast_key.
  assert (Hget : ∃ val, get_field obj key h = Ok val h).
  { destruct obj; simpl; eexists; reflexivity. }
  destruct Hget as [val Hget]. unfold bind at 1. rewrite Hget.
  destruct (negb (truthy val)); [reflexivity|].
  unfold schema_gate, schema_lookup. rewrite Hsch, Hdeep. simpl.
  destruct val; try reflexivity.
  unfold bind. rewrite (castFromString_idle _ _ _ Hoff). reflexivity.
Qed.

Lemma foldM_cast_key_idle (deep : string → option (value → M value))
    opts obj h :
  toggles_off opts = true → schema opts = None → (∀ key, deep key = None) →
  ∀ keys c, foldM (cast_key deep opts obj) keys c h = Ok c h.
Proof.
  intros Hoff Hsch Hdeep. induction keys as [|key keys IH]; intros c; simpl;
    [reflexivity|].
  unfold bind. rewrite cast_key_idle by auto. apply IH.
Qed.

Lemma cast_with_idle (deep : string → option (value → M value))
    opts l o h :
  toggles_off opts = true → schema opts = None → (∀ key, deep key = None) →
  h !! l = Some o → NoDup (own_keys o) → "__proto__" ∉ own_keys o →
  cast_with deep opts (VObject l) h
  = if rewriteFields opts then Ok (VObject l) h
    else Ok (VObject (length h)) (h ++ [Plain (props_of o)])%list.
Proof.
  intros Hoff Hsch Hdeep Hl Hnd Hproto. unfold cast_with. simpl.
  unfold cast_fields, enumerate, read. unfold bind at 1 2 3. unfold ret at 1.
  rewrite Hl. simpl. rewrite foldM_cast_key_idle by auto.
  destruct (rewriteFields opts).
  - unfold assign_in_place, read, write, bind, ret. rewrite Hl. simpl.
    rewrite list_insert_id by exact Hl. reflexivity.
  - unfold assign_copy, read, alloc, bind, ret. rewrite Hl. simpl.
    rewrite (assign_props_Plain_Some _ _ Hproto). simpl.
    unfold own_keys in Hnd. rewrite overlay_copy by exact Hnd. reflexivity.
Qed.

(** X16.  With the four toggles off, no schema and no nested
    configurations -- in particular in a call without options -- [cast]
    on an object without an own key [__proto__] casts nothing: without
    [rewriteFields] it returns a new plain record with the own properties
    of the argument, in the same order, and leaves the store as it was
    otherwise; with [rewriteFields] it returns the argument and the store
    is unchanged.  The copy of an array is a plain record under the keys
    [0], [1], ..., and the copy of a Date has no fields. *)
Theorem cast_without_work (options : option Partial) l o h :
  nothing_to_do (resolve_options options) = true →
  h !! l = Some o →
  match o with
  | Plain fields => NoDup fields.*1 ∧ "__proto__" ∉ fields.*1
  | _ => True
  end →
  cast (VObject l) options h
  = if rewriteFields (resolve_options options) then Ok (VObject l) h
    else Ok (VObject (length h)) (h ++ [Plain (props_of o)])%list.
Proof.
  unfold nothing_to_do. intros Hidle Hl Ho.
  apply andb_prop in Hidle as [Hidle Hdeep].
  apply andb_prop in Hidle as [Hoff Hsch].
  assert (Hsch' : schema (resolve_options options) = None)
    by (destruct (schema _); [discriminate | reflexivity]).
  assert (Hnd : NoDup (own_keys o))
    by (apply own_keys_NoDup; destruct o; tauto).
  assert (Hproto : "__proto__" ∉ own_keys o)
    by (apply own_keys_no_proto; destruct o; tauto).
  destruct options as [p|]; unfold cast.
  - rewrite cast_partial_unfold. apply cast_with_idle; auto.
    intros key. apply deep_casters_None. unfold deep_registered.
    rewrite resolve_options_deepCasters in Hdeep.
    destruct (p_deepCasters p); [discriminate | reflexivity].
  - exact (cast_with_idle (λ _, None) (resolve_options None) l o h
             Hoff Hsch' (λ _, eq_refl) Hl Hnd Hproto).
Qed.

End Idle.

Lemma cast_without_work_witness :
  cast (host := Scenario.host) (VObject 1) None Scenario.price_list
  = Ok (VObject 4)
      (Scenario.price_list ++ [Plain [("0", VObject 2); ("1", VObject 3)]])%list.
Proof.
  apply (cast_without_work (host := Scenario.host) None 1
           (Array [VObject 2; VObject 3]) Scenario.price_list).
  - reflexivity.
  - reflexivity.
  - exact I.
Defined.

(** ** The kind of object [cast] returns *)

Lemma assign_props_Array casted : ∀ elems o',
  assign_props (Array elems) casted = Some o' →
  ∃ elems', o' = Array elems' ∧ length elems' = length elems.
Proof.
  induction casted as [|[k v] casted IH]; intros elems o'; simpl.
  - intros [= <-]. exists elems. split; reflexivity.
  - destruct (array_index k (length elems)) as [i|]; [|discriminate].
    intros Ha. destruct (IH _ _ Ha) as (elems' & -> & Hlen).
    exists elems'. split; [reflexivity|].
    rewrite Hlen. apply length_insert.
Qed.

Section Kinds.

Context {host : Host}.

Lemma cast_unfold (options : option Partial) :
  ∃ deep : string → option (value → M value),
    (∀ v, cast v options = cast_with deep (resolve_options options) v)
    ∧ ∀ S k f, deep k = Some f → frames S f.
Proof.
  destruct options as [p|].
  - exists (deep_casters p). split.
    + intros v. simpl. rewrite cast_partial_unfold. reflexivity.
    + intros S k f. apply deep_casters_frames.
  - exists (λ _, None). split; [reflexivity | discriminate].
Qed.

(** X17.  Without [rewriteFields], [cast] on an object returns a plain
    record that did not exist before, whatever the object is: an array
    does not come back as an array, nor a Date as a Date. *)
Theorem cast_copy_is_plain_record (options : option Partial) l h r h' :
  wf_heap h → (l < length h)%nat →
  rewriteFields (resolve_options options) = false →
  cast (VObject l) options h = Ok r h' →
  ∃ a fields',
    r = VObject a ∧ h !! a = None ∧ h' !! a = Some (Plain fields').
Proof.
  intros Hwf Hl Hrw H.
  destruct (cast_unfold options) as (deep & Heq & Hdeep).
  rewrite Heq in H.
  apply cast_object_inv in H as (casted & h1 & o' & Hloop & Hres).
  rewrite Hrw in Hres. destruct Hres as (Ha & -> & ->).
  destruct (assign_props (Plain []) _) as [o1|] eqn:E1; [|discriminate].
  simpl in Ha. apply assign_props_Plain in E1 as ->.
  apply assign_props_Plain in Ha as ->.
  set (S := λ a : loc, (length h ≤ a)%nat
                       ∨ ∃ l', VObject l = VObject l'
                               ∧ (a = l' ∨ reach h l' a)).
  assert (Hr : region S h) by (apply region_reachable, Hwf).
  assert (HS : S l).
  { right. exists l. split; [reflexivity|]. left. reflexivity. }
  apply (cast_fields_frame S) in Hloop as [Hg _];
    [ | apply Hdeep | exact Hr | ].
  2:{ intros h'' Hg. apply children_in_region; [eapply grows_region; eauto|].
      pose proof (grows_length _ _ _ Hg) as Hlen. simpl. split; [lia|exact HS]. }
  pose proof (grows_length _ _ _ Hg) as Hlen.
  eexists (length h1), _. split; [reflexivity|].
  split; [apply lookup_ge_None_2; lia|].
  apply list_lookup_middle. reflexivity.
Qed.

(** X18.  With [rewriteFields], [cast] on an array that is not part of a
    cycle returns the array itself, and it is still an array of the same
    length. *)
Theorem cast_rewrite_keeps_array (options : option Partial) l elems h r h' :
  wf_heap h → ¬ reach h l l →
  h !! l = Some (Array elems) →
  rewriteFields (resolve_options options) = true →
  cast (VObject l) options h = Ok r h' →
  r = VObject l
  ∧ ∃ elems', h' !! l = Some (Array elems') ∧ length elems' = length elems.
Proof.
  intros Hwf Hacyc Hl Hrw H.
  destruct (cast_unfold options) as (deep & Heq & Hdeep).
  rewrite Heq in H.
  apply cast_object_inv in H as (casted & h1 & o' & Hloop & Hres).
  rewrite Hrw in Hres. destruct Hres as (Ha & -> & ->).
  eapply (cast_fields_top (below h l) _ _ l (Array elems) (λ _, True))
    in Hloop as (Hg & Hl1 & _ & _); eauto.
  - split; [reflexivity|]. rewrite Hl1 in Ha. simpl in Ha.
    destruct (assign_props_Array casted elems o' Ha) as (elems' & -> & Hlen).
    exists elems'. split; [|exact Hlen].
    apply list_lookup_insert_eq. eapply lookup_lt_Some; eauto.
  - apply region_below, Hwf.
  - eapply below_not_self; eauto.
  - intros h'' Hg. eapply below_castable; eauto.
Qed.

End Kinds.

Lemma cast_copy_is_plain_record_witness :
  ∃ a fields',
    VObject 1 = VObject a
    ∧ [Array [VString "1"; VString "2"]] !! a = None
    ∧ [Array [VString "1"; VString "2"];
       Plain [("0", VNumber (Finite 1 0)); ("1", VNumber (Finite 2 0))]] !! a
      = Some (Plain fields').
Proof.
  apply (cast_copy_is_plain_record (host := Scenario.host)
           (Some Scenario.numbers_only) 0
           [Array [VString "1"; VString "2"]]).
  - repeat constructor.
  - simpl. lia.
  - reflexivity.
  - vm_compute. reflexivity.
Defined.

Lemma cast_rewrite_keeps_array_witness :
  VObject 0 = VObject 0
  ∧ ∃ elems',
      [Array [VNumber (Finite 1 0); VNumber (Finite 2 0)]] !! 0
      = Some (Array elems')
      ∧ length elems' = length [VString "1"; VString "2"].
Proof.
  apply (cast_rewrite_keeps_array (host := Scenario.host)
           (Some Scenario.rewrite_numbers) 0 [VString "1"; VString "2"]
           [Array [VString "1"; VString "2"]]).
  - repeat constructor.
  - apply (separates_sound _ _ []). reflexivity.
  - reflexivity.
  - reflexivity.
  - vm_compute. reflexivity.
Defined.

(** ** Objects the schema asks to have as strings *)

Section Stringify.

Context {host : Host}.

(** X19.  For a record outside every cycle, in a store without dangling
    references, without an own key [__proto__], on which [cast] returns,
    under a configuration no nested configuration of which sets
    [rewriteFields]: a field that holds an object, under a key that is not
    the name of a member of [Object.prototype], for which the schema names
    the type ['string'] and that is not [in opts.deepCasters]: the result
    holds under the key the text [JSON.stringify] returns for the object,
    in the store [hk] the loop has reached by then -- the store of the
    call followed by what the earlier fields allocated. *)
Theorem object_field_stringified (p : Partial) l fields key b h r h' :
  wf_heap h → ¬ reach h l l →
  h !! l = Some (Plain fields) → NoDup fields.*1 →
  "__proto__" ∉ fields.*1 →
  copies_below p →
  assoc_get key fields = Some (VObject b) →
  p_schema p ≫= assoc_get key = Some (SType T_string) →
  inherited key = false →
  deep_registered p key = false →
  cast (VObject l) (Some p) h = Ok r h' →
  ∃ hk s,
    h `prefix_of` hk
    ∧ js_JSON_stringify hk (VObject b) = Some s
    ∧ field_of h' r key = Some (VString s).
Proof.
  intros Hwf Hacyc Hl Hnd _ Hcopies Hv Hsch Hinh Hdeep H.
  destruct (cast_field_turn_loop p l fields key h r h' Hwf Hacyc Hl Hnd
              (assoc_get_Some_keys _ _ _ Hv) H)
    as (ks & c & hk & c' & hk' & Hloop & _ & Hlk & Hc & Hturn & _ & _ & ->).
  apply foldM_cast_key_prefix in Hloop; [|apply deep_casters_prefix, Hcopies].
  rewrite <- schema_lookup_resolve in Hsch.
  apply deep_casters_None in Hdeep.
  assert (Hkey : key ≠ "__proto__")
    by (intros ->; vm_compute in Hinh; discriminate).
  rewrite (cast_key_unfold _ _ _ _ _ _ _ _ Hlk Hv) in Hturn.
  simpl in Hturn. rewrite (schema_gate_tagged _ _ _ Hsch) in Hturn.
  rewrite Hdeep in Hturn. unfold bind at 1, ret at 1 in Hturn.
  rewrite (fallback_guard _ _ _ _ Hsch Hc), Hinh, Hsch in Hturn.
  simpl in Hturn.
  unfold _castSchemaField, bind, ret in Hturn. simpl in Hturn.
  destruct (js_JSON_stringify hk (VObject b)) as [s|] eqn:Es;
    [|discriminate].
  rewrite (store_returns _ _ _ _ Hkey) in Hturn.
  injection Hturn as <- <-.
  exists hk, s. split; [exact Hloop|]. split; [exact Es|].
  rewrite assoc_get_set_eq. reflexivity.
Qed.

End Stringify.

(** [{d: [1, 2]}] with [{schema: {d: 'string'}}]: the array comes back
    as the text [[1,2]]. *)
Lemma object_field_stringified_witness :
  let h := [Plain [("d", VObject 1)];
            Array [VNumber (Finite 1 0); VNumber (Finite 2 0)]] in
  let p := Scenario.numbers_with_schema None [("d", SType T_string)] in
  cast (host := JS.printing_host) (VObject 0) (Some p) h
  = Ok (VObject 2) (h ++ [Plain [("d", VString "[1,2]")]])%list
  ∧ ∃ hk s,
      h `prefix_of` hk
      ∧ js_JSON_stringify (Host := JS.printing_host) hk (VObject 1) = Some s
      ∧ field_of (h ++ [Plain [("d", VString "[1,2]")]])%list (VObject 2) "d"
        = Some (VString s).
Proof.
  split; [vm_compute; reflexivity|].
  apply (object_field_stringified (host := JS.printing_host)
           (Scenario.numbers_with_schema None [("d", SType T_string)])
           0 [("d", VObject 1)] "d" 1
           [Plain [("d", VObject 1)];
            Array [VNumber (Finite 1 0); VNumber (Finite 2 0)]]).
  - repeat constructor.
  - apply (separates_sound _ _ [1]). reflexivity.
  - reflexivity.
  - apply (bool_decide_unpack _). reflexivity.
  - apply (bool_decide_unpack _). reflexivity.
  - constructor. simpl. constructor.
  - reflexivity.
  - reflexivity.
  - reflexivity.
  - reflexivity.
  - vm_compute. reflexivity.
Defined.

(** ** The default date pattern *)

Lemma default_pattern_first_branch b s :
  regex_match
    (RSeqs [ RStart;
             RSeqs [RRep 4 RDigit; RChar "-"; RRep 2 RDigit; RChar "-";
                    RRep 2 RDigit];
             ROpt (RSeqs [RChar "T"; RRep 2 RDigit; RChar ":";
                          RRep 2 RDigit; RChar ":"; RRep 2 RDigit;
                          RChar "Z"]) ])
    b s (λ _ _, true)
  = b && starts_like yyyy_mm_dd s.
Proof.
  do 10 (destruct s as [|? s];
         [simpl; rewrite ?andb_false_r; reflexivity|]).
  simpl. rewrite !orb_true_r, !andb_true_r. reflexivity.
Qed.

Lemma default_pattern_second_branch b s :
  regex_match
    (RSeqs [ RSeqs [RRep 2 RDigit; RChar "-"; RRep 2 RDigit; RChar "-";
                    RAlt (RRep 2 RDigit) (RRep 4 RDigit)];
             REnd ])
    b s (λ _ _, true)
  = is_like dd_mm_yy s || is_like dd_mm_yyyy s.
Proof.
  do 8 (destruct s as [|? s];
        [simpl; rewrite ?andb_false_r; reflexivity|]).
  destruct s as [|? s].
  { simpl. rewrite !andb_true_r, !andb_false_r, !orb_false_r. reflexivity. }
  destruct s as [|? s].
  { simpl. rewrite !andb_false_r, !orb_false_r. reflexivity. }
  destruct s as [|? s]; cbn -[Ascii.eqb is_digit];
    repeat match goal with
           | |- context [is_digit ?c] => destruct (is_digit c)
           | |- context [Ascii.eqb ?x ?c] => destruct (Ascii.eqb x c)
           end; reflexivity.
Qed.

Lemma default_pattern_search s :
  regex_search
    (RAlt
       (RSeqs [ RStart;
                RSeqs [RRep 4 RDigit; RChar "-"; RRep 2 RDigit; RChar "-";
                       RRep 2 RDigit];
                ROpt (RSeqs [RChar "T"; RRep 2 RDigit; RChar ":";
                             RRep 2 RDigit; RChar ":"; RRep 2 RDigit;
                             RChar "Z"]) ])
       (RSeqs [ RSeqs [RRep 2 RDigit; RChar "-"; RRep 2 RDigit; RChar "-";
                       RAlt (RRep 2 RDigit) (RRep 4 RDigit)];
                REnd ]))
    false s
  = ends_like dd_mm_yy s || ends_like dd_mm_yyyy s.
Proof.
  induction s as [|c s IH].
  - reflexivity.
  - cbn [regex_search ends_like]. rewrite IH. cbn [regex_match].
    rewrite default_pattern_first_branch, default_pattern_second_branch.
    rewrite andb_false_l.
    destruct (is_like dd_mm_yy (String c s)),
      (is_like dd_mm_yyyy (String c s)),
      (ends_like dd_mm_yy s), (ends_like dd_mm_yyyy s); reflexivity.
Qed.

(** X20.  The default date pattern accepts exactly the strings that
    start with [yyyy-mm-dd], or end with [dd-mm-yy] or [dd-mm-yyyy]: the
    alternation is the outermost operator of the pattern, so [^] anchors
    the first form only and [$] the second only, and a string with
    anything after a leading [yyyy-mm-dd], or anything before a trailing
    [dd-mm-yy], passes. *)
Theorem default_date_pattern_accepts (s : string) :
  existsb (λ r, regex_test r s) datesMatchRegexDefault
  = starts_like yyyy_mm_dd s || ends_like dd_mm_yy s
    || ends_like dd_mm_yyyy s.
Proof.
  unfold datesMatchRegexDefault, regex_test. cbn [existsb].
  rewrite orb_false_r.
  destruct s as [|c s].
  - reflexivity.
  - cbn [regex_search ends_like]. rewrite default_pattern_search.
    cbn [regex_match].
    rewrite default_pattern_first_branch, default_pattern_second_branch.
    rewrite andb_true_l.
    destruct (starts_like yyyy_mm_dd (String c s)),
      (is_like dd_mm_yy (String c s)),
      (is_like dd_mm_yyyy (String c s)),
      (ends_like dd_mm_yy s), (ends_like dd_mm_yyyy s); reflexivity.
Qed.

(** ** A nested configuration on a field that holds one object *)

Section Deep_object.

Context {host : Host}.


End Deep_object.

